(** * Jellyfin playlist generator: the matching engine

    A shallow embedding of [jellyfin_playlist_generator.py]: the text
    normalizer, the similarity scorer, the candidate retriever, the staged
    resolver, the interactive disambiguator and the two resolution rounds of
    [main], then the detection of the paths, the prompts, the reading of a
    playlist file and [main] itself, followed by the properties of each
    component.

    Conventions of the embedding.
    - A Python [str] is a list of Unicode code points ([text]).  The Unicode
      character database is represented on Basic Latin and the Latin-1
      Supplement (U+0000 to U+00FF): decomposition, lower-casing, white space
      and decimal digits are the real tables on that range, and statements
      that quantify over input text say so with [latin1].
    - A Python [float] is an IEEE 754 binary64 value ([PrimFloat.float]);
      arithmetic and comparisons are the primitive ones.
    - The file system is a tree of nodes; [os.listdir] either lists a
      directory or raises.
    - An exception that leaves a function is the [inl] of a [result].
    - [int] is represented on texts within its default limit of 4300
      digits: statements that quantify over a line of input say so with
      [plain_line].
    - Writing to the terminal ([print]) is not represented, so that a
      statement about exceptions concerns the exceptions it names and not
      those that writing may raise. *)

From Stdlib Require Import String Ascii.
From Stdlib Require Import NArith ZArith List Bool Lia.
From Stdlib Require Import Floats Permutation Sorted.
Import ListNotations.

(* Decimal literals denote the nearest binary64 value, as they do in Python. *)
#[local] Set Warnings "-inexact-float,-register-all".

Local Open Scope N_scope.

(* ================================================================== *)
(** * Text *)

Module Text.

Definition char := N.
Definition text := list char.

(** An ASCII literal as text. *)
Definition str (s : string) : text := map N_of_ascii (list_ascii_of_string s).

Definition latin1 (t : text) : Prop := Forall (fun c => c < 0x100) t.

Definition text_eqb (a b : text) : bool :=
  if list_eq_dec N.eq_dec a b then true else false.

(** ** Character classes *)

(** [str.isspace], which is also the class [\s] of [re] on [str] patterns. *)
Definition isspace (c : char) : bool :=
  ((0x09 <=? c) && (c <=? 0x0D)) || ((0x1C <=? c) && (c <=? 0x20))
  || (c =? 0x85) || (c =? 0xA0).

(** The class [\d]: decimal digits. *)
Definition isdigit (c : char) : bool := (0x30 <=? c) && (c <=? 0x39).

(** [str.lower], one code point at a time. *)
Definition lower_char (c : char) : char :=
  if (0x41 <=? c) && (c <=? 0x5A) then c + 0x20
  else if (0xC0 <=? c) && (c <=? 0xDE) && negb (c =? 0xD7) then c + 0x20
  else c.

Definition lower (t : text) : text := map lower_char t.

(** ** Compatibility decomposition (NFKD) *)

Definition grave := 0x300.
Definition acute := 0x301.
Definition circumflex := 0x302.
Definition tilde := 0x303.
Definition macron := 0x304.
Definition diaeresis := 0x308.
Definition ring_above := 0x30A.
Definition cedilla := 0x327.
Definition fraction_slash := 0x2044.

(** The full decomposition of one code point of the Latin-1 range. *)
Definition latin1_decomposition (c : char) : text :=
  match c with
  | 0xA0 => [0x20]
  | 0xA8 => [0x20; diaeresis]
  | 0xAA => [0x61]
  | 0xAF => [0x20; macron]
  | 0xB2 => [0x32]
  | 0xB3 => [0x33]
  | 0xB4 => [0x20; acute]
  | 0xB5 => [0x3BC]
  | 0xB8 => [0x20; cedilla]
  | 0xB9 => [0x31]
  | 0xBA => [0x6F]
  | 0xBC => [0x31; fraction_slash; 0x34]
  | 0xBD => [0x31; fraction_slash; 0x32]
  | 0xBE => [0x33; fraction_slash; 0x34]
  | 0xC0 => [0x41; grave] | 0xC1 => [0x41; acute] | 0xC2 => [0x41; circumflex]
  | 0xC3 => [0x41; tilde] | 0xC4 => [0x41; diaeresis] | 0xC5 => [0x41; ring_above]
  | 0xC7 => [0x43; cedilla]
  | 0xC8 => [0x45; grave] | 0xC9 => [0x45; acute] | 0xCA => [0x45; circumflex]
  | 0xCB => [0x45; diaeresis]
  | 0xCC => [0x49; grave] | 0xCD => [0x49; acute] | 0xCE => [0x49; circumflex]
  | 0xCF => [0x49; diaeresis]
  | 0xD1 => [0x4E; tilde]
  | 0xD2 => [0x4F; grave] | 0xD3 => [0x4F; acute] | 0xD4 => [0x4F; circumflex]
  | 0xD5 => [0x4F; tilde] | 0xD6 => [0x4F; diaeresis]
  | 0xD9 => [0x55; grave] | 0xDA => [0x55; acute] | 0xDB => [0x55; circumflex]
  | 0xDC => [0x55; diaeresis]
  | 0xDD => [0x59; acute]
  | 0xE0 => [0x61; grave] | 0xE1 => [0x61; acute] | 0xE2 => [0x61; circumflex]
  | 0xE3 => [0x61; tilde] | 0xE4 => [0x61; diaeresis] | 0xE5 => [0x61; ring_above]
  | 0xE7 => [0x63; cedilla]
  | 0xE8 => [0x65; grave] | 0xE9 => [0x65; acute] | 0xEA => [0x65; circumflex]
  | 0xEB => [0x65; diaeresis]
  | 0xEC => [0x69; grave] | 0xED => [0x69; acute] | 0xEE => [0x69; circumflex]
  | 0xEF => [0x69; diaeresis]
  | 0xF1 => [0x6E; tilde]
  | 0xF2 => [0x6F; grave] | 0xF3 => [0x6F; acute] | 0xF4 => [0x6F; circumflex]
  | 0xF5 => [0x6F; tilde] | 0xF6 => [0x6F; diaeresis]
  | 0xF9 => [0x75; grave] | 0xFA => [0x75; acute] | 0xFB => [0x75; circumflex]
  | 0xFC => [0x75; diaeresis]
  | 0xFD => [0x79; acute]
  | 0xFF => [0x79; diaeresis]
  | _ => [c]
  end.

Definition decomposition (c : char) : text :=
  if c <? 0x100 then latin1_decomposition c else [c].

(** [unicodedata.normalize('NFKD', text)].  A Latin-1 code point contributes
    at most one combining mark, next to its own base letter, so the
    canonical reordering of marks has nothing to reorder. *)
Definition nfkd (t : text) : text := flat_map decomposition t.

(** ** Stripping *)

Fixpoint lstrip (t : text) : text :=
  match t with
  | c :: r => if isspace c then lstrip r else t
  | [] => []
  end.

Fixpoint rstrip (t : text) : text :=
  match t with
  | c :: r =>
      match rstrip r with
      | [] => if isspace c then [] else [c]
      | r' => c :: r'
      end
  | [] => []
  end.

(** [str.strip()] *)
Definition strip (t : text) : text := rstrip (lstrip t).

(** ** Substrings *)

Fixpoint startswith (t p : text) : bool :=
  match p, t with
  | [], _ => true
  | x :: p', y :: t' => (x =? y) && startswith t' p'
  | _ :: _, [] => false
  end.

Definition endswith (t p : text) : bool := startswith (rev t) (rev p).

(** [p in t] *)
Fixpoint contains (t p : text) : bool :=
  startswith t p || match t with _ :: r => contains r p | [] => false end.

(** [t.split(sep, 1)] when [sep] occurs in [t]: the text before and after
    its first occurrence. *)
Fixpoint split_once (t sep : text) : option (text * text) :=
  if startswith t sep then Some ([], skipn (length sep) t)
  else match t with
       | c :: r => match split_once r sep with
                   | Some (a, b) => Some (c :: a, b)
                   | None => None
                   end
       | [] => None
       end.

(** [t.replace(old, new)] for a key [old] of one code point. *)
Definition replace (old : char) (new : text) (t : text) : text :=
  flat_map (fun c => if c =? old then new else [c]) t.

End Text.
Export Text.

(* ================================================================== *)
(** * Regular expressions

    The patterns of the program are concatenations of single-character
    classes and greedy repetitions of single-character classes.  The
    matcher is the backtracking one of [re]: a repetition first takes as
    many characters as it can and gives them back one at a time. *)

Module Re.

Inductive item :=
| One (cls : char -> bool)
| Star (cls : char -> bool).

Definition regex := list item.

(** [re_match r s]: the text left after the match of [r] at the start of
    [s], if there is one. *)
Fixpoint re_match (r : regex) (s : text) {struct r} : option text :=
  match r with
  | [] => Some s
  | One cls :: r' =>
      match s with
      | c :: s' => if cls c then re_match r' s' else None
      | [] => None
      end
  | Star cls :: r' =>
      (fix star (s : text) : option text :=
         match s with
         | c :: s' =>
             if cls c then
               match star s' with
               | Some rest => Some rest
               | None => re_match r' s
               end
             else re_match r' s
         | [] => re_match r' s
         end) s
  end.

(** [re.sub(r, repl, s)] for a pattern that matches no empty text: the
    leftmost matches, left to right, none overlapping another. *)
Fixpoint re_sub_from (fuel : nat) (r : regex) (repl s : text) : text :=
  match fuel with
  | O => s
  | S fuel' =>
      match s with
      | [] => []
      | c :: s' =>
          match re_match r s with
          | Some rest =>
              if (length rest <? length s)%nat
              then repl ++ re_sub_from fuel' r repl rest
              else c :: re_sub_from fuel' r repl s'
          | None => c :: re_sub_from fuel' r repl s'
          end
      end
  end.

Definition re_sub (r : regex) (repl s : text) : text :=
  re_sub_from (length s) r repl s.

(** [re.sub('^' + r, '', s)]: the pattern is tried at the start only. *)
Definition re_sub_anchored (r : regex) (s : text) : text :=
  match re_match r s with
  | Some rest => rest
  | None => s
  end.

(** Classes and pattern pieces. *)
Definition only (c : char) : char -> bool := fun x => x =? c.
Definition except (c : char) : char -> bool := fun x => negb (x =? c).
(** A letter under [re.IGNORECASE]. *)
Definition ignorecase (c : char) : char -> bool := fun x => lower_char x =? c.

Definition literal (w : text) : regex := map (fun c => One (ignorecase c)) w.
Definition plus (cls : char -> bool) : regex := [One cls; Star cls].

End Re.
Export Re.

(* ================================================================== *)
(** * Text normalizer *)

Module Normalizer.

Definition year : regex := [One isdigit; One isdigit; One isdigit; One isdigit].

(** [\s*\([^)]*KW[^)]*\)] and [\s*\[[^\]]*KW[^\]]*\]] *)
Definition group (open close : char) (kw : regex) : regex :=
  [Star isspace; One (only open); Star (except close)] ++ kw
  ++ [Star (except close); One (only close)].

Definition paren := group 0x28 0x29.
Definition bracket := group 0x5B 0x5D.

Definition patterns_to_remove : list regex :=
  [ paren (literal (str "remaster"));
    paren (literal (str "remix"));
    paren (literal (str "edit"));
    paren (literal (str "version"));
    paren (literal (str "mix"));
    paren year;
    bracket (literal (str "remaster"));
    bracket year ].

(** A dict display: a key written twice keeps its first position and takes
    the last value. *)
Fixpoint dict_set (d : list (char * text)) (k : char) (v : text) : list (char * text) :=
  match d with
  | [] => [(k, v)]
  | (k', v') :: d' => if k' =? k then (k', v) :: d' else (k', v') :: dict_set d' k v
  end.

Definition dict_display (items : list (char * text)) : list (char * text) :=
  fold_left (fun d kv => dict_set d (fst kv) (snd kv)) items [].

Definition replacements : list (char * text) :=
  dict_display
    [ (0x26, str "and"); (0x2B, str "and");
      (0xE4, str "ae"); (0xF6, str "oe"); (0xFC, str "ue"); (0xDF, str "ss");
      (0xE9, str "e"); (0xE8, str "e"); (0xEA, str "e"); (0xEB, str "e");
      (0xE1, str "a"); (0xE0, str "a"); (0xE2, str "a"); (0xE3, str "a");
      (0xED, str "i"); (0xEC, str "i"); (0xEE, str "i"); (0xEF, str "i");
      (0xF3, str "o"); (0xF2, str "o"); (0xF4, str "o"); (0xF5, str "o");
      (0xFA, str "u"); (0xF9, str "u"); (0xFB, str "u"); (0xFC, str "u") ].

Definition remove_patterns (t : text) : text :=
  fold_left (fun t p => re_sub p [] t) patterns_to_remove t.

Definition apply_replacements (t : text) : text :=
  fold_left (fun t kv => replace (fst kv) (snd kv) t) replacements t.

Definition collapse_whitespace (t : text) : text :=
  re_sub (plus isspace) (str " ") t.

Definition normalize_text (t : text) : text :=
  match t with
  | [] => []
  | _ =>
      let t := nfkd t in
      let t := strip (lower t) in
      let t := remove_patterns t in
      let t := apply_replacements t in
      let t := collapse_whitespace t in
      strip t
  end.


(** ** Notions for the statements about the normalizer *)

(** Decomposition followed by lower-casing, the first two steps. *)
Definition folded (t : text) : text := lower (nfkd t).

(** The part of a group pattern behind the opening bracket. *)
Definition group_tail (close : char) : regex := [Star (except close); One (only close)].
Definition group_inner (close : char) (kw : regex) : regex :=
  Star (except close) :: kw ++ group_tail close.

(** The qualifiers that have a pattern in round brackets, and those that
    have one in square brackets. *)
Definition paren_qualifiers : list regex :=
  [ literal (str "remaster"); literal (str "remix"); literal (str "edit");
    literal (str "version"); literal (str "mix"); year ].

Definition bracket_qualifiers : list regex := [ literal (str "remaster"); year ].

Definition has_qualifier (kw : regex) (q : text) : Prop :=
  exists q1 k q2, folded q = q1 ++ k ++ q2 /\ re_match kw k = Some [].

Definition is_bracket (c : char) : bool :=
  (c =? 0x28) || (c =? 0x29) || (c =? 0x5B) || (c =? 0x5D).

Definition no_brackets (t : text) : Prop := Forall (fun c => is_bracket c = false) t.

Definition no_opening (t : text) : Prop := ~ In 0x28 t /\ ~ In 0x5B t.

(** A qualifier: characters one by one, none of them the closing bracket. *)
Definition plain (close : char) (kw : regex) : Prop :=
  Forall (fun it => match it with One cls => cls close = false | Star _ => False end) kw.

(** All the patterns of one kind of bracket, one after the other. *)
Definition remove_groups (open close : char) (kws : list regex) (t : text) : text :=
  fold_left (fun t kw => re_sub (group open close kw) [] t) kws t.

(** What [rstrip] leaves is empty or ends with a character that is not
    white space. *)
Inductive ends_nonspace : text -> Prop :=
| ends_one (c : char) : isspace c = false -> ends_nonspace [c]
| ends_cons (c : char) (t : text) : ends_nonspace t -> ends_nonspace (c :: t).

(** Characters that decomposition and lower-casing leave alone. *)
Definition stableb (c : char) : bool :=
  text_eqb (decomposition c) [c] && (lower_char c =? c).

Definition stable (c : char) : Prop := stableb c = true.

Definition replace_all (R : list (char * text)) (t : text) : text :=
  fold_left (fun t kv => replace (fst kv) (snd kv) t) R t.

Definition is_key (c : char) : bool := existsb (N.eqb c) (map fst replacements).

(** White space that has been collapsed: single spaces only. *)
Fixpoint collapsed (t : text) : Prop :=
  match t with
  | [] => True
  | c :: r =>
      (isspace c = true ->
       c = 0x20 /\ match r with d :: _ => isspace d = false | [] => True end)
      /\ collapsed r
  end.

End Normalizer.
Export Normalizer.

(* ================================================================== *)
(** * Similarity scorer

    [difflib.SequenceMatcher(None, a, b).ratio()]: twice the number of
    matched characters over the total length, the matched characters being
    those of the longest common block and, recursively, of the longest
    common blocks to its left and to its right. *)

Module Difflib.

Local Open Scope nat_scope.

Definition count (c : char) (b : text) : nat := List.length (filter (N.eqb c) b).

(** The automatic junk heuristic: in a second sequence of 200 characters
    or more, a character that makes up more than one percent of it (plus
    one) is left out of the index of positions. *)
Definition popular (b : text) (c : char) : bool :=
  (200 <=? List.length b) && (List.length b / 100 + 1 <? count c b).

Definition block := (nat * nat * nat)%type.
Definition block_size (m : block) : nat := snd m.

Section Matcher.

Variable pop : char -> bool.

(** One row of the table of common-suffix lengths: [prev] is the row of the
    previous character of [a], [diag] its entry one column to the left. *)
Fixpoint row (ai : char) (i : nat) (b : text) (j : nat) (prev : list nat)
    (diag : nat) (best : block) : list nat * block :=
  match b with
  | [] => ([], best)
  | bj :: b' =>
      let k := if (bj =? ai)%N && negb (pop bj) then S diag else 0 in
      let best' := if block_size best <? k then (i + 1 - k, j + 1 - k, k) else best in
      let '(r, best'') := row ai i b' (S j) (tl prev) (hd 0 prev) best' in
      (k :: r, best'')
  end.

Fixpoint rows (a : text) (i : nat) (b : text) (prev : list nat) (best : block) : block :=
  match a with
  | [] => best
  | ai :: a' =>
      let '(r, best') := row ai i b 0 prev 0 best in
      rows a' (S i) b r best'
  end.

Fixpoint extend_left (a b : text) (i j k : nat) : block :=
  match i, j with
  | S i', S j' =>
      match nth_error a i', nth_error b j' with
      | Some x, Some y => if (x =? y)%N then extend_left a b i' j' (S k) else (i, j, k)
      | _, _ => (i, j, k)
      end
  | _, _ => (i, j, k)
  end.

Fixpoint common_prefix (a b : text) : nat :=
  match a, b with
  | x :: a', y :: b' => if (x =? y)%N then S (common_prefix a' b') else 0
  | _, _ => 0
  end.

Definition extend_right (a b : text) (m : block) : block :=
  let '(i, j, k) := m in
  (i, j, k + common_prefix (skipn (i + k) a) (skipn (j + k) b)).

(** [find_longest_match] on the two slices [a] and [b]. *)
Definition find_longest_match (a b : text) : block :=
  let '(i, j, k) := rows a 0 b [] (0, 0, 0) in
  extend_right a b (extend_left a b i j k).

(** The sum of the sizes of [get_matching_blocks()]. *)
Fixpoint matched (fuel : nat) (a b : text) : nat :=
  match fuel with
  | O => 0
  | S fuel' =>
      let '(i, j, k) := find_longest_match a b in
      if k =? 0 then 0
      else
        k
        + (if (0 <? i) && (0 <? j)
           then matched fuel' (firstn i a) (firstn j b) else 0)
        + (if (i + k <? List.length a) && (j + k <? List.length b)
           then matched fuel' (skipn (i + k) a) (skipn (j + k) b) else 0)
  end.

End Matcher.

Definition float_of_nat (n : nat) : float := PrimFloat.of_uint63 (Uint63.of_Z (Z.of_nat n)).

(** [_calculate_ratio(matches, length)] *)
Definition calculate_ratio (matches length : nat) : float :=
  if length =? 0 then 1%float
  else (2 * float_of_nat matches / float_of_nat length)%float.

Definition ratio (a b : text) : float :=
  calculate_ratio (matched (popular b) (S (List.length a)) a b)
                  (List.length a + List.length b).

End Difflib.

(** [similarity(a, b)] *)
Definition similarity (a b : text) : float :=
  Difflib.ratio (normalize_text a) (normalize_text b).

(** [is_live_version(filename)] *)
Definition live_indicators : list text :=
  [str "live"; str "concert"; str "tour"; str "festival"; str "unplugged"; str "acoustic"].

Definition is_live_version (filename : text) : bool :=
  let filename_lower := lower filename in
  existsb (fun indicator => contains filename_lower indicator) live_indicators.

(* ================================================================== *)
(** * Exceptions and the file system *)

Inductive exn := PermissionError | NotADirectoryError | EOFError | IndexError.

Definition result (A : Type) : Type := (exn + A)%type.

Definition ret {A} (x : A) : result A := inr x.
Definition raise {A} (e : exn) : result A := inl e.
Definition bind {A B} (c : result A) (k : A -> result B) : result B :=
  match c with
  | inl e => inl e
  | inr x => k x
  end.

Notation "x <- c ;; k" := (bind c (fun x => k))
  (at level 61, c at next level, right associativity).

(** A directory entry is a file or a directory; a directory that the
    process may not read has no listing. *)
Inductive node :=
| File
| Dir (listing : option (list (text * node))).

(** [os.path.isdir] *)
Definition isdir (n : node) : bool :=
  match n with
  | Dir _ => true
  | File => false
  end.

(** [os.listdir] *)
Definition listdir (n : node) : result (list (text * node)) :=
  match n with
  | File => raise NotADirectoryError
  | Dir None => raise PermissionError
  | Dir (Some entries) => ret entries
  end.

(** [os.path.join(a, b)] *)
Definition os_path_join (a b : text) : text :=
  if startswith b (str "/") then b
  else if match a with [] => true | _ => endswith a (str "/") end then a ++ b
  else a ++ str "/" ++ b.

(** [t.rfind(c)] *)
Definition rfind (c : char) (t : text) : Z :=
  snd (fold_left (fun '(i, found) x => ((i + 1)%Z, if (x =? c)%N then i else found))
                 t (0%Z, (-1)%Z)).

(** [os.path.splitext(p)[0]] *)
Definition splitext_root (p : text) : text :=
  let sepIndex := rfind 0x2F p in
  let dotIndex := rfind 0x2E p in
  if (sepIndex <? dotIndex)%Z then
    let leading := firstn (Z.to_nat (dotIndex - (sepIndex + 1)))
                          (skipn (Z.to_nat (sepIndex + 1)) p) in
    if forallb (only 0x2E) leading then p else firstn (Z.to_nat dotIndex) p
  else p.

(* ================================================================== *)
(** * Candidate retriever *)

Local Open Scope float_scope.

Record candidate := {
  path : text;
  artist : text;
  title : text;
  final_score : float;      (* the entry 'similarity' *)
  artist_sim : float;
  title_sim : float;
  is_live : bool;
  filename : text;
  is_flac : bool
}.

Definition audio_extensions : list text :=
  [str ".mp3"; str ".flac"; str ".m4a"; str ".ogg"; str ".wav"].

Definition is_audio (file : text) : bool :=
  existsb (endswith (lower file)) audio_extensions.

(** [^\d+\s*[-\.]\s*] *)
Definition track_number : regex :=
  plus isdigit
  ++ [Star isspace; One (fun c => (c =? 0x2D)%N || (c =? 0x2E)%N); Star isspace].

(** The artist and title read off a file name. *)
Definition parse_filename (artist_dir file : text) : text * text :=
  let filename_no_ext := splitext_root file in
  let filename_clean := re_sub_anchored track_number filename_no_ext in
  if contains filename_clean (str " - ") then
    match split_once filename_clean (str " - ") with
    | Some (file_artist, file_title) => (file_artist, file_title)
    | None => (artist_dir, filename_clean)
    end
  else (artist_dir, filename_clean).

Definition combined (artist_sim file_artist_sim title_sim : float) : float :=
  (artist_sim * 0.6 + file_artist_sim * 0.2 + title_sim * 0.6) / 1.4.

Definition flac_bonus (file : text) : float :=
  if endswith (lower file) (str ".flac") then 0.05 else 0.0.

(** The three thresholds of one call. *)
Record thresholds := {
  min_similarity : float;
  min_artist_sim : float;
  min_title_sim : float
}.

Section Scan.

Variables (search_artist search_title : text) (th : thresholds).

(** The body of the innermost loop, for a file with an audio extension:
    the candidate appended to [matches], if the file passes. *)
Definition score_file (artist_dir : text) (artist_sim : float)
    (album_path file : text) : option candidate :=
  let full_path := os_path_join album_path file in
  let '(file_artist, file_title) := parse_filename artist_dir file in
  let file_artist_sim := similarity search_artist (normalize_text file_artist) in
  let title_sim := similarity search_title (normalize_text file_title) in
  let combined_sim := combined artist_sim file_artist_sim title_sim in
  if (min_similarity th <=? combined_sim)
     && (min_artist_sim th <=? artist_sim)
     && (min_title_sim th <=? title_sim)
  then
    let is_live := is_live_version file in
    let final_score := combined_sim + flac_bonus file in
    Some {| path := full_path; artist := file_artist; title := file_title;
            final_score := final_score; artist_sim := artist_sim;
            title_sim := title_sim; is_live := is_live; filename := file;
            is_flac := endswith (lower file) (str ".flac") |}
  else None.

(** [for file in os.listdir(album_path)] *)
Fixpoint scan_files (artist_dir : text) (artist_sim : float) (album_path : text)
    (files : list (text * node)) (matches : list candidate) : list candidate :=
  match files with
  | [] => matches
  | (file, _) :: files' =>
      let matches :=
        if is_audio file then
          match score_file artist_dir artist_sim album_path file with
          | Some m => matches ++ [m]
          | None => matches
          end
        else matches in
      scan_files artist_dir artist_sim album_path files' matches
  end.

(** [for album_dir in os.listdir(artist_path)] *)
Fixpoint scan_albums (artist_dir : text) (artist_sim : float) (artist_path : text)
    (albums : list (text * node)) (matches : list candidate)
    : result (list candidate) :=
  match albums with
  | [] => ret matches
  | (album_dir, n) :: albums' =>
      let album_path := os_path_join artist_path album_dir in
      if negb (isdir n) then
        scan_albums artist_dir artist_sim artist_path albums' matches
      else
        files <- listdir n ;;
        scan_albums artist_dir artist_sim artist_path albums'
          (scan_files artist_dir artist_sim album_path files matches)
  end.

(** [for artist_dir in os.listdir(music_library_path)] *)
Fixpoint scan_artists (music_library_path : text)
    (artists : list (text * node)) (matches : list candidate)
    : result (list candidate) :=
  match artists with
  | [] => ret matches
  | (artist_dir, n) :: artists' =>
      let artist_path := os_path_join music_library_path artist_dir in
      if negb (isdir n) then scan_artists music_library_path artists' matches
      else
        let artist_sim := similarity search_artist (normalize_text artist_dir) in
        if artist_sim <? min_artist_sim th
        then scan_artists music_library_path artists' matches
        else
          albums <- listdir n ;;
          matches <- scan_albums artist_dir artist_sim artist_path albums matches ;;
          scan_artists music_library_path artists' matches
  end.

End Scan.

(** ** The ranking *)

Definition sort_key (x : candidate) : bool * bool * float :=
  (is_live x, negb (is_flac x), - final_score x).

Definition bool_lt (a b : bool) : bool := negb a && b.

(** The order of tuples: the first components that differ decide. *)
Definition key_lt (k1 k2 : bool * bool * float) : bool :=
  let '(l1, f1, s1) := k1 in
  let '(l2, f2, s2) := k2 in
  if negb (Bool.eqb l1 l2) then bool_lt l1 l2
  else if negb (Bool.eqb f1 f2) then bool_lt f1 f2
  else if negb (s1 =? s2) then s1 <? s2
  else false.

(** [list.sort(key=...)] is a stable sort: an element moves in front of
    those that come before it only when its key is smaller. *)
Fixpoint insert_sorted (x : candidate) (l : list candidate) : list candidate :=
  match l with
  | [] => [x]
  | y :: l' =>
      if key_lt (sort_key y) (sort_key x) then y :: insert_sorted x l'
      else x :: l
  end.

Definition sort_matches (l : list candidate) : list candidate :=
  fold_right insert_sorted [] l.

(** The library on disk: what [music_library_path] names, if it exists. *)
Definition library := option node.

(** The matches in the order of discovery. *)
Definition scan (artist title : text) (lib : library) (music_library_path : text)
    (th : thresholds) : result (list candidate) :=
  match lib with
  | None => ret []
  | Some root =>
      let search_artist := normalize_text artist in
      let search_title := normalize_text title in
      artists <- listdir root ;;
      scan_artists search_artist search_title th music_library_path artists []
  end.

Definition find_best_matches (artist title : text) (lib : library)
    (music_library_path : text) (th : thresholds) : result (list candidate) :=
  matches <- scan artist title lib music_library_path th ;;
  ret (sort_matches matches).

(* ================================================================== *)
(** * Staged resolver *)

Definition stage1 := {| min_similarity := 0.75; min_artist_sim := 0.7; min_title_sim := 0.7 |}.
Definition stage2 := {| min_similarity := 0.65; min_artist_sim := 0.6; min_title_sim := 0.6 |}.
Definition stage3 := {| min_similarity := 0.5; min_artist_sim := 0.4; min_title_sim := 0.5 |}.

Definition search_with_fallback (artist title : text) (lib : library)
    (music_library_path : text) : result (option candidate) :=
  matches <- find_best_matches artist title lib music_library_path stage1 ;;
  match matches with
  | m :: _ => ret (Some m)
  | [] =>
      matches <- find_best_matches artist title lib music_library_path stage2 ;;
      match matches with
      | m :: _ => ret (Some m)
      | [] =>
          matches <- find_best_matches artist title lib music_library_path stage3 ;;
          match matches with
          | m :: _ => ret (Some m)
          | [] => ret None
          end
      end
  end.

(* ================================================================== *)
(** * Interactive disambiguator *)

Definition loose := {| min_similarity := 0.3; min_artist_sim := 0.2; min_title_sim := 0.3 |}.

Local Open Scope Z_scope.

(** The digits of [int(s)]: decimal digits, single underscores between
    digits. *)
Fixpoint parse_digits (acc : Z) (after_digit : bool) (t : text) : option Z :=
  match t with
  | [] => if after_digit then Some acc else None
  | c :: r =>
      if isdigit c then parse_digits (10 * acc + Z.of_N (c - 0x30)) true r
      else if (c =? 0x5F)%N && after_digit then
        match r with
        | d :: _ => if isdigit d then parse_digits acc false r else None
        | [] => None
        end
      else None
  end.

(** [int(s)]; [None] stands for [ValueError]. *)
Definition parse_int (s : text) : option Z :=
  match strip s with
  | 0x2B%N :: r => parse_digits 0 false r
  | 0x2D%N :: r => option_map Z.opp (parse_digits 0 false r)
  | r => parse_digits 0 false r
  end.

(** The lines still to be read from standard input. *)
Definition stdin := list text.

(** [matches[k]] for a list index [k]; a negative index counts from the
    end, an index out of range raises. *)
Definition list_index {A} (l : list A) (k : Z) : result A :=
  let k' := if k <? 0 then Z.of_nat (List.length l) + k else k in
  if k' <? 0 then raise IndexError
  else match nth_error l (Z.to_nat k') with
       | Some x => ret x
       | None => raise IndexError
       end.

(** The loop [while True] of [interactive_search]: one line of input per
    turn; the end of input raises. *)
Fixpoint select_loop (matches : list candidate) (input : stdin)
    : result (option candidate * stdin) :=
  match input with
  | [] => raise EOFError
  | line :: input' =>
      let choice := lower (strip line) in
      if text_eqb choice (str "s") then ret (None, input')
      else
        match parse_int choice with
        | Some choice_num =>
            if (1 <=? choice_num)
               && (choice_num <=? Z.min (Z.of_nat (List.length matches)) 10)
            then
              selected_match <- list_index matches (choice_num - 1) ;;
              ret (Some selected_match, input')
            else select_loop matches input'
        | None => select_loop matches input'
        end
  end.

Definition interactive_search (artist title : text) (lib : library)
    (music_library_path : text) (input : stdin)
    : result (option candidate * stdin) :=
  matches <- find_best_matches artist title lib music_library_path loose ;;
  match matches with
  | [] => ret (None, input)
  | _ => select_loop matches input
  end.

(* ================================================================== *)
(** * The two rounds of [main] *)

Definition track := (text * text)%type.

(** First round: [found_tracks] and [not_found_first_round]. *)
Fixpoint first_round (lib : library) (music_library_path : text)
    (tracks : list track) (found_tracks : list text)
    (not_found_first_round : list track) : result (list text * list track) :=
  match tracks with
  | [] => ret (found_tracks, not_found_first_round)
  | (artist, title) :: tracks' =>
      m <- search_with_fallback artist title lib music_library_path ;;
      match m with
      | Some m =>
          first_round lib music_library_path tracks'
            (found_tracks ++ [path m]) not_found_first_round
      | None =>
          first_round lib music_library_path tracks'
            found_tracks (not_found_first_round ++ [(artist, title)])
      end
  end.

(** Second round, over [not_found_first_round]. *)
Fixpoint second_round (lib : library) (music_library_path : text)
    (missing : list track) (found_tracks : list text)
    (final_not_found : list track) (input : stdin)
    : result (list text * list track * stdin) :=
  match missing with
  | [] => ret (found_tracks, final_not_found, input)
  | (artist, title) :: missing' =>
      r <- interactive_search artist title lib music_library_path input ;;
      match r with
      | (Some m, input') =>
          second_round lib music_library_path missing'
            (found_tracks ++ [path m]) final_not_found input'
      | (None, input') =>
          second_round lib music_library_path missing'
            found_tracks (final_not_found ++ [(artist, title)]) input'
      end
  end.

(** [found_tracks] and [final_not_found] as [main] has them when it creates
    the playlist. *)
Definition resolve_tracks (lib : library) (music_library_path : text)
    (tracks : list track) (input : stdin)
    : result (list text * list track * stdin) :=
  r <- first_round lib music_library_path tracks [] [] ;;
  let '(found_tracks, not_found_first_round) := r in
  second_round lib music_library_path not_found_first_round found_tracks [] input.

(* ================================================================== *)
(** * Notions for the statements about retrieval *)

Local Close Scope Z_scope.
Local Close Scope float_scope.
Local Close Scope N_scope.

Module FloatRank.

Local Open Scope Z_scope.

Definition is_nan (x : float) : Prop := Prim2SF x = S754_nan.

(** A value that is not NaN as a point of a lexicographic order on
    triples: sign and kind, exponent, mantissa. *)
Definition rank (f : spec_float) : Z * Z * Z :=
  match f with
  | S754_zero _ => (0, 0, 0)
  | S754_infinity false => (2, 0, 0)
  | S754_infinity true => (-2, 0, 0)
  | S754_finite false m e => (1, e, Zpos m)
  | S754_finite true m e => (-1, - e, Zneg m)
  | S754_nan => (0, 0, 0)
  end.

Definition rk (x : float) : Z * Z * Z := rank (Prim2SF x).

Definition lt3 (p q : Z * Z * Z) : Prop :=
  let '(a, b, c) := p in
  let '(a', b', c') := q in
  a < a' \/ (a = a' /\ (b < b' \/ (b = b' /\ c < c'))).

Definition neg3 (p : Z * Z * Z) : Z * Z * Z :=
  let '(a, b, c) := p in (- a, - b, - c).

End FloatRank.
Export FloatRank.

(** Equality of two sort keys, as [==] on tuples has it. *)
Definition key_eqb (k1 k2 : bool * bool * float) : bool :=
  let '(l1, f1, s1) := k1 in
  let '(l2, f2, s2) := k2 in
  Bool.eqb l1 l2 && Bool.eqb f1 f2 && (s1 =? s2)%float.

(** A candidate whose score is a number. *)
Definition scored (c : candidate) : Prop := ~ is_nan (final_score c).

(** [x] may stand in front of [y] in the ranking. *)
Definition before (x y : candidate) : Prop := key_lt (sort_key y) (sort_key x) = false.

(** The sort key of a scored candidate as a point of a lexicographic
    order. *)
Definition krank (c : candidate) : Z * Z * (Z * Z * Z) :=
  (Z.b2z (is_live c), Z.b2z (negb (is_flac c)), rk (- final_score c)%float).

Definition klt (p q : Z * Z * (Z * Z * Z)) : Prop :=
  let '(a, b, r) := p in
  let '(a', b', r') := q in
  (a < a' \/ (a = a' /\ (b < b' \/ (b = b' /\ lt3 r r'))))%Z.

Local Open Scope float_scope.

(** ** The files that a scan examines *)

Section Hits.

Variables (search_artist search_title : text) (th : thresholds).

(** [m] is the candidate of an audio file of the album. *)
Definition file_hit (artist_dir : text) (artist_sim : float) (album_path : text)
    (files : list (text * node)) (m : candidate) : Prop :=
  exists file n,
    In (file, n) files /\ is_audio file = true
    /\ score_file search_artist search_title th artist_dir artist_sim album_path file
       = Some m.

(** ... of an album directory of the artist folder. *)
Definition album_hit (artist_dir : text) (artist_sim : float) (artist_path : text)
    (albums : list (text * node)) (m : candidate) : Prop :=
  exists album_dir files,
    In (album_dir, Dir (Some files)) albums
    /\ file_hit artist_dir artist_sim (os_path_join artist_path album_dir) files m.

(** ... of an artist folder that the pruning step lets through. *)
Definition artist_hit (music_library_path : text) (artists : list (text * node))
    (m : candidate) : Prop :=
  exists artist_dir albums,
    In (artist_dir, Dir (Some albums)) artists
    /\ (similarity search_artist (normalize_text artist_dir) <? min_artist_sim th) = false
    /\ album_hit artist_dir (similarity search_artist (normalize_text artist_dir))
         (os_path_join music_library_path artist_dir) albums m.

End Hits.

(** [th] is at least as loose as [th']. *)
Definition looser (th th' : thresholds) : Prop :=
  (min_similarity th <=? min_similarity th') = true
  /\ (min_artist_sim th <=? min_artist_sim th') = true
  /\ (min_title_sim th <=? min_title_sim th') = true.

(** ** Reading a ranking *)

(** No live candidate in front of a studio one; among candidates alike in
    that, no other format in front of FLAC; among candidates alike in both,
    no lower score in front of a higher one. *)
Definition ranked (L : list candidate) : Prop :=
  forall i j ci cj,
    (i < j)%nat -> nth_error L i = Some ci -> nth_error L j = Some cj ->
    (is_live ci = true -> is_live cj = true)
    /\ (is_live ci = is_live cj -> is_flac cj = true -> is_flac ci = true)
    /\ (is_live ci = is_live cj -> is_flac ci = is_flac cj ->
        (final_score cj <=? final_score ci) = true).

(** Candidates with equal keys come in [L] in the order they have in [D]. *)
Definition ties_in_order_of (D L : list candidate) : Prop :=
  forall k, filter (fun c => key_eqb (sort_key c) k) L
            = filter (fun c => key_eqb (sort_key c) k) D.

(** ** Reading the two rounds *)

(** The path that the first round appends for a track, if any. *)
Definition auto_path (lib : library) (music_library_path : text) (q : track) : list text :=
  match search_with_fallback (fst q) (snd q) lib music_library_path with
  | inr (Some m) => [path m]
  | _ => []
  end.

(** The track is left to the second round. *)
Definition deferred (lib : library) (music_library_path : text) (q : track) : bool :=
  match search_with_fallback (fst q) (snd q) lib music_library_path with
  | inr None => true
  | _ => false
  end.

(** The second round, track by track: the paths chosen and the tracks
    skipped, each in the order of the tracks, and the input left over. *)
Inductive interactive_picks (lib : library) (music_library_path : text)
  : list track -> stdin -> list text -> list track -> stdin -> Prop :=
| picks_done (input : stdin) :
    interactive_picks lib music_library_path [] input [] [] input
| picks_chosen (a t : text) (rest : list track) (input input' input'' : stdin)
    (m : candidate) (chosen : list text) (skipped : list track) :
    interactive_search a t lib music_library_path input = inr (Some m, input') ->
    interactive_picks lib music_library_path rest input' chosen skipped input'' ->
    interactive_picks lib music_library_path ((a, t) :: rest) input
      (path m :: chosen) skipped input''
| picks_skipped (a t : text) (rest : list track) (input input' input'' : stdin)
    (chosen : list text) (skipped : list track) :
    interactive_search a t lib music_library_path input = inr (None, input') ->
    interactive_picks lib music_library_path rest input' chosen skipped input'' ->
    interactive_picks lib music_library_path ((a, t) :: rest) input
      chosen ((a, t) :: skipped) input''.

(** A line of input that asks to skip. *)
Definition is_skip (line : text) : Prop := lower (strip line) = str "s".

(** A line of input on which [strip], [lower] and [parse_int] are those of
    Python: Latin-1 text, no longer than the 4300 digits that [int]
    converts. *)
Definition plain_line (line : text) : Prop :=
  latin1 line /\ (List.length line <= 4300)%nat.

(* ================================================================== *)
(** * Libraries and playlists for the examples *)

Definition dir (entries : list (text * node)) : node := Dir (Some entries).
Definition locked : node := Dir None.

Definition opera : text * node :=
  (str "A Night at the Opera",
   dir [ (str "11 - Bohemian Rhapsody.mp3", File);
         (str "11 - Bohemian Rhapsody.flac", File);
         (str "cover.jpg", File) ]).

Definition wembley : text * node :=
  (str "Live at Wembley", dir [ (str "03 - Bohemian Rhapsody (Live).mp3", File) ]).

Definition gold : text * node :=
  (str "Gold", dir [ (str "ABBA - Waterloo.mp3", File) ]).

Definition music : text := str "/music".

Definition library_two_artists : library :=
  Some (dir [ (str "Queen", dir [wembley; opera]); (str "ABBA", dir [gold]) ]).

(** One album of the artist may not be read. *)
Definition library_locked_album : library :=
  Some (dir [ (str "Queen", dir [opera; (str "Box Set", locked)]);
              (str "ABBA", dir [gold]) ]).

(** A folder with a short name, next to the artist's, may not be read. *)
Definition library_locked_neighbour : library :=
  Some (dir [ (str "Queen", dir [opera]); (str "Q", locked) ]).

(** The live recording only. *)
Definition library_live_only : library := Some (dir [ (str "Queen", dir [wembley]) ]).

Definition bohemian_rhapsody_flac : text :=
  str "/music/Queen/A Night at the Opera/11 - Bohemian Rhapsody.flac".
Definition waterloo_mp3 : text := str "/music/ABBA/Gold/ABBA - Waterloo.mp3".

Definition example_ranking : list candidate :=
  Eval vm_compute in
    match find_best_matches (str "Queen") (str "Bohemian Rhapsody")
            library_two_artists music stage3 with
    | inr L => L
    | inl _ => []
    end.

Definition playlist_q_then_abba : list track :=
  [ (str "Q", str "Bohemian Rhapsody"); (str "ABBA", str "Waterloo") ].

(* ================================================================== *)
(** * Path detection and prompting *)

Local Close Scope float_scope.

(** What a path names on disk, if it exists. *)
Definition filesystem := text -> option node.

(** [os.path.exists] *)
Definition os_path_exists (fs : filesystem) (p : text) : bool :=
  match fs p with
  | Some _ => true
  | None => false
  end.

Definition common_music_paths : list text :=
  [ str "/mnt/datapool/music";
    str "/media/music";
    str "/var/lib/jellyfin/music";
    str "/home/jellyfin/music";
    str "/music";
    str "/data/music";
    str "/srv/music" ].

Definition common_playlist_paths : list text :=
  [ str "/var/lib/jellyfin/data/playlists";
    str "/config/data/playlists";
    str "/jellyfin/data/playlists";
    str "/home/jellyfin/data/playlists" ].

(** The loop over [common_music_paths]: the first path that is a directory
    with a subdirectory; a directory that may not be listed is passed
    over. *)
Fixpoint find_music (fs : filesystem) (paths : list text) : result (option text) :=
  match paths with
  | [] => ret None
  | p :: paths' =>
      match fs p with
      | Some n =>
          if isdir n then
            match listdir n with
            | inr entries =>
                let dirs := filter (fun d => isdir (snd d)) entries in
                if (0 <? List.length dirs)%nat then ret (Some p)
                else find_music fs paths'
            | inl PermissionError => find_music fs paths'
            | inl e => raise e
            end
          else find_music fs paths'
      | None => find_music fs paths'
      end
  end.

(** The loop over [common_playlist_paths]. *)
Fixpoint find_playlists (fs : filesystem) (paths : list text) : option text :=
  match paths with
  | [] => None
  | p :: paths' =>
      match fs p with
      | Some n => if isdir n then Some p else find_playlists fs paths'
      | None => find_playlists fs paths'
      end
  end.

Definition find_jellyfin_paths (fs : filesystem) : result (option text * option text) :=
  found_music <- find_music fs common_music_paths ;;
  let found_playlists := find_playlists fs common_playlist_paths in
  ret (found_music, found_playlists).

(** A run of the program ends early with [sys.exit] or with an exception
    that nothing catches. *)
Inductive halt :=
| SystemExit (code : Z)
| Uncaught (e : exn).

Definition program (A : Type) : Type := (halt + A)%type.

Definition sys_exit {A} (code : Z) : program A := inl (SystemExit code).

Definition run {A} (c : result A) : program A :=
  match c with
  | inl e => inl (Uncaught e)
  | inr x => inr x
  end.

Definition and_then {A B} (c : program A) (k : A -> program B) : program B :=
  match c with
  | inl h => inl h
  | inr x => k x
  end.

Notation "x <~ c ;; k" := (and_then c (fun x => k))
  (at level 61, c at next level, right associativity).

(** [input(prompt)] *)
Definition read_line (input : stdin) : result (text * stdin) :=
  match input with
  | [] => raise EOFError
  | line :: input' => ret (line, input')
  end.

(** [use_auto in ['', 'y', 'yes']] *)
Definition accepts (use_auto : text) : bool :=
  existsb (text_eqb use_auto) [ []; str "y"; str "yes" ].

(** One of the two blocks of [get_user_paths], for the music library and
    for the playlist directory: the path taken and the input left. *)
Definition choose_path (auto : option text) (input : stdin) : result (text * stdin) :=
  match auto with
  | Some (c :: p) =>
      r <- read_line input ;;
      let '(line, input) := r in
      let use_auto := lower (strip line) in
      if accepts use_auto then ret (c :: p, input)
      else
        r <- read_line input ;;
        let '(line, input) := r in
        ret (strip line, input)
  | _ =>
      r <- read_line input ;;
      let '(line, input) := r in
      ret (strip line, input)
  end.

Definition get_user_paths (fs : filesystem) (input : stdin)
    : program (text * text * stdin) :=
  r <~ run (find_jellyfin_paths fs) ;;
  let '(auto_music, auto_playlists) := r in
  r <~ run (choose_path auto_music input) ;;
  let '(music_path, input) := r in
  if negb (os_path_exists fs music_path) then sys_exit 1
  else
    r <~ run (choose_path auto_playlists input) ;;
    let '(playlist_path, input) := r in
    if negb (os_path_exists fs playlist_path) then sys_exit 1
    else inr (music_path, playlist_path, input).

(* ================================================================== *)
(** * Playlist files *)

(** A row of [csv.DictReader]: a dict from column names to cells, [None]
    the cell of a column that the line is too short for. *)
Definition csv_row := list (text * option text).

Fixpoint dict_get (row : csv_row) (col : text) : option (option text) :=
  match row with
  | [] => None
  | (k, v) :: row' => if text_eqb k col then Some v else dict_get row' col
  end.

(** The cell [row[col]] when [col in row and row[col]] holds. *)
Definition cell (row : csv_row) (col : text) : option text :=
  match dict_get row col with
  | Some (Some (c :: v)) => Some (c :: v)
  | _ => None
  end.

(** [for col in cols: if col in row and row[col]: ... break] *)
Fixpoint first_cell (cols : list text) (row : csv_row) : option text :=
  match cols with
  | [] => None
  | col :: cols' =>
      match cell row col with
      | Some v => Some (strip v)
      | None => first_cell cols' row
      end
  end.

Definition artist_columns : list text :=
  [str "artist"; str "Artist"; str "ARTIST"; str "creator"; str "Creator"].

Definition title_columns : list text :=
  [str "title"; str "Title"; str "TITLE"; str "track"; str "Track";
   str "song"; str "Song"].

(** The track appended for a row, if any. *)
Definition csv_track (row : csv_row) : option track :=
  match first_cell artist_columns row, first_cell title_columns row with
  | Some (a :: artist), Some (t :: title) => Some (a :: artist, t :: title)
  | _, _ => None
  end.

Fixpoint csv_tracks (rows : list csv_row) (tracks : list track) : list track :=
  match rows with
  | [] => tracks
  | row :: rows' =>
      csv_tracks rows'
        match csv_track row with
        | Some q => tracks ++ [q]
        | None => tracks
        end
  end.

(** [t.split(sep)] for a separator [sep] of one character. *)
Fixpoint split_char (sep : char) (t : text) : list text :=
  match t with
  | [] => [[]]
  | c :: r =>
      if (c =? sep)%N then [] :: split_char sep r
      else match split_char sep r with
           | l :: ls => (c :: l) :: ls
           | [] => [[c]]
           end
  end.

(** The track appended for a line of the text format, if any. *)
Definition text_track (line : text) : option track :=
  let line := strip line in
  match line with
  | [] => None
  | _ =>
      if contains line (str " - ") then
        match split_once line (str " - ") with
        | Some (artist, track) => Some (strip artist, strip track)
        | None => None
        end
      else None
  end.

Fixpoint text_tracks (lines : list text) (tracks : list track) : list track :=
  match lines with
  | [] => tracks
  | line :: lines' =>
      text_tracks lines'
        match text_track line with
        | Some q => tracks ++ [q]
        | None => tracks
        end
  end.

(** What opening and reading a playlist file gives: the rows that
    [csv.DictReader] yields, whether an exception then ends the reading,
    and the outcome of [f.read()]. *)
Record file_data := {
  csv_rows : list csv_row;
  csv_raises : bool;
  content : result text
}.

(** The text format, appended to [tracks]. *)
Definition read_text_format (file : file_data) (tracks : list track)
    : result (list track) :=
  content <- content file ;;
  ret (text_tracks (split_char 0x0A%N (strip content)) tracks).

Definition read_playlist (file_path : text) (file : file_data)
    : result (list track) :=
  let tracks := [] in
  if endswith (lower file_path) (str ".csv") then
    let tracks := csv_tracks (csv_rows file) tracks in
    if csv_raises file then read_text_format file tracks
    else ret tracks
  else read_text_format file tracks.

(* ================================================================== *)
(** * The program *)

(** How [main] ends when it does not end early: without a playlist, or
    with the call [create_jellyfin_playlist(playlist_name, found_tracks,
    JELLYFIN_PLAYLIST_PATH)]. *)
Inductive outcome :=
| NoPlaylist (final_not_found : list track)
| CreatePlaylist (playlist_name : text) (found_tracks : list text)
    (jellyfin_playlist_path : text) (final_not_found : list track).

Definition main (fs : filesystem) (files : text -> file_data)
    (argv : list text) (input : stdin) : program (outcome * stdin) :=
  r <~ get_user_paths fs input ;;
  let '(MUSIC_LIBRARY_PATH, JELLYFIN_PLAYLIST_PATH, input) := r in
  match argv with
  | [_; playlist_file] =>
      if negb (os_path_exists fs playlist_file) then sys_exit 1
      else
        tracks <~ run (read_playlist playlist_file (files playlist_file)) ;;
        match tracks with
        | [] => sys_exit 1
        | _ =>
            r <~ run (read_line input) ;;
            let '(line, input) := r in
            match strip line with
            | [] => sys_exit 1
            | playlist_name =>
                r <~ run (resolve_tracks (fs MUSIC_LIBRARY_PATH) MUSIC_LIBRARY_PATH
                            tracks input) ;;
                let '(found_tracks, final_not_found, input) := r in
                match found_tracks with
                | [] => inr (NoPlaylist final_not_found, input)
                | _ =>
                    inr (CreatePlaylist playlist_name found_tracks
                           JELLYFIN_PLAYLIST_PATH final_not_found, input)
                end
            end
        end
  | _ => sys_exit 1
  end.

(* ================================================================== *)
(** * Notions for the statements about paths and playlist files *)

(** [r] is the first element of [l] that has the property, if there is
    one. *)
Definition first_fit {A} (P : A -> Prop) (l : list A) (r : option A) : Prop :=
  match r with
  | Some x => exists l1 l2, l = l1 ++ x :: l2 /\ P x /\ Forall (fun y => ~ P y) l1
  | None => Forall (fun y => ~ P y) l
  end.

(** The path names a directory that can be listed and has a directory
    among its entries. *)
Definition has_subdirectory (fs : filesystem) (p : text) : Prop :=
  exists entries d n,
    fs p = Some (Dir (Some entries)) /\ In (d, n) entries /\ isdir n = true.

Definition is_directory (fs : filesystem) (p : text) : Prop :=
  exists listing, fs p = Some (Dir listing).

(** The first of the columns [cols] for which the row has a cell that is
    not empty holds [raw]. *)
Definition first_filled (cols : list text) (row : csv_row) (raw : text) : Prop :=
  exists l1 col l2,
    cols = l1 ++ col :: l2
    /\ Forall (fun c => cell row c = None) l1
    /\ cell row col = Some raw.

(** A track as a line of the text format, and lines as a text. *)
Definition playlist_line (q : track) : text := fst q ++ str " - " ++ snd q.

Fixpoint join_lines (lines : list text) : text :=
  match lines with
  | [] => []
  | [l] => l
  | l :: ls => l ++ 0x0A%N :: join_lines ls
  end.

(** An artist and a title that a line of the text format can hold as they
    are. *)
Definition writable (q : track) : Prop :=
  fst q <> [] /\ strip (fst q) = fst q /\ ~ In 0x0A%N (fst q)
  /\ contains (fst q) (str " -") = false
  /\ snd q <> [] /\ strip (snd q) = snd q /\ ~ In 0x0A%N (snd q).

(** The length of the run of characters that are not popular which ends
    at each position of [a], [d] being the length at the position before
    the first. *)
Fixpoint runs (pop : char -> bool) (d : nat) (a : text) : list nat :=
  match a with
  | [] => []
  | c :: a' => let d' := if pop c then 0 else S d in d' :: runs pop d' a'
  end.

(* ================================================================== *)
(** * Further examples *)

(** The head of [example_ranking]. *)
Definition example_best : candidate :=
  Eval vm_compute in
    match example_ranking with
    | m :: _ => m
    | [] => {| path := []; artist := []; title := []; final_score := 0%float;
               artist_sim := 0%float; title_sim := 0%float; is_live := false;
               filename := []; is_flac := false |}
    end.

(** A playlist in the text format, with a title line, a blank line and
    padding. *)
Definition playlist_q_then_abba_txt : file_data :=
  {| csv_rows := []; csv_raises := false;
     content := inr (str "My playlist" ++ [0x0A]
                     ++ str "  Q - Bohemian Rhapsody " ++ [0x0A; 0x0A]
                     ++ str "ABBA  -  Waterloo" ++ [0x0A])%N |}.

(** A file system with the library of the examples, a playlist directory
    and a playlist file. *)
Definition example_fs : filesystem :=
  fun p =>
    if text_eqb p music then library_two_artists
    else if text_eqb p (str "/config/data/playlists") then Some (dir [])
    else if text_eqb p (str "list.txt") then Some File
    else None.

Definition example_files : text -> file_data :=
  fun _ => playlist_q_then_abba_txt.

(** What the interactive search offers for a track that the automatic
    search does not resolve, and the first offer. *)
Definition example_offers : list candidate :=
  Eval vm_compute in
    match find_best_matches (str "Q") (str "Bohemian Rhapsody")
            library_two_artists music loose with
    | inr L => L
    | inl _ => []
    end.

Definition example_offer : candidate :=
  Eval vm_compute in
    match example_offers with
    | m :: _ => m
    | [] => example_best
    end.

(** The first stage for a query in another letter case and with a
    qualifier. *)
Definition example_stage1 : list candidate :=
  Eval vm_compute in
    match find_best_matches (str "abba") (str "Waterloo (Remastered 2001)")
            library_two_artists music stage1 with
    | inr L => L
    | inl _ => []
    end.

(** The loose ranking for the same query. *)
Definition example_offers_abba : list candidate :=
  Eval vm_compute in
    match find_best_matches (str "abba") (str "Waterloo (Remastered 2001)")
            library_two_artists music loose with
    | inr L => L
    | inl _ => []
    end.

(* ================================================================== *)
(* ================================================================== *)
(** * Proofs *)

Local Close Scope float_scope.
Local Open Scope N_scope.

(* ================================================================== *)
(** * Facts about text *)

Lemma text_eqb_eq (a b : text) : text_eqb a b = true <-> a = b.
Proof. unfold text_eqb. destruct (list_eq_dec N.eq_dec a b); split; congruence. Qed.

(** ** Stripping *)

Lemma lstrip_head (t : text) (c : char) (r : text) :
  lstrip t = c :: r -> isspace c = false.
Proof.
  induction t as [|x t IH]; cbn; [discriminate|].
  destruct (isspace x) eqn:E; auto. intros H. injection H as -> _. exact E.
Qed.

Lemma lstrip_fixed (c : char) (r : text) : isspace c = false -> lstrip (c :: r) = c :: r.
Proof. intros H. cbn. now rewrite H. Qed.

Lemma lstrip_app (u r : text) :
  lstrip (u ++ r) = match lstrip u with [] => lstrip r | v => v ++ r end.
Proof.
  induction u as [|x u IH]; cbn.
  - now destruct (lstrip r).
  - destruct (isspace x); auto.
Qed.

Lemma lstrip_Forall (P : char -> Prop) (t : text) : Forall P t -> Forall P (lstrip t).
Proof.
  induction 1 as [|x t Hx Ht IH]; cbn; auto. destruct (isspace x); auto.
Qed.

Lemma rstrip_cons_nonspace (c : char) (r : text) :
  isspace c = false -> rstrip (c :: r) = c :: rstrip r.
Proof. intros H. cbn. rewrite H. now destruct (rstrip r). Qed.

Lemma rstrip_Forall (P : char -> Prop) (t : text) : Forall P t -> Forall P (rstrip t).
Proof.
  induction 1 as [|x t Hx Ht IH]; cbn; auto.
  destruct (rstrip t); [destruct (isspace x)|]; auto.
Qed.

Lemma rstrip_shape (t : text) : rstrip t = [] \/ ends_nonspace (rstrip t).
Proof.
  induction t as [|x t IH]; cbn; auto.
  destruct (rstrip t) as [|y r].
  - destruct (isspace x) eqn:E; auto. right. now constructor.
  - right. destruct IH as [IH|IH]; [discriminate|]. now constructor.
Qed.

Lemma rstrip_fixed (t : text) : ends_nonspace t -> rstrip t = t.
Proof.
  induction 1 as [c Hc|c t Ht IH]; cbn.
  - now rewrite Hc.
  - rewrite IH. destruct t; [inversion Ht|reflexivity].
Qed.

Lemma rstrip_idempotent (t : text) : rstrip (rstrip t) = rstrip t.
Proof.
  destruct (rstrip_shape t) as [->|H]; [reflexivity|now apply rstrip_fixed].
Qed.

Lemma rstrip_split (t : text) :
  exists w, t = rstrip t ++ w /\ Forall (fun c => isspace c = true) w.
Proof.
  induction t as [|x t [w [Ht Hw]]]; cbn.
  - exists []. auto.
  - destruct (rstrip t) as [|y r] eqn:E.
    + destruct (isspace x) eqn:Ex.
      * exists (x :: w). cbn in Ht. subst t. auto.
      * exists w. cbn in *. now subst t.
    + exists w. split; auto. cbn. now rewrite Ht at 1.
Qed.

Lemma ends_nonspace_app (t : text) (c : char) :
  isspace c = false -> ends_nonspace (t ++ [c]).
Proof. intros H. induction t; cbn; now constructor. Qed.

Lemma ends_nonspace_app_r (u t : text) : ends_nonspace t -> ends_nonspace (u ++ t).
Proof. intros H. induction u; cbn; auto. now constructor. Qed.

Lemma strip_fixed (t : text) :
  match t with c :: _ => isspace c = false | [] => True end ->
  t = [] \/ ends_nonspace t -> strip t = t.
Proof.
  intros Hh He. unfold strip. destruct t as [|c r]; [reflexivity|].
  rewrite lstrip_fixed by exact Hh.
  destruct He as [He|He]; [discriminate|now apply rstrip_fixed].
Qed.

Lemma strip_shape (t : text) :
  match strip t with c :: _ => isspace c = false | [] => True end
  /\ (strip t = [] \/ ends_nonspace (strip t)).
Proof.
  unfold strip. split; [|apply rstrip_shape].
  destruct (lstrip t) as [|c r] eqn:E; [exact I|].
  pose proof (lstrip_head _ _ _ E) as Hc.
  rewrite rstrip_cons_nonspace by exact Hc. exact Hc.
Qed.

Lemma strip_idempotent (t : text) : strip (strip t) = strip t.
Proof. destruct (strip_shape t). now apply strip_fixed. Qed.

Lemma strip_Forall (P : char -> Prop) (t : text) : Forall P t -> Forall P (strip t).
Proof. intros H. now apply rstrip_Forall, lstrip_Forall. Qed.

(** ** Matching *)

Lemma re_match_star_cons (cls : char -> bool) (r : regex) (c : char) (s : text) :
  re_match (Star cls :: r) (c :: s)
  = if cls c then
      match re_match (Star cls :: r) s with
      | Some rest => Some rest
      | None => re_match r (c :: s)
      end
    else re_match r (c :: s).
Proof. reflexivity. Qed.

Lemma re_match_star_nil (cls : char -> bool) (r : regex) :
  re_match (Star cls :: r) [] = re_match r [].
Proof. reflexivity. Qed.

Lemma re_match_one_cons (cls : char -> bool) (r : regex) (c : char) (s : text) :
  re_match (One cls :: r) (c :: s) = if cls c then re_match r s else None.
Proof. reflexivity. Qed.

(** A match leaves a suffix of the text. *)
Lemma re_match_suffix (r : regex) : forall s rest,
  re_match r s = Some rest -> exists pre, s = pre ++ rest.
Proof.
  induction r as [|[cls|cls] r IH]; intros s rest.
  - cbn. intros H. injection H as ->. now exists [].
  - destruct s as [|c s]; [discriminate|]. rewrite re_match_one_cons.
    destruct (cls c); [|discriminate]. intros H.
    destruct (IH _ _ H) as [pre ->]. now exists (c :: pre).
  - induction s as [|c s IHs].
    + rewrite re_match_star_nil. apply IH.
    + rewrite re_match_star_cons. destruct (cls c); [|apply IH].
      destruct (re_match (Star cls :: r) s) as [rest'|] eqn:E; [|apply IH].
      intros H. injection H as ->. destruct (IHs eq_refl) as [pre ->].
      now exists (c :: pre).
Qed.

Lemma re_match_length (r : regex) (s rest : text) :
  re_match r s = Some rest -> (List.length rest <= List.length s)%nat.
Proof.
  intros H. destruct (re_match_suffix _ _ _ H) as [pre ->].
  rewrite length_app. lia.
Qed.

(** ** Substitution *)

Lemma re_sub_from_fuel (r : regex) (repl : text) : forall f1 f2 s,
  (List.length s <= f1)%nat -> (List.length s <= f2)%nat ->
  re_sub_from f1 r repl s = re_sub_from f2 r repl s.
Proof.
  induction f1 as [|f1 IH]; intros f2 s H1 H2.
  - destruct s; [|cbn in H1; lia]. now destruct f2.
  - destruct f2 as [|f2]; [destruct s; [reflexivity|cbn in H2; lia]|].
    destruct s as [|c s]; [reflexivity|]. cbn [re_sub_from]. cbn in H1, H2.
    destruct (re_match r (c :: s)) as [rest|] eqn:E.
    + destruct (Nat.ltb_spec (List.length rest) (List.length (c :: s))) as [Hl|Hl].
      * cbn in Hl. f_equal. apply IH; lia.
      * f_equal. apply IH; lia.
    + f_equal. apply IH; lia.
Qed.

Lemma re_sub_nil (r : regex) (repl : text) : re_sub r repl [] = [].
Proof. reflexivity. Qed.

Lemma re_sub_cons (r : regex) (repl : text) (c : char) (s : text) :
  re_sub r repl (c :: s)
  = match re_match r (c :: s) with
    | Some rest =>
        if (List.length rest <? S (List.length s))%nat
        then repl ++ re_sub r repl rest
        else c :: re_sub r repl s
    | None => c :: re_sub r repl s
    end.
Proof.
  unfold re_sub. cbn [List.length re_sub_from].
  destruct (re_match r (c :: s)) as [rest|] eqn:E; [|reflexivity].
  destruct (Nat.ltb_spec (List.length rest) (S (List.length s))); [|reflexivity].
  f_equal. apply re_sub_from_fuel; lia.
Qed.

(** Induction on the text in the order in which [re_sub] visits it. *)
Lemma re_sub_ind (r : regex) (repl : text) (P : text -> text -> Prop) :
  P [] [] ->
  (forall c s, re_match r (c :: s) = None ->
               P s (re_sub r repl s) -> P (c :: s) (c :: re_sub r repl s)) ->
  (forall c s rest, re_match r (c :: s) = Some rest ->
               (List.length rest > List.length s)%nat ->
               P s (re_sub r repl s) -> P (c :: s) (c :: re_sub r repl s)) ->
  (forall c s pre rest, re_match r (c :: s) = Some rest -> c :: s = pre ++ rest ->
               pre <> [] ->
               P rest (re_sub r repl rest) -> P (c :: s) (repl ++ re_sub r repl rest)) ->
  forall s, P s (re_sub r repl s).
Proof.
  intros Hnil Hnone Hempty Hsome s.
  remember (List.length s) as n eqn:Hn. revert s Hn.
  induction n as [n IH] using lt_wf_ind. intros s Hn.
  destruct s as [|c s]; [exact Hnil|]. rewrite re_sub_cons. cbn in Hn.
  destruct (re_match r (c :: s)) as [rest|] eqn:E.
  - destruct (Nat.ltb_spec (List.length rest) (S (List.length s))) as [Hl|Hl].
    + destruct (re_match_suffix _ _ _ E) as [pre Hpre].
      apply (Hsome c s pre rest E Hpre).
      * intros ->. cbn in Hpre. subst rest. cbn in Hl. lia.
      * apply (IH (List.length rest)); [lia|reflexivity].
    + apply (Hempty c s rest E); [lia|]. apply (IH (List.length s)); [lia|reflexivity].
  - apply Hnone; auto. apply (IH (List.length s)); [lia|reflexivity].
Qed.

Lemma re_sub_Forall (P : char -> Prop) (r : regex) (repl s : text) :
  Forall P repl -> Forall P s -> Forall P (re_sub r repl s).
Proof.
  intros Hrepl. revert s.
  apply (re_sub_ind r repl (fun s out => Forall P s -> Forall P out)).
  - auto.
  - intros c s _ IH H. inversion H; subst. auto.
  - intros c s rest _ _ IH H. inversion H; subst. auto.
  - intros c s pre rest _ Heq _ IH H. rewrite Heq in H.
    apply Forall_app in H as [_ H]. apply Forall_app. auto.
Qed.

(** Where the pattern matches nowhere, nothing is replaced. *)
Lemma re_sub_no_match (r : regex) (repl s : text) :
  (forall pre suf, s = pre ++ suf -> re_match r suf = None) ->
  re_sub r repl s = s.
Proof.
  induction s as [|c s IH]; intros H; [reflexivity|].
  rewrite re_sub_cons, (H [] (c :: s) eq_refl). f_equal. apply IH.
  intros pre suf ->. apply (H (c :: pre)). reflexivity.
Qed.

(* ================================================================== *)
(** * Facts about the normalizer *)

(** ** Checking a property on the whole Latin-1 range *)

Lemma latin1_range (P : char -> bool) :
  forallb P (map N.of_nat (seq 0 256)) = true ->
  forall c, c < 0x100 -> P c = true.
Proof.
  intros H c Hc. rewrite forallb_forall in H. apply H.
  apply in_map_iff. exists (N.to_nat c). split; [apply N2Nat.id|].
  apply in_seq. lia.
Qed.

Lemma latin1_app (a b : text) : latin1 (a ++ b) <-> latin1 a /\ latin1 b.
Proof. apply Forall_app. Qed.

(** ** Characters that decomposition and lower-casing leave alone *)

Lemma lower_decomposition_stable (c : char) :
  c < 0x100 -> Forall stable (lower (decomposition c)).
Proof.
  revert c.
  enough (H : forall c, c < 0x100 ->
                        forallb stableb (lower (decomposition c)) = true).
  { intros c Hc. apply Forall_forall. intros x Hx.
    specialize (H c Hc). rewrite forallb_forall in H. now apply H. }
  apply (latin1_range (fun c => forallb stableb (lower (decomposition c)))).
  vm_compute. reflexivity.
Qed.

Lemma lower_nfkd_stable (t : text) : latin1 t -> Forall stable (lower (nfkd t)).
Proof.
  induction 1 as [|c t Hc Ht IH]; cbn; [constructor|].
  unfold lower in *. rewrite map_app. apply Forall_app. split; [|exact IH].
  now apply lower_decomposition_stable.
Qed.

Lemma stable_nfkd (t : text) : Forall stable t -> nfkd t = t.
Proof.
  induction 1 as [|c t Hc Ht IH]; cbn; [reflexivity|].
  unfold stable, stableb in Hc. apply andb_prop in Hc as [Hc _].
  apply text_eqb_eq in Hc. rewrite Hc. cbn. f_equal. exact IH.
Qed.

Lemma stable_lower (t : text) : Forall stable t -> lower t = t.
Proof.
  induction 1 as [|c t Hc Ht IH]; cbn; [reflexivity|].
  unfold stable, stableb in Hc. apply andb_prop in Hc as [_ Hc].
  apply N.eqb_eq in Hc. f_equal; assumption.
Qed.

(** ** Replacements *)

Lemma replace_Forall (P : char -> Prop) (old : char) (new t : text) :
  Forall P new -> Forall P t -> Forall P (replace old new t).
Proof.
  intros Hn. induction 1 as [|c t Hc Ht IH]; cbn; [constructor|].
  apply Forall_app. split; [|exact IH]. destruct (c =? old); auto.
Qed.

Lemma replace_absent (old : char) (new t : text) :
  ~ In old t -> replace old new t = t.
Proof.
  induction t as [|c t IH]; cbn; [reflexivity|]. intros H.
  destruct (N.eqb_spec c old) as [->|_]; [tauto|]. cbn. f_equal. tauto.
Qed.

Lemma replace_removes (old : char) (new t : text) :
  ~ In old new -> ~ In old (replace old new t).
Proof.
  intros Hn. induction t as [|c t IH]; cbn; [tauto|].
  rewrite in_app_iff. destruct (N.eqb_spec c old) as [->|Hne]; [tauto|].
  cbn. intuition congruence.
Qed.

Lemma replace_keeps_absent (k old : char) (new t : text) :
  ~ In k new -> ~ In k t -> ~ In k (replace old new t).
Proof.
  intros Hn. induction t as [|c t IH]; cbn; [tauto|].
  rewrite in_app_iff. destruct (c =? old); cbn; tauto.
Qed.

Lemma replace_all_keeps_absent (R : list (char * text)) (k : char) : forall t,
  (forall kv, In kv R -> ~ In k (snd kv)) -> ~ In k t -> ~ In k (replace_all R t).
Proof.
  unfold replace_all. induction R as [|kv R IH]; intros t HR Ht; cbn; [exact Ht|].
  apply IH; [intros; apply HR; now right|].
  apply replace_keeps_absent; [apply HR; now left|exact Ht].
Qed.

Lemma replace_all_removes (R : list (char * text)) (k : char) : forall t,
  In k (map fst R) -> (forall kv, In kv R -> ~ In k (snd kv)) ->
  ~ In k (replace_all R t).
Proof.
  induction R as [|kv R IH]; intros t Hk HR; [destruct Hk|].
  cbn in Hk. change (replace_all (kv :: R) t)
    with (replace_all R (replace (fst kv) (snd kv) t)).
  destruct Hk as [<-|Hk].
  - apply replace_all_keeps_absent; [intros; apply HR; now right|].
    apply replace_removes, HR. now left.
  - apply IH; [exact Hk|intros; apply HR; now right].
Qed.

Lemma replace_all_absent (R : list (char * text)) : forall t,
  (forall k, In k (map fst R) -> ~ In k t) -> replace_all R t = t.
Proof.
  induction R as [|kv R IH]; intros t H; [reflexivity|].
  change (replace_all (kv :: R) t)
    with (replace_all R (replace (fst kv) (snd kv) t)).
  rewrite replace_absent by (apply H; now left).
  apply IH. intros k Hk. apply H. now right.
Qed.

Lemma replace_all_Forall (P : char -> Prop) (R : list (char * text)) : forall t,
  (forall kv, In kv R -> Forall P (snd kv)) -> Forall P t -> Forall P (replace_all R t).
Proof.
  unfold replace_all. induction R as [|kv R IH]; intros t HR Ht; cbn; [exact Ht|].
  apply IH; [intros; apply HR; now right|].
  apply replace_Forall; [apply HR; now left|exact Ht].
Qed.

Lemma is_key_In (c : char) : is_key c = false <-> ~ In c (map fst replacements).
Proof.
  unfold is_key. rewrite <- not_true_iff_false, existsb_exists. split.
  - intros H Hin. apply H. exists c. split; [exact Hin|apply N.eqb_refl].
  - intros H [x [Hin Hx]]. apply N.eqb_eq in Hx. now subst.
Qed.

(** No replacement writes a key. *)
Lemma replacements_values (kv : char * text) :
  In kv replacements ->
  Forall stable (snd kv) /\ forall k, In k (map fst replacements) -> ~ In k (snd kv).
Proof.
  intros Hin.
  assert (H : forallb (fun kv => forallb (fun c => stableb c && negb (is_key c)) (snd kv))
                      replacements = true) by (vm_compute; reflexivity).
  rewrite forallb_forall in H. specialize (H kv Hin). rewrite forallb_forall in H.
  split.
  - apply Forall_forall. intros c Hc. specialize (H c Hc).
    apply andb_prop in H. exact (proj1 H).
  - intros k Hk Hc. specialize (H k Hc). apply andb_prop in H. destruct H as [_ H].
    apply negb_true_iff in H. apply (proj1 (is_key_In k)) in H. exact (H Hk).
Qed.

Lemma apply_replacements_no_key (t : text) :
  Forall (fun c => is_key c = false) (apply_replacements t).
Proof.
  apply Forall_forall. intros c Hc. apply is_key_In. intros Hk.
  revert Hc. apply (replace_all_removes replacements c t Hk).
  intros kv Hkv. now apply (proj2 (replacements_values kv Hkv)).
Qed.

Lemma apply_replacements_fixed (t : text) :
  Forall (fun c => is_key c = false) t -> apply_replacements t = t.
Proof.
  intros H. apply (replace_all_absent replacements). intros k Hk Hin.
  rewrite Forall_forall in H. apply (proj1 (is_key_In k)); auto.
Qed.

Lemma apply_replacements_stable (t : text) :
  Forall stable t -> Forall stable (apply_replacements t).
Proof.
  apply (replace_all_Forall stable replacements).
  intros kv Hkv. now apply (proj1 (replacements_values kv Hkv)).
Qed.

(** ** Collapsing white space *)

Lemma re_match_spaces (c : char) (s : text) :
  re_match (plus isspace) (c :: s) = if isspace c then Some (lstrip s) else None.
Proof.
  unfold plus. rewrite re_match_one_cons. destruct (isspace c); [|reflexivity].
  induction s as [|d s IH]; [reflexivity|].
  rewrite re_match_star_cons. cbn [lstrip]. destruct (isspace d); [|reflexivity].
  now rewrite IH.
Qed.

Lemma lstrip_length (s : text) : (List.length (lstrip s) <= List.length s)%nat.
Proof.
  induction s as [|c s IH]; cbn; [lia|]. destruct (isspace c); cbn; lia.
Qed.

Lemma collapse_cons (c : char) (s : text) :
  collapse_whitespace (c :: s)
  = if isspace c then 0x20 :: collapse_whitespace (lstrip s)
    else c :: collapse_whitespace s.
Proof.
  unfold collapse_whitespace. rewrite re_sub_cons, re_match_spaces.
  destruct (isspace c); [|reflexivity].
  pose proof (lstrip_length s).
  destruct (Nat.ltb_spec (List.length (lstrip s)) (S (List.length s))); [reflexivity|lia].
Qed.

Lemma collapse_collapsed (t : text) : collapsed (collapse_whitespace t).
Proof.
  remember (List.length t) as n eqn:Hn. revert t Hn.
  induction n as [n IH] using lt_wf_ind. intros t Hn.
  destruct t as [|c s]; [exact I|]. rewrite collapse_cons. cbn in Hn.
  destruct (isspace c) eqn:Ec.
  - pose proof (lstrip_length s) as Hl. split.
    + intros _. split; [reflexivity|].
      destruct (lstrip s) as [|d r] eqn:Es; [exact I|].
      rewrite collapse_cons, (lstrip_head _ _ _ Es). exact (lstrip_head _ _ _ Es).
    + apply (IH (List.length (lstrip s))); [lia|reflexivity].
  - split; [congruence|]. apply (IH (List.length s)); [lia|reflexivity].
Qed.

Lemma collapsed_fixed (t : text) : collapsed t -> collapse_whitespace t = t.
Proof.
  induction t as [|c r IH]; [reflexivity|]. intros [Hc Hr].
  rewrite collapse_cons. destruct (isspace c) eqn:Ec.
  - destruct (Hc eq_refl) as [-> Hd]. f_equal.
    destruct r as [|d r']; [reflexivity|]. rewrite lstrip_fixed by exact Hd. auto.
  - f_equal. auto.
Qed.

Lemma collapsed_lstrip (t : text) : collapsed t -> collapsed (lstrip t).
Proof.
  induction t as [|c r IH]; cbn [lstrip]; [auto|]. intros H.
  destruct (isspace c); [apply IH, H|exact H].
Qed.

Lemma rstrip_head (t : text) (d : char) (r : text) :
  rstrip t = d :: r -> exists r', t = d :: r'.
Proof.
  intros H. destruct (rstrip_split t) as [w [Ht _]]. rewrite H in Ht.
  rewrite Ht. now exists (r ++ w).
Qed.

Lemma collapsed_rstrip (t : text) : collapsed t -> collapsed (rstrip t).
Proof.
  induction t as [|c r IH]; [auto|]. intros [Hc Hr]. cbn [rstrip].
  destruct (rstrip r) as [|d r'] eqn:E.
  - destruct (isspace c) eqn:Ec; cbn; auto. split; auto. congruence.
  - specialize (IH Hr). split; [|exact IH]. intros Hs.
    destruct (Hc Hs) as [-> Hd]. split; [reflexivity|].
    destruct (rstrip_head _ _ _ E) as [r'' ->]. exact Hd.
Qed.

Lemma collapsed_strip (t : text) : collapsed t -> collapsed (strip t).
Proof. intros H. now apply collapsed_rstrip, collapsed_lstrip. Qed.

(** ** The second pass *)

Lemma remove_patterns_Forall (P : char -> Prop) (t : text) :
  Forall P t -> Forall P (remove_patterns t).
Proof.
  unfold remove_patterns. generalize patterns_to_remove. intros ps. revert t.
  induction ps as [|p ps IH]; intros t Ht; cbn; [exact Ht|].
  apply IH. now apply re_sub_Forall.
Qed.

(** What [normalize_text] returns is left alone by every step of
    [normalize_text] except, possibly, the removal of qualifier groups. *)
Lemma normalize_text_shape (s : text) :
  latin1 s ->
  let t := normalize_text s in
  Forall stable t /\ Forall (fun c => is_key c = false) t
  /\ collapsed t /\ strip t = t.
Proof.
  intros Hs t. subst t. destruct s as [|c s]; [cbn; auto|].
  unfold normalize_text. set (s0 := c :: s) in *.
  split; [|split; [|split]].
  - apply strip_Forall, re_sub_Forall; [repeat constructor|].
    apply apply_replacements_stable, remove_patterns_Forall, strip_Forall.
    now apply lower_nfkd_stable.
  - apply strip_Forall, re_sub_Forall; [repeat constructor|].
    apply apply_replacements_no_key.
  - apply collapsed_strip, collapse_collapsed.
  - apply strip_idempotent.
Qed.

Lemma normalize_text_second_pass (s : text) :
  latin1 s ->
  normalize_text (normalize_text s)
  = strip (collapse_whitespace (apply_replacements (remove_patterns (normalize_text s)))).
Proof.
  intros Hs. destruct (normalize_text_shape s Hs) as [Hst [_ [_ Hstrip]]].
  destruct (normalize_text s) as [|c t] eqn:E; [reflexivity|].
  unfold normalize_text at 1. rewrite (stable_nfkd _ Hst), (stable_lower _ Hst), Hstrip.
  reflexivity.
Qed.

(** ** Matching a qualifier group *)

Section Group.

Variables (open close : char) (kw : regex).
Hypothesis open_nonspace : isspace open = false.
Hypothesis kw_plain : plain close kw.

Lemma group_unfold :
  group open close kw = Star isspace :: One (only open) :: (group_inner close kw).
Proof. reflexivity. Qed.

Lemma only_open_other (c : char) : c <> open -> only open c = false.
Proof. intros H. unfold only. now apply N.eqb_neq. Qed.

Lemma group_no_open (s : text) : ~ In open s -> re_match (group open close kw) s = None.
Proof.
  rewrite group_unfold. induction s as [|c s IH]; intros H; [reflexivity|].
  rewrite re_match_star_cons, re_match_one_cons.
  rewrite only_open_other by (intros ->; apply H; now left).
  rewrite IH by (intros Hin; apply H; now right). now destruct (isspace c).
Qed.

Lemma group_skip_spaces (w z : text) :
  Forall (fun c => isspace c = true) w ->
  re_match (group open close kw) (w ++ open :: z) = re_match (group_inner close kw) z.
Proof.
  rewrite group_unfold. induction 1 as [|c w Hc Hw IH]; cbn [app].
  - rewrite re_match_star_cons, open_nonspace, re_match_one_cons.
    unfold only. now rewrite N.eqb_refl.
  - rewrite re_match_star_cons, Hc, IH, re_match_one_cons.
    rewrite only_open_other by (intros ->; congruence).
    now destruct (re_match (group_inner close kw) z).
Qed.

Lemma group_after_text (b z : text) :
  ends_nonspace b -> ~ In open b -> re_match (group open close kw) (b ++ z) = None.
Proof.
  rewrite group_unfold. induction 1 as [c Hc|c t Ht IH]; intros Hin; cbn [app].
  - rewrite re_match_star_cons, Hc, re_match_one_cons.
    now rewrite only_open_other by (intros ->; apply Hin; now left).
  - rewrite re_match_star_cons, re_match_one_cons.
    rewrite only_open_other by (intros ->; apply Hin; now left).
    rewrite IH by (intros H; apply Hin; now right). now destruct (isspace c).
Qed.

Lemma except_close (c : char) : c <> close -> except close c = true.
Proof. intros H. unfold except. now apply negb_true_iff, N.eqb_neq. Qed.

Lemma except_close_close : except close close = false.
Proof. unfold except. now rewrite N.eqb_refl. Qed.

Lemma tail_match (q rest : text) :
  ~ In close q -> re_match (group_tail close) (q ++ close :: rest) = Some rest.
Proof.
  unfold group_tail. induction q as [|c q IH]; intros H; cbn [app].
  - rewrite re_match_star_cons, except_close_close, re_match_one_cons.
    unfold only. now rewrite N.eqb_refl.
  - rewrite re_match_star_cons, except_close by (intros ->; apply H; now left).
    now rewrite IH by (intros Hin; apply H; now right).
Qed.

(** A plain pattern followed by more: the plain part first. *)
Lemma plain_app (r r' : regex) : forall k z,
  plain close r -> re_match r k = Some [] -> re_match (r ++ r') (k ++ z) = re_match r' z.
Proof.
  induction r as [|[cls|cls] r IH]; intros k z Hp Hk.
  - cbn in Hk. injection Hk as ->. reflexivity.
  - destruct k as [|c k]; [discriminate|]. cbn [app]. rewrite re_match_one_cons in *.
    destruct (cls c); [|discriminate]. apply IH; [now inversion Hp|exact Hk].
  - inversion Hp; subst. contradiction.
Qed.

(** Past the content of the group, the only place to stop is behind the
    closing bracket. *)
Lemma plain_tail_unique (r : regex) : forall q rest x,
  plain close r -> ~ In close q ->
  re_match (r ++ (group_tail close)) (q ++ close :: rest) = Some x -> x = rest.
Proof.
  induction r as [|[cls|cls] r IH]; intros q rest x Hp Hq.
  - cbn [app]. rewrite tail_match by exact Hq. congruence.
  - inversion Hp as [|? ? Hcls Hp']; subst.
    destruct q as [|c q]; cbn [app]; rewrite re_match_one_cons.
    + now rewrite Hcls.
    + destruct (cls c); [|discriminate].
      apply IH; [exact Hp'|intros Hin; apply Hq; now right].
  - inversion Hp; subst. contradiction.
Qed.

Lemma inner_unique (q rest x : text) :
  ~ In close q -> re_match (group_inner close kw) (q ++ close :: rest) = Some x -> x = rest.
Proof.
  unfold group_inner. induction q as [|c q IH]; intros Hq; cbn [app].
  - rewrite re_match_star_cons, except_close_close.
    apply (plain_tail_unique kw [] rest x kw_plain). tauto.
  - rewrite re_match_star_cons, except_close by (intros ->; apply Hq; now left).
    destruct (re_match (Star (except close) :: kw ++ (group_tail close)) (q ++ close :: rest)) as [y|] eqn:E.
    + intros H. injection H as <-. apply IH; [intros Hin; apply Hq; now right|reflexivity].
    + apply (plain_tail_unique kw (c :: q) rest x kw_plain Hq).
Qed.

Lemma inner_finds (q1 s x : text) :
  ~ In close q1 -> re_match (kw ++ (group_tail close)) s = Some x ->
  re_match (group_inner close kw) (q1 ++ s) <> None.
Proof.
  unfold group_inner. intros Hq Hs. induction q1 as [|c q1 IH]; cbn [app].
  - destruct s as [|c s].
    + rewrite re_match_star_nil. congruence.
    + rewrite re_match_star_cons. destruct (except close c); [|congruence].
      destruct (re_match (Star (except close) :: kw ++ (group_tail close)) s); congruence.
  - rewrite re_match_star_cons, except_close by (intros ->; apply Hq; now left).
    destruct (re_match (Star (except close) :: kw ++ (group_tail close)) (q1 ++ s)) eqn:E; [discriminate|].
    exfalso. apply IH; [intros Hin; apply Hq; now right|reflexivity].
Qed.

(** The content mentions the qualifier: the group matches up to its
    closing bracket. *)
Lemma inner_match (q1 k q2 rest : text) :
  ~ In close (q1 ++ k ++ q2) -> re_match kw k = Some [] ->
  re_match (group_inner close kw) ((q1 ++ k ++ q2) ++ close :: rest) = Some rest.
Proof.
  intros Hq Hk.
  destruct (re_match (group_inner close kw) ((q1 ++ k ++ q2) ++ close :: rest)) as [x|] eqn:E.
  - f_equal. exact (inner_unique _ _ _ Hq E).
  - exfalso. revert E. rewrite <- !app_assoc.
    apply (inner_finds q1 _ rest).
    + intros Hin. apply Hq. apply in_or_app. now left.
    + rewrite (plain_app kw (group_tail close) k _ kw_plain Hk). apply tail_match.
      intros Hin. apply Hq. apply in_or_app. right. apply in_or_app. now right.
Qed.

(** ** Removing a qualifier group at the end of a text *)

Lemma re_sub_after_text (b repl z : text) :
  ends_nonspace b -> ~ In open b ->
  re_sub (group open close kw) repl (b ++ z) = b ++ re_sub (group open close kw) repl z.
Proof.
  induction 1 as [c Hc|c t Ht IH]; intros Hin.
  - pose proof (group_after_text [c] z (ends_one c Hc) Hin) as H.
    cbn [app] in *. now rewrite re_sub_cons, H.
  - pose proof (group_after_text (c :: t) z (ends_cons c t Ht) Hin) as H.
    cbn [app] in *. rewrite re_sub_cons, H.
    f_equal. apply IH. intros H'. apply Hin. now right.
Qed.

Variables (a w q : text).
Hypothesis a_shape : a = [] \/ ends_nonspace a.
Hypothesis a_no_open : ~ In open a.
Hypothesis w_spaces : Forall (fun c => isspace c = true) w.
Hypothesis q_no_open : ~ In open q.
Hypothesis q_no_close : ~ In close q.
Hypothesis close_not_open : close <> open.

Lemma re_sub_before_group (repl z : text) :
  re_sub (group open close kw) repl (a ++ z) = a ++ re_sub (group open close kw) repl z.
Proof.
  destruct a_shape as [->|Ha]; [reflexivity|]. now apply re_sub_after_text.
Qed.

Lemma group_removed :
  re_match (group_inner close kw) (q ++ [close]) = Some [] ->
  re_sub (group open close kw) [] (a ++ w ++ open :: q ++ [close]) = a.
Proof.
  intros Hm. rewrite re_sub_before_group.
  assert (Hz : re_match (group open close kw) (w ++ open :: q ++ [close]) = Some [])
    by now rewrite group_skip_spaces.
  destruct (w ++ open :: q ++ [close]) as [|c z] eqn:Ez.
  - now rewrite app_nil_r.
  - rewrite re_sub_cons, Hz. cbn. now rewrite app_nil_r.
Qed.

Lemma group_kept :
  re_match (group_inner close kw) (q ++ [close]) = None ->
  re_sub (group open close kw) [] (a ++ w ++ open :: q ++ [close])
  = a ++ w ++ open :: q ++ [close].
Proof.
  intros Hm. rewrite re_sub_before_group. f_equal.
  assert (Hq : re_sub (group open close kw) [] (q ++ [close]) = q ++ [close]).
  { apply re_sub_no_match. intros pre suf Heq. apply group_no_open.
    intros Hin. assert (H : In open (q ++ [close])) by (rewrite Heq; apply in_or_app; now right).
    apply in_app_or in H as [H|[H|[]]]; [now apply q_no_open|now apply close_not_open]. }
  induction w_spaces as [|c w' Hc Hw IH]; cbn [app].
  - pose proof (group_skip_spaces [] (q ++ [close]) (Forall_nil _)) as H.
    cbn [app] in H. now rewrite re_sub_cons, H, Hm, Hq.
  - pose proof (group_skip_spaces (c :: w') (q ++ [close]) (Forall_cons _ Hc Hw)) as H.
    cbn [app] in H. now rewrite re_sub_cons, H, Hm, IH.
Qed.

Lemma group_removed_or_kept :
  let t := a ++ w ++ open :: q ++ [close] in
  re_sub (group open close kw) [] t = a \/ re_sub (group open close kw) [] t = t.
Proof.
  cbn zeta. destruct (re_match (group_inner close kw) (q ++ [close])) as [x|] eqn:E.
  - left. apply group_removed. rewrite E. f_equal.
    exact (inner_unique q [] x q_no_close E).
  - right. now apply group_kept.
Qed.

End Group.

(** ** All the patterns of one kind of bracket *)

Lemma remove_groups_no_open (open close : char) (kws : list regex) (t : text) :
  ~ In open t -> remove_groups open close kws t = t.
Proof.
  intros H. unfold remove_groups. induction kws as [|kw kws IH]; cbn; [reflexivity|].
  rewrite re_sub_no_match; [exact IH|].
  intros pre suf ->. apply group_no_open. intros Hin. apply H, in_or_app. now right.
Qed.

Lemma remove_groups_group (open close : char) (kws : list regex) (a w q : text) :
  isspace open = false -> close <> open ->
  Forall (plain close) kws ->
  a = [] \/ ends_nonspace a -> ~ In open a ->
  Forall (fun c => isspace c = true) w ->
  ~ In open q -> ~ In close q ->
  let t := a ++ w ++ open :: q ++ [close] in
  (remove_groups open close kws t = a \/ remove_groups open close kws t = t)
  /\ (forall kw q1 k q2, In kw kws -> q = q1 ++ k ++ q2 -> re_match kw k = Some [] ->
      remove_groups open close kws t = a).
Proof.
  intros Ho Hco Hkws Ha Hao Hw Hqo Hqc t.
  induction kws as [|kw kws IH]; [split; [now right|intros ? ? ? ? []]|].
  inversion Hkws as [|? ? Hkw Hkws']; subst. specialize (IH Hkws').
  change (remove_groups open close (kw :: kws) t)
    with (remove_groups open close kws (re_sub (group open close kw) [] t)).
  destruct (group_removed_or_kept open close kw Ho Hkw a w q Ha Hao Hw Hqo Hqc Hco)
    as [E|E]; fold t in E; rewrite E.
  - rewrite (remove_groups_no_open open close kws a Hao). split; [now left|reflexivity].
  - split; [apply IH|]. intros kw' q1 k q2 [<-|Hin] Hq Hk.
    + exfalso. pose proof (group_removed open close kw Ho a w q Ha Hao Hw) as Hrm.
      fold t in Hrm. rewrite E in Hrm.
      assert (Hm : re_match (Star (except close) :: kw ++ [Star (except close); One (only close)])
                            (q ++ [close]) = Some []).
      { rewrite Hq. apply (inner_match close kw Hkw q1 k q2 []); [now rewrite <- Hq|exact Hk]. }
      specialize (Hrm Hm). apply (f_equal (@List.length _)) in Hrm.
      unfold t in Hrm. rewrite !length_app in Hrm. cbn in Hrm. lia.
    + now apply (proj2 IH kw' q1 k q2).
Qed.

Lemma fold_left_map {A B C} (f : A -> B -> A) (g : C -> B) (l : list C) (a : A) :
  fold_left f (map g l) a = fold_left (fun a x => f a (g x)) l a.
Proof. revert a. induction l as [|x l IH]; intros a; cbn; auto. Qed.

Lemma remove_patterns_groups (t : text) :
  remove_patterns t
  = remove_groups 0x5B 0x5D bracket_qualifiers (remove_groups 0x28 0x29 paren_qualifiers t).
Proof.
  unfold remove_patterns.
  change patterns_to_remove
    with (map paren paren_qualifiers ++ map bracket bracket_qualifiers).
  now rewrite fold_left_app, !fold_left_map.
Qed.

Lemma plain_literal (close : char) (w : text) :
  Forall (fun c => (lower_char close =? c) = false) w -> plain close (literal w).
Proof.
  unfold plain, literal. induction 1; cbn; constructor; auto.
Qed.

Lemma paren_qualifiers_plain : Forall (plain 0x29) paren_qualifiers.
Proof.
  unfold paren_qualifiers.
  repeat (constructor; [first [apply plain_literal; repeat constructor
                              | repeat constructor]|]).
  constructor.
Qed.

Lemma bracket_qualifiers_plain : Forall (plain 0x5D) bracket_qualifiers.
Proof.
  unfold bracket_qualifiers.
  repeat (constructor; [first [apply plain_literal; repeat constructor
                              | repeat constructor]|]).
  constructor.
Qed.

(** ** The text in front of the group *)

Lemma strip_before_group (u q : text) (open close : char) :
  isspace open = false -> isspace close = false ->
  exists w, Forall (fun c => isspace c = true) w
            /\ strip (u ++ 0x20 :: open :: q ++ [close])
               = strip u ++ w ++ open :: q ++ [close].
Proof.
  intros Ho Hc. unfold strip. rewrite lstrip_app.
  destruct (lstrip u) as [|c v] eqn:E.
  - exists []. split; [constructor|]. cbn [lstrip rstrip app].
    change (isspace 0x20) with true. cbn iota. rewrite Ho.
    apply rstrip_fixed. change (open :: q ++ [close]) with ((open :: q) ++ [close]).
    now apply ends_nonspace_app.
  - destruct (rstrip_split (c :: v)) as [w [Hsplit Hw]].
    exists (w ++ [0x20]). split; [apply Forall_app; split; [exact Hw|now constructor]|].
    rewrite rstrip_fixed.
    + rewrite Hsplit at 1. rewrite <- !app_assoc. reflexivity.
    + apply ends_nonspace_app_r.
      change (0x20 :: open :: q ++ [close]) with ((0x20 :: open :: q) ++ [close]).
      now apply ends_nonspace_app.
Qed.

Lemma normalize_text_steps (t : text) :
  normalize_text t
  = strip (collapse_whitespace (apply_replacements (remove_patterns (strip (lower (nfkd t)))))).
Proof. destruct t; reflexivity. Qed.

(** Decomposition and lower-casing neither make nor lose a bracket. *)
Lemma lower_decomposition_class (P : char -> bool) :
  forallb (fun c => P c || forallb (fun x => negb (P x)) (lower (decomposition c)))
          (map N.of_nat (seq 0 256)) = true ->
  forall t, latin1 t -> Forall (fun c => P c = false) t ->
            Forall (fun c => P c = false) (lower (nfkd t)).
Proof.
  intros H t Ht Hp. pose proof (latin1_range _ H) as Hr. cbv beta in Hr.
  induction Ht as [|c t Hc Ht IH]; [constructor|].
  inversion Hp as [|? ? Hpc Hp']; subst. cbn. unfold lower in *.
  rewrite map_app. apply Forall_app. split; [|now apply IH].
  specialize (Hr c Hc). rewrite Hpc in Hr. cbn in Hr. rewrite forallb_forall in Hr.
  apply Forall_forall. intros x Hx. now apply negb_true_iff, Hr.
Qed.

Lemma Forall_not_In (c : char) (t : text) :
  Forall (fun x => (x =? c) = false) t <-> ~ In c t.
Proof.
  rewrite Forall_forall. split.
  - intros H Hin. specialize (H c Hin). now rewrite N.eqb_refl in H.
  - intros H x Hx. apply N.eqb_neq. intros ->. contradiction.
Qed.

Lemma lower_nfkd_no_char (c : char) (t : text) :
  forallb (fun d => (d =? c) || forallb (fun x => negb (x =? c)) (lower (decomposition d)))
          (map N.of_nat (seq 0 256)) = true ->
  latin1 t -> ~ In c t -> ~ In c (lower (nfkd t)).
Proof.
  intros H Ht Hc. apply Forall_not_In.
  apply (lower_decomposition_class (fun x => x =? c) H t Ht). now apply Forall_not_In.
Qed.

Lemma no_brackets_not_In (t : text) :
  no_brackets t -> ~ In 0x28 t /\ ~ In 0x29 t /\ ~ In 0x5B t /\ ~ In 0x5D t.
Proof.
  unfold no_brackets, is_bracket. rewrite Forall_forall. intros H.
  repeat split; intros Hin; specialize (H _ Hin); discriminate.
Qed.

(** ** A group that no pattern matches *)

Lemma re_match_star_inv (cls : char -> bool) (r : regex) : forall s x,
  re_match (Star cls :: r) s = Some x ->
  exists p s', s = p ++ s' /\ re_match r s' = Some x.
Proof.
  induction s as [|c s IH]; intros x.
  - rewrite re_match_star_nil. intros H. exists [], []. split; [reflexivity|exact H].
  - rewrite re_match_star_cons.
    assert (Hhere : re_match r (c :: s) = Some x ->
                    exists p s', c :: s = p ++ s' /\ re_match r s' = Some x).
    { intros H. exists [], (c :: s). split; [reflexivity|exact H]. }
    destruct (cls c); [|exact Hhere].
    destruct (re_match (Star cls :: r) s) as [y|] eqn:E; [|exact Hhere].
    intros H. injection H as <-. destruct (IH y eq_refl) as (p & s' & -> & H).
    exists (c :: p), s'. split; [reflexivity|exact H].
Qed.

Lemma re_match_plain_split (close : char) (r r' : regex) : forall s x,
  plain close r -> re_match (r ++ r') s = Some x ->
  exists k z, s = k ++ z /\ re_match r k = Some [] /\ re_match r' z = Some x.
Proof.
  induction r as [|[cls|cls] r IH]; intros s x Hp H.
  - exists [], s. split; [reflexivity|]. split; [reflexivity|exact H].
  - inversion Hp as [|? ? _ Hp']; subst. cbn [app] in H.
    destruct s as [|c s]; [discriminate|]. rewrite re_match_one_cons in H.
    destruct (cls c) eqn:Ec; [|discriminate].
    destruct (IH s x Hp' H) as (k & z & -> & Hk & Hz).
    exists (c :: k), z. split; [reflexivity|]. split; [|exact Hz].
    rewrite re_match_one_cons, Ec. exact Hk.
  - inversion Hp; subst. contradiction.
Qed.

(** The group pattern of a qualifier matches only a content that mentions
    the qualifier. *)
Lemma inner_match_inv (close : char) (kw : regex) (q x : text) :
  plain close kw ->
  re_match (group_inner close kw) (q ++ [close]) = Some x ->
  exists q1 k q2, q = q1 ++ k ++ q2 /\ re_match kw k = Some [].
Proof.
  intros Hp H. unfold group_inner in H.
  apply re_match_star_inv in H as (p & s' & Hs & H).
  apply (re_match_plain_split close) in H as (k & z & -> & Hk & Hz); [|exact Hp].
  destruct z as [|c z].
  { unfold group_tail in Hz. rewrite re_match_star_nil in Hz. discriminate. }
  destruct (exists_last (l:=c :: z) ltac:(discriminate)) as (z' & d & Ez).
  rewrite Ez in Hs. rewrite !app_assoc in Hs. apply app_inj_tail in Hs as [Hq _].
  exists p, k, z'. split; [rewrite Hq, <- app_assoc; reflexivity|exact Hk].
Qed.

Lemma remove_groups_kept (open close : char) (kws : list regex) (a w q : text) :
  isspace open = false -> close <> open ->
  Forall (plain close) kws ->
  a = [] \/ ends_nonspace a -> ~ In open a ->
  Forall (fun c => isspace c = true) w ->
  ~ In open q ->
  (forall kw q1 k q2, In kw kws -> q = q1 ++ k ++ q2 -> re_match kw k <> Some []) ->
  remove_groups open close kws (a ++ w ++ open :: q ++ [close])
  = a ++ w ++ open :: q ++ [close].
Proof.
  intros Ho Hco Hkws Ha Hao Hw Hqo Hno.
  induction kws as [|kw kws IH]; [reflexivity|].
  inversion Hkws as [|? ? Hkw Hkws']; subst.
  change (remove_groups open close (kw :: kws) (a ++ w ++ open :: q ++ [close]))
    with (remove_groups open close kws
            (re_sub (group open close kw) [] (a ++ w ++ open :: q ++ [close]))).
  rewrite (group_kept open close kw Ho a w q Ha Hao Hw Hqo Hco).
  - apply IH; [exact Hkws'|]. intros kw' q1 k q2 Hin. apply Hno. right. exact Hin.
  - destruct (re_match (group_inner close kw) (q ++ [close])) as [x|] eqn:E; [|reflexivity].
    exfalso. destruct (inner_match_inv close kw q x Hkw E) as (q1 & k & q2 & Hq & Hk).
    exact (Hno kw q1 k q2 (or_introl eq_refl) Hq Hk).
Qed.

(** ** Characters that the later steps keep *)

Lemma replace_keeps (old : char) (new t : text) (c : char) :
  c <> old -> In c t -> In c (replace old new t).
Proof.
  intros Hc Hin. unfold replace. apply in_flat_map. exists c. split; [exact Hin|].
  destruct (N.eqb_spec c old); [contradiction|]. left. reflexivity.
Qed.

Lemma replace_all_keeps (R : list (char * text)) (c : char) : forall t,
  ~ In c (map fst R) -> In c t -> In c (replace_all R t).
Proof.
  unfold replace_all. induction R as [|[k v] R IH]; intros t Hk Hin; [exact Hin|].
  cbn [fold_left fst snd]. apply IH.
  - intros H. apply Hk. right. exact H.
  - apply replace_keeps; [|exact Hin]. intros ->. apply Hk. left. reflexivity.
Qed.

Lemma lstrip_keeps (t : text) (c : char) :
  isspace c = false -> In c t -> In c (lstrip t).
Proof.
  intros Hc. induction t as [|d t IH]; intros Hin; [destruct Hin|].
  cbn [lstrip]. destruct (isspace d) eqn:Ed; [|exact Hin].
  destruct Hin as [->|Hin]; [congruence|exact (IH Hin)].
Qed.

Lemma rstrip_keeps (t : text) (c : char) :
  isspace c = false -> In c t -> In c (rstrip t).
Proof.
  intros Hc Hin. destruct (rstrip_split t) as (w & Hw & Hs).
  rewrite Hw in Hin. apply in_app_or in Hin as [Hin|Hin]; [exact Hin|].
  rewrite Forall_forall in Hs. specialize (Hs c Hin). congruence.
Qed.

Lemma strip_keeps (t : text) (c : char) :
  isspace c = false -> In c t -> In c (strip t).
Proof. intros Hc Hin. unfold strip. apply rstrip_keeps, lstrip_keeps; assumption. Qed.

Lemma collapse_keeps (c : char) : isspace c = false ->
  forall n t, (List.length t <= n)%nat -> In c t -> In c (collapse_whitespace t).
Proof.
  intros Hc. induction n as [|n IH]; intros t Hn Hin.
  - destruct t; [destruct Hin|cbn in Hn; lia].
  - destruct t as [|d t]; [destruct Hin|]. rewrite collapse_cons.
    cbn [List.length] in Hn. destruct (isspace d) eqn:Ed.
    + right. destruct Hin as [->|Hin]; [congruence|].
      apply IH; [|apply lstrip_keeps; assumption].
      pose proof (lstrip_length t). unfold text, char in *. lia.
    + destruct Hin as [->|Hin]; [left; reflexivity|right]. apply IH; [|exact Hin].
      unfold text, char in *. lia.
Qed.

Lemma later_steps_keep (t : text) (c : char) :
  isspace c = false -> is_key c = false -> In c t ->
  In c (strip (collapse_whitespace (apply_replacements t))).
Proof.
  intros Hs Hk Hin. apply strip_keeps; [exact Hs|].
  apply (collapse_keeps c Hs (List.length (apply_replacements t))); [reflexivity|].
  apply (replace_all_keeps replacements c t); [apply is_key_In; exact Hk|exact Hin].
Qed.

Lemma later_steps_make_none (t : text) (c : char) :
  isspace c = false ->
  forallb (fun kv => forallb (fun x => negb (x =? c)) (snd kv)) replacements = true ->
  ~ In c t -> ~ In c (strip (collapse_whitespace (apply_replacements t))).
Proof.
  intros Hs Hv Hin. apply Forall_not_In, strip_Forall.
  apply re_sub_Forall.
  - constructor; [|constructor]. apply N.eqb_neq. intros E.
    rewrite <- E in Hs. discriminate.
  - apply (replace_all_Forall _ replacements t); [|apply Forall_not_In; exact Hin].
    intros kv Hkv. rewrite forallb_forall in Hv. specialize (Hv kv Hkv).
    rewrite forallb_forall in Hv. apply Forall_forall. intros x Hx.
    apply negb_true_iff. exact (Hv x Hx).
Qed.

Section Suffix.

Variables (s q : text).
Hypothesis s_latin1 : latin1 s.
Hypothesis q_latin1 : latin1 q.
Hypothesis s_no_opening : no_opening s.
Hypothesis q_no_brackets : no_brackets q.

Lemma stripped_no_opening : ~ In 0x28 (strip (folded s)) /\ ~ In 0x5B (strip (folded s)).
Proof.
  destruct s_no_opening as [H1 H2]. split; apply Forall_not_In, strip_Forall, Forall_not_In.
  - apply lower_nfkd_no_char; [vm_compute; reflexivity|assumption|assumption].
  - apply lower_nfkd_no_char; [vm_compute; reflexivity|assumption|assumption].
Qed.

Lemma content_no_brackets :
  ~ In 0x28 (folded q) /\ ~ In 0x29 (folded q) /\ ~ In 0x5B (folded q) /\ ~ In 0x5D (folded q).
Proof.
  destruct (no_brackets_not_In q q_no_brackets) as [H1 [H2 [H3 H4]]].
  repeat split; (apply lower_nfkd_no_char; [vm_compute; reflexivity|assumption|assumption]).
Qed.

Lemma remove_patterns_stripped : remove_patterns (strip (folded s)) = strip (folded s).
Proof.
  destruct stripped_no_opening as [H1 H2].
  rewrite remove_patterns_groups.
  now rewrite (remove_groups_no_open 0x28), (remove_groups_no_open 0x5B).
Qed.

Lemma normalize_text_group (open close : char) (w : text) :
  remove_patterns (strip (folded s) ++ w ++ open :: (folded q) ++ [close]) = strip (folded s) ->
  strip (lower (nfkd (s ++ 0x20 :: open :: q ++ [close])))
  = strip (folded s) ++ w ++ open :: (folded q) ++ [close] ->
  normalize_text (s ++ 0x20 :: open :: q ++ [close]) = normalize_text s.
Proof.
  intros Hrm Hst. rewrite !normalize_text_steps, Hst, Hrm.
  fold (folded s). now rewrite remove_patterns_stripped.
Qed.

Lemma lower_nfkd_group (open close : char) :
  open < 0x80 -> close < 0x80 -> lower_char open = open -> lower_char close = close ->
  decomposition open = [open] -> decomposition close = [close] ->
  lower (nfkd (s ++ 0x20 :: open :: q ++ [close])) = (folded s) ++ 0x20 :: open :: (folded q) ++ [close].
Proof.
  intros _ _ Ho Hc Hdo Hdc. unfold folded, lower, nfkd.
  rewrite flat_map_app, map_app. f_equal. cbn [flat_map].
  change (decomposition 0x20) with [0x20]. rewrite Hdo. cbn [app map].
  change (lower_char 0x20) with 0x20. rewrite Ho. do 2 f_equal.
  rewrite flat_map_app, map_app. f_equal. cbn [flat_map]. rewrite Hdc. cbn.
  now rewrite Hc.
Qed.

Lemma paren_suffix_removed (kw : regex) :
  In kw paren_qualifiers -> has_qualifier kw q ->
  normalize_text (s ++ str " (" ++ q ++ str ")") = normalize_text s.
Proof.
  intros Hkw [q1 [k [q2 [Hq Hk]]]]. fold (folded q) in Hq.
  change (s ++ str " (" ++ q ++ str ")") with (s ++ 0x20 :: 0x28 :: q ++ [0x29]).
  destruct (strip_before_group (folded s) (folded q) 0x28 0x29 eq_refl eq_refl) as [w [Hw Hst]].
  destruct stripped_no_opening as [Ha1 Ha2].
  destruct content_no_brackets as [Hq1 [Hq2 [Hq3 Hq4]]].
  apply (normalize_text_group 0x28 0x29 w).
  - rewrite remove_patterns_groups.
    destruct (remove_groups_group 0x28 0x29 paren_qualifiers (strip (folded s)) w (folded q)
                eq_refl ltac:(discriminate) paren_qualifiers_plain
                (proj2 (strip_shape (folded s))) Ha1 Hw Hq1 Hq2) as [_ H].
    rewrite (H kw q1 k q2 Hkw Hq Hk).
    now apply remove_groups_no_open.
  - rewrite lower_nfkd_group by (reflexivity || (vm_compute; reflexivity)).
    exact Hst.
Qed.

Lemma bracket_suffix_removed (kw : regex) :
  In kw bracket_qualifiers -> has_qualifier kw q ->
  normalize_text (s ++ str " [" ++ q ++ str "]") = normalize_text s.
Proof.
  intros Hkw [q1 [k [q2 [Hq Hk]]]]. fold (folded q) in Hq.
  change (s ++ str " [" ++ q ++ str "]") with (s ++ 0x20 :: 0x5B :: q ++ [0x5D]).
  destruct (strip_before_group (folded s) (folded q) 0x5B 0x5D eq_refl eq_refl) as [w [Hw Hst]].
  destruct stripped_no_opening as [Ha1 Ha2].
  destruct content_no_brackets as [Hq1 [Hq2 [Hq3 Hq4]]].
  apply (normalize_text_group 0x5B 0x5D w).
  - rewrite remove_patterns_groups.
    rewrite (remove_groups_no_open 0x28).
    + destruct (remove_groups_group 0x5B 0x5D bracket_qualifiers (strip (folded s)) w (folded q)
                  eq_refl ltac:(discriminate) bracket_qualifiers_plain
                  (proj2 (strip_shape (folded s))) Ha2 Hw Hq3 Hq4) as [_ H].
      exact (H kw q1 k q2 Hkw Hq Hk).
    + intros Hin. apply in_app_or in Hin as [Hin|Hin]; [contradiction|].
      apply in_app_or in Hin as [Hin|Hin].
      * rewrite Forall_forall in Hw. specialize (Hw _ Hin). discriminate.
      * destruct Hin as [Hin|Hin]; [discriminate|].
        apply in_app_or in Hin as [Hin|[Hin|[]]]; [contradiction|discriminate].
  - rewrite lower_nfkd_group by (reflexivity || (vm_compute; reflexivity)).
    exact Hst.
Qed.

Lemma group_text_without (c open close : char) (a w fq : text) :
  isspace c = false -> c <> open -> c <> close ->
  ~ In c a -> Forall (fun x => isspace x = true) w -> ~ In c fq ->
  ~ In c (a ++ w ++ open :: fq ++ [close]).
Proof.
  intros Hc Ho Hcl Ha Hw Hq Hin.
  apply in_app_or in Hin as [Hin|Hin]; [contradiction|].
  apply in_app_or in Hin as [Hin|Hin].
  - rewrite Forall_forall in Hw. specialize (Hw _ Hin). congruence.
  - destruct Hin as [Hin|Hin]; [congruence|].
    apply in_app_or in Hin as [Hin|[Hin|[]]]; [contradiction|congruence].
Qed.

Lemma group_text_brackets (open close : char) (a w fq : text) :
  In open (a ++ w ++ open :: fq ++ [close]) /\ In close (a ++ w ++ open :: fq ++ [close]).
Proof.
  split; apply in_or_app; right; apply in_or_app; right.
  - left. reflexivity.
  - right. apply in_or_app. right. left. reflexivity.
Qed.

Lemma normalize_text_without (c : char) :
  isspace c = false ->
  forallb (fun kv => forallb (fun x => negb (x =? c)) (snd kv)) replacements = true ->
  ~ In c (strip (folded s)) -> ~ In c (normalize_text s).
Proof.
  intros Hc Hv Hin. rewrite normalize_text_steps. fold (folded s).
  rewrite remove_patterns_stripped. now apply later_steps_make_none.
Qed.

Lemma normalize_text_kept (open close : char) (w : text) :
  isspace open = false -> is_key open = false ->
  isspace close = false -> is_key close = false ->
  forallb (fun kv => forallb (fun x => negb (x =? open)) (snd kv)) replacements = true ->
  ~ In open (strip (folded s)) ->
  let t := s ++ 0x20 :: open :: q ++ [close] in
  let u := strip (folded s) ++ w ++ open :: (folded q) ++ [close] in
  strip (folded t) = u -> remove_patterns u = u ->
  remove_patterns (strip (folded t)) = strip (folded t)
  /\ In open (normalize_text t) /\ In close (normalize_text t)
  /\ normalize_text t <> normalize_text s.
Proof.
  intros Ho Hko Hc Hkc Hv Ha t u Hst Hrm.
  destruct (group_text_brackets open close (strip (folded s)) w (folded q)) as [Io Ic].
  fold u in Io, Ic.
  assert (Hn : normalize_text t = strip (collapse_whitespace (apply_replacements u))).
  { rewrite normalize_text_steps. fold (folded t). now rewrite Hst, Hrm. }
  assert (Hin : In open (normalize_text t)).
  { rewrite Hn. now apply later_steps_keep. }
  split; [now rewrite Hst|]. split; [exact Hin|]. split.
  - rewrite Hn. now apply later_steps_keep.
  - intros E. rewrite E in Hin. now apply (normalize_text_without open Ho Hv Ha).
Qed.

Lemma qualifiers_absent (kws : list regex) :
  (forall kw, In kw kws -> ~ has_qualifier kw q) ->
  forall kw q1 k q2, In kw kws -> folded q = q1 ++ k ++ q2 -> re_match kw k <> Some [].
Proof.
  intros H kw q1 k q2 Hkw Hq Hk. apply (H kw Hkw). exists q1, k, q2. now split.
Qed.

Lemma paren_suffix_kept :
  (forall kw, In kw paren_qualifiers -> ~ has_qualifier kw q) ->
  let t := s ++ str " (" ++ q ++ str ")" in
  remove_patterns (strip (folded t)) = strip (folded t)
  /\ In 0x28 (normalize_text t) /\ In 0x29 (normalize_text t)
  /\ normalize_text t <> normalize_text s.
Proof.
  intros Hno.
  change (s ++ str " (" ++ q ++ str ")") with (s ++ 0x20 :: 0x28 :: q ++ [0x29]).
  destruct (strip_before_group (folded s) (folded q) 0x28 0x29 eq_refl eq_refl) as [w [Hw Hst]].
  destruct stripped_no_opening as [Ha1 Ha2].
  destruct content_no_brackets as [Hq1 [Hq2 [Hq3 Hq4]]].
  apply (normalize_text_kept 0x28 0x29 w); try reflexivity; try exact Ha1.
  - unfold folded at 1.
    rewrite lower_nfkd_group by (reflexivity || (vm_compute; reflexivity)).
    exact Hst.
  - rewrite remove_patterns_groups.
    rewrite (remove_groups_kept 0x28 0x29 paren_qualifiers (strip (folded s)) w (folded q)
               eq_refl ltac:(discriminate) paren_qualifiers_plain
               (proj2 (strip_shape (folded s))) Ha1 Hw Hq1
               (qualifiers_absent paren_qualifiers Hno)).
    apply remove_groups_no_open.
    apply group_text_without; try assumption; try reflexivity; discriminate.
Qed.

Lemma bracket_suffix_kept :
  (forall kw, In kw bracket_qualifiers -> ~ has_qualifier kw q) ->
  let t := s ++ str " [" ++ q ++ str "]" in
  remove_patterns (strip (folded t)) = strip (folded t)
  /\ In 0x5B (normalize_text t) /\ In 0x5D (normalize_text t)
  /\ normalize_text t <> normalize_text s.
Proof.
  intros Hno.
  change (s ++ str " [" ++ q ++ str "]") with (s ++ 0x20 :: 0x5B :: q ++ [0x5D]).
  destruct (strip_before_group (folded s) (folded q) 0x5B 0x5D eq_refl eq_refl) as [w [Hw Hst]].
  destruct stripped_no_opening as [Ha1 Ha2].
  destruct content_no_brackets as [Hq1 [Hq2 [Hq3 Hq4]]].
  apply (normalize_text_kept 0x5B 0x5D w); try reflexivity; try exact Ha2.
  - unfold folded at 1.
    rewrite lower_nfkd_group by (reflexivity || (vm_compute; reflexivity)).
    exact Hst.
  - rewrite remove_patterns_groups.
    rewrite (remove_groups_no_open 0x28).
    + apply (remove_groups_kept 0x5B 0x5D bracket_qualifiers (strip (folded s)) w (folded q)
               eq_refl ltac:(discriminate) bracket_qualifiers_plain
               (proj2 (strip_shape (folded s))) Ha2 Hw Hq3
               (qualifiers_absent bracket_qualifiers Hno)).
    + apply group_text_without; try assumption; try reflexivity; discriminate.
Qed.

End Suffix.

(** ** Lengths *)

Ltac text_lia := unfold text, char in *; lia.

Lemma re_sub_delete_length (r : regex) (s : text) :
  (List.length (re_sub r [] s) <= List.length s)%nat
  /\ (List.length (re_sub r [] s) = List.length s -> re_sub r [] s = s).
Proof.
  revert s.
  apply (re_sub_ind r [] (fun s out =>
    (List.length out <= List.length s)%nat /\ (List.length out = List.length s -> out = s))).
  - auto.
  - intros c s _ [IH1 IH2]. cbn [List.length]. split; [text_lia|].
    intros H. f_equal. apply IH2. text_lia.
  - intros c s rest _ _ [IH1 IH2]. cbn [List.length]. split; [text_lia|].
    intros H. f_equal. apply IH2. text_lia.
  - intros c s pre rest _ Heq Hpre [IH1 IH2]. cbn [app]. rewrite Heq, length_app.
    destruct pre; [congruence|]. cbn [List.length].
    split; [text_lia|intros H; exfalso; text_lia].
Qed.

Lemma remove_patterns_length (t : text) :
  (List.length (remove_patterns t) <= List.length t)%nat
  /\ (List.length (remove_patterns t) = List.length t -> remove_patterns t = t).
Proof.
  unfold remove_patterns. generalize patterns_to_remove. intros ps. revert t.
  induction ps as [|p ps IH]; intros t; cbn [fold_left]; [auto|].
  destruct (IH (re_sub p [] t)) as [H1 H2].
  destruct (re_sub_delete_length p t) as [H3 H4].
  split; [text_lia|]. intros H. rewrite (H2 ltac:(text_lia)). apply H4. text_lia.
Qed.

Lemma collapse_length (t : text) :
  (List.length (collapse_whitespace t) <= List.length t)%nat.
Proof.
  unfold collapse_whitespace. revert t.
  apply (re_sub_ind _ _ (fun s out => (List.length out <= List.length s)%nat)).
  - auto.
  - intros. cbn [List.length]. text_lia.
  - intros. cbn [List.length]. text_lia.
  - intros c s pre rest _ Heq Hpre IH. rewrite Heq, !length_app.
    destruct pre; [congruence|]. change (List.length (str " ")) with 1%nat.
    cbn [List.length]. text_lia.
Qed.

Lemma strip_length (t : text) : (List.length (strip t) <= List.length t)%nat.
Proof.
  unfold strip. pose proof (lstrip_length t).
  destruct (rstrip_split (lstrip t)) as [w [Hw _]].
  apply (f_equal (@List.length _)) in Hw. rewrite length_app in Hw. text_lia.
Qed.

(* ================================================================== *)
(** * Properties of the normalizer *)




(** C4: the table of diacritics is consulted after the text has been
    decomposed, so a letter with a diacritic is never found in it: each one
    comes out as its base letter followed by the combining mark, not as the
    replacement the table gives.  Only the ampersand, the plus sign and the
    sharp s (U+00DF), which has no decomposition, are replaced. *)
Theorem diacritics_are_decomposed_not_replaced :
  Forall (fun kv =>
            (In (fst kv) [0x26; 0x2B; 0xDF] /\ normalize_text [fst kv] = snd kv)
            \/ (normalize_text [fst kv] = decomposition (fst kv)
                /\ normalize_text [fst kv] <> snd kv))
         replacements
  /\ normalize_text [0xE4] = [0x61; 0x308]
  /\ normalize_text [0xE4] <> str "ae".
Proof.
  split; [|split; [vm_compute; reflexivity|vm_compute; discriminate]].
  unfold replacements, dict_display. cbn [fold_left dict_set fst snd N.eqb Pos.eqb].
  repeat (constructor;
          [first [ left; split; [cbn; tauto|vm_compute; reflexivity]
                 | right; split; [vm_compute; reflexivity|vm_compute; discriminate] ]|]).
  constructor.
Qed.

Lemma second_pass_without_group (s : text) :
  latin1 s -> remove_patterns (normalize_text s) = normalize_text s ->
  normalize_text (normalize_text s) = normalize_text s.
Proof.
  intros Hs H. rewrite (normalize_text_second_pass s Hs), H.
  destruct (normalize_text_shape s Hs) as [_ [Hkey [Hcol Hstrip]]].
  now rewrite (apply_replacements_fixed _ Hkey), (collapsed_fixed _ Hcol).
Qed.

(** C5, as the code has it: on Latin-1 text a second pass changes nothing
    exactly when the first result has no qualifier group left that the
    patterns remove. *)
Theorem normalize_text_idempotent_iff (s : text) :
  latin1 s ->
  (normalize_text (normalize_text s) = normalize_text s
   <-> remove_patterns (normalize_text s) = normalize_text s).
Proof.
  intros Hs. split; [|now apply second_pass_without_group].
  rewrite (normalize_text_second_pass s Hs).
  destruct (normalize_text_shape s Hs) as [_ [Hkey _]].
  set (t := normalize_text s) in *.
  intros H. apply (proj2 (remove_patterns_length t)).
  apply Nat.le_antisymm; [apply (remove_patterns_length t)|].
  rewrite <- H at 1.
  etransitivity; [apply strip_length|]. etransitivity; [apply collapse_length|].
  rewrite apply_replacements_fixed; [reflexivity|].
  now apply remove_patterns_Forall.
Qed.

Lemma normalize_text_idempotent_iff_witness :
  normalize_text (normalize_text (str "  Caf" ++ [0xE9] ++ str " &  Bar (Live) (2011 Remaster) "))
  = normalize_text (str "  Caf" ++ [0xE9] ++ str " &  Bar (Live) (2011 Remaster) ").
Proof.
  apply (proj2 (normalize_text_idempotent_iff
                  (str "  Caf" ++ [0xE9] ++ str " &  Bar (Live) (2011 Remaster) ")
                  ltac:(repeat constructor))).
  vm_compute. reflexivity.
Defined.

(** C5, as the spec words it, fails: removing the square-bracket group
    puts the pieces of a round-bracket group together, which only a second
    pass removes. *)
Lemma normalize_text_not_idempotent :
  normalize_text (str "(mi[)2000]x)") = str "(mix)"
  /\ normalize_text (normalize_text (str "(mi[)2000]x)")) = []
  /\ normalize_text (normalize_text (str "(mi[)2000]x)"))
     <> normalize_text (str "(mi[)2000]x)").
Proof. repeat split; vm_compute; try reflexivity; discriminate. Qed.

(** In particular a text that opens no group is normalized once and for
    all. *)
Lemma normalize_text_idempotent_without_groups (s : text) :
  latin1 s -> no_opening s -> normalize_text (normalize_text s) = normalize_text s.
Proof.
  intros Hs [H1 H2]. apply (second_pass_without_group s Hs).
  assert (Hno : forall c, (c =? 0x28) = true \/ (c =? 0x5B) = true ->
                          ~ In c s -> ~ In c (normalize_text s)).
  { intros c Hc Hin. rewrite normalize_text_steps.
    apply Forall_not_In, strip_Forall, re_sub_Forall.
    - destruct Hc as [Hc|Hc]; apply N.eqb_eq in Hc; subst c; repeat constructor.
    - apply (replace_all_Forall _ replacements).
      + intros kv Hkv.
        assert (H : forallb (fun kv => forallb (fun x => negb (x =? c)) (snd kv))
                            replacements = true)
          by (destruct Hc as [Hc|Hc]; apply N.eqb_eq in Hc; subst c;
              vm_compute; reflexivity).
        rewrite forallb_forall in H. specialize (H kv Hkv).
        rewrite forallb_forall in H. apply Forall_forall. intros x Hx.
        now apply negb_true_iff, H.
      + apply remove_patterns_Forall, strip_Forall, Forall_not_In.
        destruct Hc as [Hc|Hc]; apply N.eqb_eq in Hc; subst c;
          (apply lower_nfkd_no_char; [vm_compute; reflexivity|assumption|assumption]). }
  rewrite remove_patterns_groups.
  rewrite (remove_groups_no_open 0x28) by (apply Hno; auto).
  apply remove_groups_no_open. apply Hno; auto.
Qed.

Example normalize_text_ampersand :
  normalize_text (str "Simon & Garfunkel") = str "simon and garfunkel"
  /\ normalize_text (str "Stra" ++ [0xDF] ++ str "e  (Radio Edit)") = str "strasse".
Proof. split; vm_compute; reflexivity. Qed.

Local Close Scope N_scope.

(* ================================================================== *)
(** * Facts about binary64 comparison and addition *)

Section FloatOrder.

Local Open Scope Z_scope.

Lemma SFcompare_rank (f g : spec_float) :
  f <> S754_nan -> g <> S754_nan ->
  exists c, SFcompare f g = Some c /\
    match c with
    | Lt => lt3 (rank f) (rank g)
    | Eq => rank f = rank g
    | Gt => lt3 (rank g) (rank f)
    end.
Proof.
  intros Hf Hg.
  destruct f as [sf|sf| |sf mf ef], g as [sg|sg| |sg mg eg]; try congruence;
    try destruct sf; try destruct sg; cbn [SFcompare rank];
    try (eexists; split; [reflexivity|]; cbn; first [lia | reflexivity]).
  all: change (PosDef.Pos.compare_cont Eq mf mg) with (Pos.compare mf mg).
  all: destruct (Z.compare_spec ef eg); [destruct (Pos.compare_spec mf mg)| |];
      (eexists; split; [reflexivity|]); cbn; subst; first [lia | reflexivity].
Qed.


Lemma nan_dec (f : spec_float) : {f = S754_nan} + {f <> S754_nan}.
Proof. destruct f; (left; reflexivity) || (right; discriminate). Qed.

Lemma SFcompare_nan_r (f : spec_float) : SFcompare f S754_nan = None.
Proof. destruct f; reflexivity. Qed.

(** The three comparisons of two values, read off their ranks. *)
Lemma compare_cases (x y : float) :
  ((is_nan x \/ is_nan y)
   /\ (x <? y)%float = false /\ (x <=? y)%float = false /\ (x =? y)%float = false)
  \/ (~ is_nan x /\ ~ is_nan y
      /\ ((lt3 (rk x) (rk y)
           /\ (x <? y)%float = true /\ (x <=? y)%float = true /\ (x =? y)%float = false)
          \/ (rk x = rk y
              /\ (x <? y)%float = false /\ (x <=? y)%float = true /\ (x =? y)%float = true)
          \/ (lt3 (rk y) (rk x)
              /\ (x <? y)%float = false /\ (x <=? y)%float = false /\ (x =? y)%float = false))).
Proof.
  rewrite ltb_spec, leb_spec, eqb_spec. unfold SFltb, SFleb, SFeqb, is_nan, rk.
  destruct (nan_dec (Prim2SF x)) as [Hx|Hx].
  { left. rewrite Hx. cbn. auto. }
  destruct (nan_dec (Prim2SF y)) as [Hy|Hy].
  { left. rewrite Hy, SFcompare_nan_r. auto. }
  right. destruct (SFcompare_rank _ _ Hx Hy) as [c [-> Hc]].
  destruct c; auto 10.
Qed.

Lemma lt3_irrefl p : ~ lt3 p p.
Proof. destruct p as [[a b] c]. cbn. lia. Qed.

Lemma lt3_trans p q r : lt3 p q -> lt3 q r -> lt3 p r.
Proof. destruct p as [[a b] c], q as [[a' b'] c'], r as [[a'' b''] c'']. cbn. lia. Qed.

Lemma lt3_asym p q : lt3 p q -> ~ lt3 q p.
Proof. intros H H'. exact (lt3_irrefl _ (lt3_trans _ _ _ H H')). Qed.

Ltac order3 :=
  repeat match goal with
         | H : _ /\ _ |- _ => destruct H
         | H : ?x = ?y :> (Z * Z * Z)%type |- _ => first [rewrite H in * | rewrite <- H in *]; clear H
         end;
  try congruence;
  try match goal with
      | H : lt3 ?p ?p |- _ => destruct (lt3_irrefl _ H)
      | H : lt3 ?p ?q, H' : lt3 ?q ?p |- _ => destruct (lt3_asym _ _ H H')
      | H : lt3 ?p ?q, H' : lt3 ?q ?r, H'' : lt3 ?r ?p |- _ =>
          destruct (lt3_asym _ _ (lt3_trans _ _ _ H H') H'')
      end.

Lemma leb_not_nan (x y : float) : (x <=? y)%float = true -> ~ is_nan x /\ ~ is_nan y.
Proof.
  destruct (compare_cases x y) as [[_ [_ [H _]]]|[Hx [Hy _]]]; [congruence|auto].
Qed.

Lemma leb_trans (x y z : float) :
  (x <=? y)%float = true -> (y <=? z)%float = true -> (x <=? z)%float = true.
Proof.
  intros Hxy Hyz.
  destruct (compare_cases x y) as [?|[Hx [Hy [?|[?|?]]]]]; order3;
  destruct (compare_cases y z) as [?|[_ [Hz [?|[?|?]]]]]; order3;
  destruct (compare_cases x z) as [[[?|?] ?]|[_ [_ [?|[?|?]]]]]; order3;
  try contradiction.
Qed.

Lemma ltb_false_leb (x y : float) :
  ~ is_nan x -> ~ is_nan y -> (x <? y)%float = false -> (y <=? x)%float = true.
Proof.
  intros Hx Hy H.
  destruct (compare_cases x y) as [[[?|?] ?]|[_ [_ [?|[?|?]]]]]; order3; try contradiction;
  destruct (compare_cases y x) as [[[?|?] ?]|[_ [_ [?|[?|?]]]]]; order3; try contradiction.
Qed.


(** Negation mirrors the order. *)
Lemma rk_opp (x : float) : rk (- x) = neg3 (rk x).
Proof.
  unfold rk. rewrite opp_spec.
  destruct (Prim2SF x) as [[]|[]| |[] m e]; cbn; try reflexivity.
  now rewrite Z.opp_involutive.
Qed.

Lemma is_nan_opp (x : float) : is_nan (- x) <-> is_nan x.
Proof.
  unfold is_nan. rewrite opp_spec.
  destruct (Prim2SF x); cbn; split; congruence.
Qed.

Lemma lt3_neg3 p q : lt3 (neg3 p) (neg3 q) <-> lt3 q p.
Proof. destruct p as [[a b] c], q as [[a' b'] c']. cbn. lia. Qed.

Lemma neg3_inj p q : neg3 p = neg3 q -> p = q.
Proof.
  destruct p as [[a b] c], q as [[a' b'] c']. cbn. intros H.
  injection H as H1 H2 H3. f_equal; [f_equal|]; lia.
Qed.

Lemma lt3_total p q : lt3 p q \/ p = q \/ lt3 q p.
Proof.
  destruct p as [[a b] c], q as [[a' b'] c']. cbn.
  destruct (Z.lt_trichotomy a a') as [?|[->|?]]; [lia| |lia].
  destruct (Z.lt_trichotomy b b') as [?|[->|?]]; [lia| |lia].
  destruct (Z.lt_trichotomy c c') as [?|[->|?]]; [lia| |lia].
  auto.
Qed.

(** ** Sums that are not NaN *)

Section Rounding.

Variables prec emax : Z.

Lemma iter_pos_invariant {A} (P : A -> Prop) (f : A -> A) :
  (forall x, P x -> P (f x)) -> forall n x, P x -> P (iter_pos f n x).
Proof.
  intros Hf. induction n as [n IH|n IH|]; intros x Hx; cbn; auto.
Qed.

Lemma shr_1_nonneg mrs : 0 <= shr_m mrs -> 0 <= shr_m (shr_1 mrs).
Proof.
  destruct mrs as [m r s]. cbn [shr_m]. intros H.
  destruct m as [|[p|p|]|p]; cbn; lia.
Qed.

Lemma shr_fexp_nonneg m e l :
  0 <= m -> 0 <= shr_m (fst (shr_fexp prec emax m e l)).
Proof.
  intros H. unfold shr_fexp, shr.
  assert (H0 : 0 <= shr_m (shr_record_of_loc m l)) by (destruct l as [|[]]; exact H).
  destruct (fexp prec emax (Zdigits2 m + e) - e); cbn [fst]; auto.
  apply iter_pos_invariant; auto using shr_1_nonneg.
Qed.

Lemma round_nearest_even_nonneg m l : 0 <= m -> 0 <= round_nearest_even m l.
Proof.
  intros H. destruct l as [|[]]; cbn; try lia.
  destruct (Z.even m); lia.
Qed.

Lemma binary_round_aux_not_nan sx mx ex lx :
  0 <= mx -> binary_round_aux prec emax sx mx ex lx <> S754_nan.
Proof.
  intros H. unfold binary_round_aux.
  pose proof (shr_fexp_nonneg mx ex lx H) as H1.
  destruct (shr_fexp prec emax mx ex lx) as [mrs' e']. cbn [fst] in H1.
  pose proof (shr_fexp_nonneg _ e' loc_Exact
                (round_nearest_even_nonneg _ (loc_of_shr_record mrs') H1)) as H2.
  destruct (shr_fexp prec emax _ e' loc_Exact) as [mrs'' e'']. cbn [fst] in H2.
  destruct (shr_m mrs''); try lia; try discriminate.
  destruct (e'' <=? emax - prec); discriminate.
Qed.

Lemma binary_normalize_not_nan m e szero :
  binary_normalize prec emax m e szero <> S754_nan.
Proof.
  unfold binary_normalize, binary_round.
  destruct m; try discriminate;
    destruct (shl_align _ _ _); apply binary_round_aux_not_nan; lia.
Qed.

Lemma SFadd_not_nan x y :
  x <> S754_nan ->
  (exists s, y = S754_zero s) \/ (exists s m e, y = S754_finite s m e) ->
  SFadd prec emax x y <> S754_nan.
Proof.
  intros Hx [[s ->]|[s [m [e ->]]]];
    destruct x as [[]|[]| |[] mx ex]; try congruence; destruct s;
    cbn -[binary_normalize]; try discriminate; apply binary_normalize_not_nan.
Qed.

End Rounding.

Lemma add_not_nan (x y : float) :
  ~ is_nan x ->
  (exists s, Prim2SF y = S754_zero s) \/ (exists s m e, Prim2SF y = S754_finite s m e) ->
  ~ is_nan (x + y).
Proof.
  unfold is_nan. intros Hx Hy. rewrite add_spec. now apply SFadd_not_nan.
Qed.


End FloatOrder.

(* ================================================================== *)
(** * The ranking is a stable sort *)

Section Ranking.

Local Open Scope Z_scope.

Lemma key_lt_rank (x y : candidate) :
  scored x -> scored y ->
  (key_lt (sort_key x) (sort_key y) = true <-> klt (krank x) (krank y)).
Proof.
  unfold scored, sort_key, key_lt, krank, klt. intros Hx Hy.
  rewrite <- is_nan_opp in Hx, Hy.
  destruct (compare_cases (- final_score x) (- final_score y))
    as [[[?|?] _]|[_ [_ [[Hr [-> [_ ->]]]|[[Hr [-> [_ ->]]]|[Hr [-> [_ ->]]]]]]]];
    try contradiction;
    destruct (is_live x), (is_live y), (is_flac x), (is_flac y); cbn;
    split; intros H; try discriminate; try lia; try reflexivity;
    repeat match goal with
           | H : _ \/ _ |- _ => destruct H
           | H : _ /\ _ |- _ => destruct H
           end; try lia; try discriminate;
    try (right; split; [reflexivity|right; split; [reflexivity|assumption]]).
  - rewrite Hr in *. now apply lt3_irrefl in H1.
  - rewrite Hr in *. now apply lt3_irrefl in H1.
  - rewrite Hr in *. now apply lt3_irrefl in H1.
  - rewrite Hr in *. now apply lt3_irrefl in H1.
  - now apply lt3_asym in H1.
  - now apply lt3_asym in H1.
  - now apply lt3_asym in H1.
  - now apply lt3_asym in H1.
Qed.


Lemma klt_irrefl p : ~ klt p p.
Proof.
  destruct p as [[a b] r]. cbn. intros [?|[_ [?|[_ H]]]]; try lia.
  exact (lt3_irrefl _ H).
Qed.

Lemma klt_trans p q r : klt p q -> klt q r -> klt p r.
Proof.
  destruct p as [[a b] x], q as [[a' b'] x'], r as [[a'' b''] x'']. cbn.
  intros [?|[? [?|[? H1]]]] [?|[? [?|[? H2]]]]; try lia.
  right. split; [lia|]. right. split; [lia|]. exact (lt3_trans _ _ _ H1 H2).
Qed.

Lemma klt_total p q : klt p q \/ p = q \/ klt q p.
Proof.
  destruct p as [[a b] x], q as [[a' b'] x']. cbn.
  destruct (Z.lt_trichotomy a a') as [?|[->|?]]; [lia| |lia].
  destruct (Z.lt_trichotomy b b') as [?|[->|?]]; [lia| |lia].
  destruct (lt3_total x x') as [?|[->|?]]; auto 10.
Qed.

Lemma before_rank (x y : candidate) :
  scored x -> scored y -> (before x y <-> ~ klt (krank y) (krank x)).
Proof.
  intros Hx Hy. unfold before. rewrite <- (key_lt_rank y x Hy Hx).
  now destruct (key_lt (sort_key y) (sort_key x)).
Qed.

Lemma key_lt_before (x y : candidate) :
  scored x -> scored y -> key_lt (sort_key x) (sort_key y) = true -> before x y.
Proof.
  intros Hx Hy H. apply (before_rank x y Hx Hy). apply (key_lt_rank x y Hx Hy) in H.
  intros H'. exact (klt_irrefl _ (klt_trans _ _ _ H H')).
Qed.

Lemma before_trans (x y z : candidate) :
  scored x -> scored y -> scored z -> before x y -> before y z -> before x z.
Proof.
  intros Hx Hy Hz Hxy Hyz.
  apply (before_rank _ _ Hx Hy) in Hxy. apply (before_rank _ _ Hy Hz) in Hyz.
  apply (before_rank _ _ Hx Hz). intros H.
  destruct (klt_total (krank x) (krank y)) as [H'|[H'|H']].
  - apply Hyz. exact (klt_trans _ _ _ H H').
  - apply Hyz. now rewrite <- H'.
  - contradiction.
Qed.

(** What [before] says about two candidates. *)
Lemma before_reading (x y : candidate) :
  scored x -> scored y -> before x y ->
  (is_live x = true -> is_live y = true)
  /\ (is_live x = is_live y -> is_flac y = true -> is_flac x = true)
  /\ (is_live x = is_live y -> is_flac x = is_flac y ->
      (final_score y <=? final_score x)%float = true).
Proof.
  intros Hx Hy H. apply (before_rank _ _ Hx Hy) in H. unfold klt, krank in H.
  split; [|split].
  - intros Hl. destruct (is_live y); [reflexivity|]. exfalso. apply H.
    rewrite Hl. cbn. lia.
  - intros Hl Hf. destruct (is_flac x); [reflexivity|]. exfalso. apply H.
    rewrite Hl, Hf. cbn. lia.
  - intros Hl Hf.
    assert (Hr : ~ lt3 (rk (final_score x)) (rk (final_score y))).
    { intros Hlt. apply H. rewrite Hl, Hf. right. split; [reflexivity|].
      right. split; [reflexivity|]. rewrite !rk_opp. now apply lt3_neg3. }
    destruct (compare_cases (final_score y) (final_score x))
      as [[[?|?] _]|[_ [_ [[_ [_ [-> _]]]|[[_ [_ [-> _]]]|[Hgt _]]]]]];
      try contradiction; reflexivity.
Qed.

End Ranking.

Lemma insert_sorted_perm (x : candidate) (l : list candidate) :
  Permutation (x :: l) (insert_sorted x l).
Proof.
  induction l as [|y l IH]; cbn [insert_sorted]; [reflexivity|].
  destruct (key_lt (sort_key y) (sort_key x)); [|reflexivity].
  rewrite perm_swap. now constructor.
Qed.

Lemma sort_matches_perm (l : list candidate) : Permutation l (sort_matches l).
Proof.
  induction l as [|x l IH]; cbn [sort_matches fold_right]; [constructor|].
  rewrite <- insert_sorted_perm. now constructor.
Qed.

Lemma insert_sorted_ranked (x : candidate) (l : list candidate) :
  scored x -> Forall scored l ->
  StronglySorted before l -> StronglySorted before (insert_sorted x l).
Proof.
  intros Hx Hl Hs. induction Hs as [|y l Hs IH Hy]; cbn [insert_sorted].
  - repeat constructor.
  - inversion Hl as [|? ? Hys Hl']; subst.
    destruct (key_lt (sort_key y) (sort_key x)) eqn:E.
    + constructor; [now apply IH|].
      apply (Permutation_Forall (insert_sorted_perm x l)). constructor; [|exact Hy].
      now apply key_lt_before.
    + constructor; [now constructor|]. constructor; [exact E|].
      rewrite Forall_forall in *. intros z Hz.
      apply (before_trans x y z); auto.
Qed.

Lemma sort_matches_ranked (l : list candidate) :
  Forall scored l -> StronglySorted before (sort_matches l).
Proof.
  induction 1 as [|x l Hx Hl IH]; cbn [sort_matches fold_right]; [constructor|].
  apply insert_sorted_ranked; auto.
  now apply (Permutation_Forall (sort_matches_perm l)).
Qed.

Lemma key_eqb_not_lt (kx ky k : bool * bool * float) :
  key_eqb kx k = true -> key_eqb ky k = true -> key_lt ky kx = false.
Proof.
  destruct kx as [[lx fx] sx], ky as [[ly fy] sy], k as [[l f] s]. cbn.
  intros Hx Hy.
  apply andb_prop in Hx as [Hx Hsx]. apply andb_prop in Hx as [Hlx Hfx].
  apply andb_prop in Hy as [Hy Hsy]. apply andb_prop in Hy as [Hly Hfy].
  apply Bool.eqb_prop in Hlx, Hfx, Hly, Hfy. subst.
  rewrite !Bool.eqb_reflx. cbn.
  enough (H : (sy =? sx)%float = true) by now rewrite H.
  destruct (compare_cases sx s)
    as [[_ [_ [_ ?]]]|[Hnx [Hns [[_ [_ [_ ?]]]|[[Hr1 _]|[_ [_ [_ ?]]]]]]]]; try congruence.
  destruct (compare_cases sy s)
    as [[_ [_ [_ ?]]]|[Hny [_ [[_ [_ [_ ?]]]|[[Hr2 _]|[_ [_ [_ ?]]]]]]]]; try congruence.
  destruct (compare_cases sy sx)
    as [[[?|?] _]|[_ [_ [[Hlt _]|[[_ [_ [_ ?]]]|[Hlt _]]]]]];
    try contradiction; try assumption;
    rewrite Hr1, Hr2 in Hlt; now apply lt3_irrefl in Hlt.
Qed.

(** Candidates with equal keys stay in the order in which they came. *)
Lemma insert_sorted_stable (k : bool * bool * float) (x : candidate) (l : list candidate) :
  filter (fun c => key_eqb (sort_key c) k) (insert_sorted x l)
  = filter (fun c => key_eqb (sort_key c) k) (x :: l).
Proof.
  induction l as [|y l IH]; [reflexivity|]. cbn [insert_sorted].
  destruct (key_lt (sort_key y) (sort_key x)) eqn:E; [|reflexivity].
  cbn [filter] in *. rewrite IH.
  destruct (key_eqb (sort_key x) k) eqn:Ex, (key_eqb (sort_key y) k) eqn:Ey;
    try reflexivity.
  rewrite (key_eqb_not_lt _ _ _ Ex Ey) in E. discriminate.
Qed.

Lemma sort_matches_stable (k : bool * bool * float) (l : list candidate) :
  filter (fun c => key_eqb (sort_key c) k) (sort_matches l)
  = filter (fun c => key_eqb (sort_key c) k) l.
Proof.
  induction l as [|x l IH]; [reflexivity|]. cbn [sort_matches fold_right].
  fold (sort_matches l). rewrite insert_sorted_stable. cbn [filter]. now rewrite IH.
Qed.

Lemma StronglySorted_nth_error {A} (R : A -> A -> Prop) (l : list A) :
  StronglySorted R l ->
  forall i j a b, (i < j)%nat -> nth_error l i = Some a -> nth_error l j = Some b -> R a b.
Proof.
  induction 1 as [|x l Hs IH Hx]; intros i j a b Hij Ha Hb.
  - destruct i; discriminate.
  - destruct j as [|j]; [lia|]. cbn in Hb. destruct i as [|i]; cbn in Ha.
    + injection Ha as <-. rewrite Forall_forall in Hx. apply Hx.
      eapply nth_error_In; eauto.
    + apply (IH i j); auto. lia.
Qed.

Local Open Scope float_scope.

(* ================================================================== *)
(** * Facts about the scan *)

Section ScanFacts.

Variables (search_artist search_title : text) (th : thresholds).

Lemma scan_files_In (ad : text) (asim : float) (ap : text) (m : candidate) :
  forall files acc,
  In m (scan_files search_artist search_title th ad asim ap files acc)
  <-> In m acc \/ file_hit search_artist search_title th ad asim ap files m.
Proof.
  unfold file_hit. induction files as [|[file n] files IH]; intros acc; cbn [scan_files].
  - split; [auto|]. intros [H|[f [n [[] _]]]]. exact H.
  - rewrite IH. split.
    + intros [H|[f [n' [Hin [Ha Hs]]]]].
      * destruct (is_audio file) eqn:Ea; [|auto].
        destruct (score_file search_artist search_title th ad asim ap file) as [m'|] eqn:Es; [|auto].
        apply in_app_or in H as [H|[<-|[]]]; [auto|].
        right. exists file, n. cbn. auto.
      * right. exists f, n'. cbn. auto.
    + intros [H|[f [n' [[Heq|Hin] [Ha Hs]]]]].
      * left. destruct (is_audio file); [|exact H].
        destruct (score_file search_artist search_title th ad asim ap file); [|exact H]. apply in_or_app. auto.
      * injection Heq as <- <-. left. rewrite Ha, Hs. apply in_or_app. cbn. auto.
      * right. exists f, n'. auto.
Qed.

Lemma scan_albums_In (ad : text) (asim : float) (ap : text) (m : candidate) :
  forall albums acc D,
  scan_albums search_artist search_title th ad asim ap albums acc = inr D ->
  (In m D <-> In m acc \/ album_hit search_artist search_title th ad asim ap albums m).
Proof.
  unfold album_hit. induction albums as [|[album_dir n] albums IH]; intros acc D; cbn [scan_albums].
  - intros H. injection H as <-. split; [auto|]. intros [H|[a [f [[] _]]]]. exact H.
  - destruct n as [|[files|]]; cbn [isdir negb listdir bind raise ret].
    + intros H. rewrite (IH _ _ H). split; intros [Hin|[a [f [Hin Hf]]]]; auto.
      * right. exists a, f. cbn. auto.
      * destruct Hin as [Heq|Hin]; [discriminate|]. right. exists a, f. auto.
    + intros H. rewrite (IH _ _ H), scan_files_In. split.
      * intros [[Hin|Hf]|[a [f [Hin Hf]]]]; auto.
        -- right. exists album_dir, files. cbn. auto.
        -- right. exists a, f. cbn. auto.
      * intros [Hin|[a [f [[Heq|Hin] Hf]]]]; auto.
        -- injection Heq as <- <-. auto.
        -- right. exists a, f. auto.
    + discriminate.
Qed.

Lemma scan_artists_In (p : text) (m : candidate) :
  forall artists acc D,
  scan_artists search_artist search_title th p artists acc = inr D ->
  (In m D <-> In m acc \/ artist_hit search_artist search_title th p artists m).
Proof.
  unfold artist_hit. induction artists as [|[artist_dir n] artists IH]; intros acc D; cbn [scan_artists].
  - intros H. injection H as <-. split; [auto|]. intros [H|[a [f [[] _]]]]. exact H.
  - destruct n as [|[albums|]]; cbn [isdir negb].
    + intros H. rewrite (IH _ _ H). split; intros [Hin|[a [f [Hin Hf]]]]; auto.
      * right. exists a, f. cbn. auto.
      * destruct Hin as [Heq|Hin]; [discriminate|]. right. exists a, f. auto.
    + destruct (similarity search_artist (normalize_text artist_dir) <? min_artist_sim th) eqn:Ep.
      * intros H. rewrite (IH _ _ H). split; intros [Hin|[a [f [Hin Hf]]]]; auto.
        -- right. exists a, f. cbn. auto.
        -- destruct Hin as [Heq|Hin]; [|right; exists a, f; auto].
           injection Heq as <- <-. destruct Hf as [Hf _]. congruence.
      * cbn [listdir bind ret].
        destruct (scan_albums search_artist search_title th artist_dir _ _ albums acc) as [e|acc'] eqn:Ea; [discriminate|].
        cbn [bind]. intros H. rewrite (IH _ _ H), (scan_albums_In _ _ _ m _ _ _ Ea). split.
        -- intros [[Hin|Hf]|[a [f [Hin Hf]]]]; auto.
           ++ right. exists artist_dir, albums. cbn. auto.
           ++ right. exists a, f. cbn. auto.
        -- intros [Hin|[a [f [[Heq|Hin] [Hp Hf]]]]]; auto.
           ++ injection Heq as <- <-. auto.
           ++ right. exists a, f. auto.
    + destruct (similarity search_artist (normalize_text artist_dir) <? min_artist_sim th) eqn:Ep.
      * intros H. rewrite (IH _ _ H). split; intros [Hin|[a [f [Hin Hf]]]]; auto.
        -- right. exists a, f. cbn. auto.
        -- destruct Hin as [Heq|Hin]; [discriminate|]. right. exists a, f. auto.
      * discriminate.
Qed.

(** What [score_file] computes. *)
Lemma score_file_spec (ad : text) (asim : float) (ap file : text) (m : candidate) :
  score_file search_artist search_title th ad asim ap file = Some m
  <-> (let '(file_artist, file_title) := parse_filename ad file in
       let title_sim := similarity search_title (normalize_text file_title) in
       let combined_sim :=
         combined asim (similarity search_artist (normalize_text file_artist)) title_sim in
       ((min_similarity th <=? combined_sim) = true
        /\ (min_artist_sim th <=? asim) = true
        /\ (min_title_sim th <=? title_sim) = true)
       /\ m = {| path := os_path_join ap file; artist := file_artist; title := file_title;
                 final_score := combined_sim + flac_bonus file; artist_sim := asim;
                 title_sim := title_sim; is_live := is_live_version file;
                 filename := file; is_flac := endswith (lower file) (str ".flac") |}).
Proof.
  unfold score_file. destruct (parse_filename ad file) as [fa ft]. cbv zeta.
  destruct (min_similarity th <=? _) eqn:E1; cbn [andb].
  - destruct (min_artist_sim th <=? asim) eqn:E2; cbn [andb].
    + destruct (min_title_sim th <=? _) eqn:E3.
      * split; [intros H; injection H as <-; auto|intros [_ ->]; reflexivity].
      * split; [discriminate|intros [[_ [_ H]] _]; discriminate].
    + split; [discriminate|intros [[_ [H _]] _]; discriminate].
  - split; [discriminate|intros [[H _] _]; discriminate].
Qed.

Lemma flac_bonus_finite (file : text) :
  (exists s, Prim2SF (flac_bonus file) = S754_zero s)
  \/ (exists s m e, Prim2SF (flac_bonus file) = S754_finite s m e).
Proof.
  unfold flac_bonus. destruct (endswith _ _).
  - right. do 3 eexists. vm_compute. reflexivity.
  - left. eexists. vm_compute. reflexivity.
Qed.

Lemma score_file_scored (ad : text) (asim : float) (ap file : text) (m : candidate) :
  score_file search_artist search_title th ad asim ap file = Some m -> scored m.
Proof.
  intros H. apply score_file_spec in H. destruct (parse_filename ad file) as [fa ft].
  cbv zeta in H. destruct H as [[H _] ->]. unfold scored. cbn [final_score].
  apply add_not_nan; [|apply flac_bonus_finite].
  exact (proj2 (leb_not_nan _ _ H)).
Qed.

End ScanFacts.

Lemma scan_In (a t : text) (lib : library) (p : text) (th : thresholds)
    (D : list candidate) (m : candidate) :
  scan a t lib p th = inr D ->
  (In m D <-> exists artists,
                lib = Some (Dir (Some artists))
                /\ artist_hit (normalize_text a) (normalize_text t) th p artists m).
Proof.
  unfold scan. destruct lib as [[|[artists|]]|]; cbn [listdir bind raise ret]; try discriminate.
  - intros H. rewrite (scan_artists_In _ _ _ _ _ _ _ _ H). split.
    + intros [[]|H']. exists artists. auto.
    + intros [x [Heq H']]. injection Heq as <-. auto.
  - intros H. injection H as <-. split; [intros []|intros [x [Heq _]]; discriminate].
Qed.

Lemma scan_scored (a t : text) (lib : library) (p : text) (th : thresholds)
    (D : list candidate) :
  scan a t lib p th = inr D -> Forall scored D.
Proof.
  intros H. apply Forall_forall. intros m Hm.
  apply (scan_In _ _ _ _ _ _ m H) in Hm.
  destruct Hm as [artists [_ [ad [albums [_ [_ [album [files [_ [f [n [_ [_ Hs]]]]]]]]]]]]].
  exact (score_file_scored _ _ _ _ _ _ _ _ Hs).
Qed.

Lemma find_best_matches_scan (a t : text) (lib : library) (p : text) (th : thresholds)
    (L : list candidate) :
  find_best_matches a t lib p th = inr L
  <-> exists D, scan a t lib p th = inr D /\ L = sort_matches D.
Proof.
  unfold find_best_matches. destruct (scan a t lib p th) as [e|D]; cbn [bind ret].
  - split; [discriminate|intros [D [H _]]; discriminate].
  - split; [intros H; injection H as <-; eauto|].
    intros [D' [H ->]]. injection H as ->. reflexivity.
Qed.

(** ** Directories that may not be listed *)

Lemma scan_albums_readable (sa st : text) (th : thresholds) (ad : text) (asim : float)
    (ap : text) : forall albums acc D,
  scan_albums sa st th ad asim ap albums acc = inr D ->
  forall album_dir, ~ In (album_dir, Dir None) albums.
Proof.
  induction albums as [|[album n] albums IH]; intros acc D H album_dir; [intros []|].
  cbn [scan_albums] in H. destruct n as [|[files|]]; cbn [isdir negb listdir bind raise ret] in H.
  - intros [Heq|Hin]; [discriminate|]. exact (IH _ _ H album_dir Hin).
  - intros [Heq|Hin]; [discriminate|]. exact (IH _ _ H album_dir Hin).
  - discriminate.
Qed.

Lemma scan_artists_readable (sa st : text) (th : thresholds) (p : text) :
  forall artists acc D,
  scan_artists sa st th p artists acc = inr D ->
  forall artist_dir n,
    In (artist_dir, n) artists ->
    (similarity sa (normalize_text artist_dir) <? min_artist_sim th) = false ->
    n <> Dir None
    /\ forall albums, n = Dir (Some albums) ->
                      forall album_dir, ~ In (album_dir, Dir None) albums.
Proof.
  induction artists as [|[ad n0] artists IH]; intros acc D H artist_dir n Hin Hp; [destruct Hin|].
  cbn [scan_artists] in H. destruct Hin as [Heq|Hin].
  - injection Heq as -> ->. destruct n as [|[albums|]]; cbn [isdir negb] in H.
    + split; [discriminate|intros ? ?; discriminate].
    + rewrite Hp in H. cbn [listdir bind ret] in H.
      destruct (scan_albums sa st th artist_dir _ _ albums acc) as [e|acc'] eqn:Ea;
        [discriminate|].
      split; [discriminate|]. intros albums' Heq. injection Heq as <-.
      exact (scan_albums_readable _ _ _ _ _ _ _ _ _ Ea).
    + rewrite Hp in H. discriminate.
  - destruct n0 as [|[albums|]]; cbn [isdir negb] in H.
    + exact (IH _ _ H _ _ Hin Hp).
    + destruct (similarity sa (normalize_text ad) <? min_artist_sim th).
      * exact (IH _ _ H _ _ Hin Hp).
      * cbn [listdir bind ret] in H.
        destruct (scan_albums sa st th ad _ _ albums acc) as [e|acc']; [discriminate|].
        exact (IH _ _ H _ _ Hin Hp).
    + destruct (similarity sa (normalize_text ad) <? min_artist_sim th).
      * exact (IH _ _ H _ _ Hin Hp).
      * discriminate.
Qed.

(** Retrieval returns only where every directory that it lists could be
    listed: the root, each artist folder that the pruning step lets
    through, and each album directory in those. *)
Lemma find_best_matches_reads_every_directory (a t : text) (lib : library) (p : text)
    (th : thresholds) (L : list candidate) :
  find_best_matches a t lib p th = inr L ->
  lib <> Some (Dir None)
  /\ forall artists, lib = Some (Dir (Some artists)) ->
     forall artist_dir n,
       In (artist_dir, n) artists ->
       (similarity (normalize_text a) (normalize_text artist_dir) <? min_artist_sim th)
       = false ->
       n <> Dir None
       /\ forall albums, n = Dir (Some albums) ->
                         forall album_dir, ~ In (album_dir, Dir None) albums.
Proof.
  intros H. apply find_best_matches_scan in H as [D [HD _]]. unfold scan in HD.
  destruct lib as [[|[artists|]]|]; cbn [listdir bind raise ret] in HD; try discriminate.
  - split; [discriminate|]. intros artists' Heq. injection Heq as <-.
    exact (scan_artists_readable _ _ _ _ _ _ _ HD).
  - split; [discriminate|]. intros artists' Heq. discriminate.
Qed.

(** ** Looser thresholds *)

Lemma score_file_looser (sa st : text) (th th' : thresholds)
    (ad : text) (asim : float) (ap file : text) (m : candidate) :
  looser th th' ->
  score_file sa st th' ad asim ap file = Some m ->
  score_file sa st th ad asim ap file = Some m.
Proof.
  intros [H1 [H2 H3]] H. apply score_file_spec in H. apply score_file_spec.
  destruct (parse_filename ad file) as [fa ft]. cbv zeta in *.
  destruct H as [[G1 [G2 G3]] ->]. split; [|reflexivity].
  repeat split; eapply leb_trans; eassumption.
Qed.

Lemma pruning_looser (x m m' : float) :
  (m <=? m') = true -> (x <? m') = false -> (x <? m) = false.
Proof.
  intros Hm Hx. destruct (leb_not_nan _ _ Hm) as [Hnm Hnm'].
  destruct (compare_cases x m) as [[_ [? _]]|[Hnx [_ [[Hlt _]|[[_ [? _]]|[_ [? _]]]]]]];
    try assumption.
  exfalso.
  pose proof (ltb_false_leb x m' Hnx Hnm' Hx) as H1.
  pose proof (leb_trans _ _ _ Hm H1) as H2.
  destruct (compare_cases m x) as [[_ [_ [? _]]]|[_ [_ [[Hlt' _]|[[Heq _]|[_ [_ [? _]]]]]]]];
    try congruence.
  - exact (lt3_asym _ _ Hlt Hlt').
  - rewrite Heq in Hlt. exact (lt3_irrefl _ Hlt).
Qed.

Lemma artist_hit_looser (sa st : text) (th th' : thresholds) (p : text)
    (artists : list (text * node)) (m : candidate) :
  looser th th' -> artist_hit sa st th' p artists m -> artist_hit sa st th p artists m.
Proof.
  intros Hl [ad [albums [Hin [Hp [album [files [Hin' [f [n [Hf [Ha Hs]]]]]]]]]]].
  exists ad, albums. split; [exact Hin|]. split.
  - destruct Hl as [_ [H2 _]]. exact (pruning_looser _ _ _ H2 Hp).
  - exists album, files. split; [exact Hin'|]. exists f, n. repeat split; auto.
    exact (score_file_looser _ _ _ _ _ _ _ _ _ Hl Hs).
Qed.

(** Where both scans come back, the looser one has every candidate of
    the stricter one. *)
Lemma find_best_matches_looser (a t : text) (lib : library) (p : text)
    (th th' : thresholds) (L L' : list candidate) :
  looser th th' ->
  find_best_matches a t lib p th' = inr L' ->
  find_best_matches a t lib p th = inr L ->
  incl L' L.
Proof.
  intros Hl H' H m Hm.
  apply find_best_matches_scan in H' as [D' [HD' ->]].
  apply find_best_matches_scan in H as [D [HD ->]].
  apply (Permutation_in _ (sort_matches_perm D)).
  apply (Permutation_in _ (Permutation_sym (sort_matches_perm D'))) in Hm.
  apply (scan_In _ _ _ _ _ _ m HD).
  apply (scan_In _ _ _ _ _ _ m HD') in Hm as [artists [Hlib Hh]].
  exists artists. split; [exact Hlib|]. exact (artist_hit_looser _ _ _ _ _ _ _ Hl Hh).
Qed.

(* ================================================================== *)
(** * Properties of the candidate retriever *)

(** C2: a directory that may not be listed is not skipped.  The scan of a
    library in which one album of the artist is unreadable raises the
    permission error, although the album listed before it holds the
    track. *)
Theorem unreadable_album_aborts_the_scan :
  find_best_matches (str "Queen") (str "Bohemian Rhapsody")
    library_locked_album music stage1 = inl PermissionError
  /\ search_with_fallback (str "Queen") (str "Bohemian Rhapsody")
       library_locked_album music = inl PermissionError.
Proof. split; vm_compute; reflexivity. Qed.

(** C6: the list that retrieval returns is the list of discovered
    candidates, reordered: studio before live, then FLAC before the other
    formats, then by descending score, ties in the order of discovery. *)
Theorem find_best_matches_ranked (a t : text) (lib : library) (p : text)
    (th : thresholds) (L : list candidate) :
  find_best_matches a t lib p th = inr L ->
  exists D, scan a t lib p th = inr D
            /\ Permutation D L /\ ranked L /\ ties_in_order_of D L.
Proof.
  intros H. apply find_best_matches_scan in H as [D [HD ->]].
  exists D. split; [exact HD|]. split; [apply sort_matches_perm|].
  pose proof (scan_scored _ _ _ _ _ _ HD) as Hsc. split.
  - intros i j ci cj Hij Hi Hj.
    pose proof (StronglySorted_nth_error before _ (sort_matches_ranked D Hsc)
                  i j ci cj Hij Hi Hj) as Hb.
    pose proof (Permutation_Forall (sort_matches_perm D) Hsc) as Hsc'.
    rewrite Forall_forall in Hsc'.
    apply before_reading; auto; apply Hsc'; eapply nth_error_In; eauto.
  - intros k. apply sort_matches_stable.
Qed.

Lemma find_best_matches_ranked_witness :
  exists D, scan (str "Queen") (str "Bohemian Rhapsody") library_two_artists music stage3
            = inr D
            /\ Permutation D example_ranking /\ ranked example_ranking
            /\ ties_in_order_of D example_ranking.
Proof.
  apply (find_best_matches_ranked (str "Queen") (str "Bohemian Rhapsody")
           library_two_artists music stage3 example_ranking).
  vm_compute. reflexivity.
Defined.

(** C8: a file is a candidate exactly when the blend and the two
    similarities clear their floors; the FLAC bonus is added to the score
    of a file that has passed and plays no part in passing.  The candidates
    returned are those of the audio files in the albums of the artist
    folders that the pruning step lets through. *)
Theorem candidate_accepted_iff :
  (forall (sa st : text) (th : thresholds) (ad : text) (asim : float) (ap file : text),
     let file_artist := fst (parse_filename ad file) in
     let file_title := snd (parse_filename ad file) in
     let file_artist_sim := similarity sa (normalize_text file_artist) in
     let file_title_sim := similarity st (normalize_text file_title) in
     let combined_sim := (asim * 0.6 + file_artist_sim * 0.2 + file_title_sim * 0.6) / 1.4 in
     ((exists m, score_file sa st th ad asim ap file = Some m)
      <-> (min_similarity th <=? combined_sim) = true
          /\ (min_artist_sim th <=? asim) = true
          /\ (min_title_sim th <=? file_title_sim) = true)
     /\ (forall m, score_file sa st th ad asim ap file = Some m ->
         is_flac m = endswith (lower file) (str ".flac")
         /\ final_score m = combined_sim + (if is_flac m then 0.05 else 0.0)
         /\ artist_sim m = asim /\ title_sim m = file_title_sim
         /\ path m = os_path_join ap file))
  /\ (forall (a t : text) (lib : library) (p : text) (th : thresholds)
             (L : list candidate) (m : candidate),
        find_best_matches a t lib p th = inr L ->
        (In m L <-> exists artists,
                      lib = Some (Dir (Some artists))
                      /\ artist_hit (normalize_text a) (normalize_text t) th p artists m)).
Proof.
  split.
  - intros sa st th ad asim ap file. cbv zeta.
    pose proof (score_file_spec sa st th ad asim ap file) as Hspec.
    destruct (parse_filename ad file) as [fa ft]. cbn [fst snd]. cbv zeta in Hspec.
    split; [split|].
    + intros [m Hm]. apply Hspec in Hm. exact (proj1 Hm).
    + intros H. eexists. apply Hspec. split; [exact H|reflexivity].
    + intros m Hm. apply Hspec in Hm as [_ ->]. cbn [is_flac final_score artist_sim
        title_sim path]. unfold flac_bonus. repeat split.
  - intros a t lib p th L m H.
    apply find_best_matches_scan in H as [D [HD ->]].
    rewrite <- (scan_In _ _ _ _ _ _ m HD). split; apply Permutation_in.
    + apply Permutation_sym, sort_matches_perm.
    + apply sort_matches_perm.
Qed.

Lemma candidate_accepted_iff_witness :
  exists m, score_file (str "queen") (str "bohemian rhapsody") stage1 (str "Queen") 1
              (str "/music/Queen/A Night at the Opera")
              (str "11 - Bohemian Rhapsody.flac") = Some m.
Proof.
  apply (proj2 (proj1 (proj1 candidate_accepted_iff
                         (str "queen") (str "bohemian rhapsody") stage1 (str "Queen") 1
                         (str "/music/Queen/A Night at the Opera")
                         (str "11 - Bohemian Rhapsody.flac")))).
  vm_compute. repeat split.
Defined.

(** The scenarios of the specification: the studio FLAC file is found at
    the first stage; where only the live recording exists it is found and
    flagged; in a ranking the live recording comes last although its score
    is not the lowest floor. *)
Example queen_scenarios :
  (exists m, search_with_fallback (str "Queen") (str "Bohemian Rhapsody")
               library_two_artists music = inr (Some m)
             /\ path m = bohemian_rhapsody_flac
             /\ is_flac m = true /\ is_live m = false)
  /\ (exists m, search_with_fallback (str "Queen") (str "Bohemian Rhapsody")
                  library_live_only music = inr (Some m)
                /\ path m = str "/music/Queen/Live at Wembley/03 - Bohemian Rhapsody (Live).mp3"
                /\ is_flac m = false /\ is_live m = true)
  /\ map path example_ranking
     = [ bohemian_rhapsody_flac;
         str "/music/Queen/A Night at the Opera/11 - Bohemian Rhapsody.mp3";
         str "/music/Queen/Live at Wembley/03 - Bohemian Rhapsody (Live).mp3" ].
Proof.
  split; [|split].
  - eexists. split; [vm_compute; reflexivity|].
    split; [vm_compute; reflexivity|]. split; vm_compute; reflexivity.
  - eexists. split; [vm_compute; reflexivity|].
    split; [vm_compute; reflexivity|]. split; vm_compute; reflexivity.
  - vm_compute. reflexivity.
Qed.

(** C10: a scan with looser thresholds lists more folders, and a folder
    that may not be listed makes it raise.  The stricter scan prunes the
    folder [Q] and returns the track; the looser scan enters [Q] and
    returns nothing. *)
Theorem looser_scan_loses_the_candidates :
  looser loose stage1
  /\ (exists m L, find_best_matches (str "Queen") (str "Bohemian Rhapsody")
                    library_locked_neighbour music stage1 = inr (m :: L)
                  /\ path m = bohemian_rhapsody_flac)
  /\ find_best_matches (str "Queen") (str "Bohemian Rhapsody")
       library_locked_neighbour music loose = inl PermissionError.
Proof.
  split; [repeat split; vm_compute; reflexivity|]. split.
  - do 2 eexists. split; vm_compute; reflexivity.
  - vm_compute. reflexivity.
Qed.

(* ================================================================== *)
(** * Properties of the staged resolver *)

(** C7: the three stages in their order, the first candidate of the first
    stage that finds any, none when all three find nothing. *)
Theorem search_with_fallback_stages (a t : text) (lib : library) (p : text) :
  let stage := find_best_matches a t lib p in
  (stage1 = {| min_similarity := 0.75; min_artist_sim := 0.7; min_title_sim := 0.7 |}
   /\ stage2 = {| min_similarity := 0.65; min_artist_sim := 0.6; min_title_sim := 0.6 |}
   /\ stage3 = {| min_similarity := 0.5; min_artist_sim := 0.4; min_title_sim := 0.5 |})
  /\ (forall m L, stage stage1 = inr (m :: L) ->
      search_with_fallback a t lib p = inr (Some m))
  /\ (forall m L, stage stage1 = inr [] -> stage stage2 = inr (m :: L) ->
      search_with_fallback a t lib p = inr (Some m))
  /\ (forall m L, stage stage1 = inr [] -> stage stage2 = inr [] ->
      stage stage3 = inr (m :: L) ->
      search_with_fallback a t lib p = inr (Some m))
  /\ (search_with_fallback a t lib p = inr None
      <-> stage stage1 = inr [] /\ stage stage2 = inr [] /\ stage stage3 = inr [])
  /\ (forall m, search_with_fallback a t lib p = inr (Some m) ->
      (exists L, stage stage1 = inr (m :: L))
      \/ (stage stage1 = inr [] /\ exists L, stage stage2 = inr (m :: L))
      \/ (stage stage1 = inr [] /\ stage stage2 = inr []
          /\ exists L, stage stage3 = inr (m :: L))).
Proof.
  cbv zeta. unfold search_with_fallback.
  split; [repeat split|].
  destruct (find_best_matches a t lib p stage1) as [e1|[|m1 L1]],
           (find_best_matches a t lib p stage2) as [e2|[|m2 L2]],
           (find_best_matches a t lib p stage3) as [e3|[|m3 L3]]; cbn [bind ret].
  all: unfold ret in *; repeat split; intros; try discriminate; try congruence;
    repeat match goal with
           | H : _ /\ _ |- _ => destruct H
           | H : inr _ = inr _ |- _ => injection H as H; subst
           | H : Some _ = Some _ |- _ => injection H as H; subst
           end; try discriminate; try congruence; eauto 10.
Qed.

Lemma search_with_fallback_stages_witness :
  exists m, search_with_fallback (str "Queen") (str "Bohemian Rhapsody")
              library_two_artists music = inr (Some m)
            /\ path m = bohemian_rhapsody_flac.
Proof.
  eexists. split.
  - eapply (proj1 (proj2 (search_with_fallback_stages (str "Queen")
                            (str "Bohemian Rhapsody") library_two_artists music))).
    vm_compute. reflexivity.
  - vm_compute. reflexivity.
Defined.

Local Close Scope float_scope.

(* ================================================================== *)
(** * Properties of the interactive disambiguator *)

Section Selection.

Local Open Scope Z_scope.

Variable matches : list candidate.

Lemma select_loop_skip (line : text) (input : stdin) :
  is_skip line -> select_loop matches (line :: input) = inr (None, input).
Proof.
  unfold is_skip. intros H. cbn [select_loop]. rewrite H. reflexivity.
Qed.

Lemma text_eqb_neq (a b : text) : a <> b -> text_eqb a b = false.
Proof.
  intros H. destruct (text_eqb a b) eqn:E; [|reflexivity].
  apply text_eqb_eq in E. contradiction.
Qed.

Lemma select_loop_rejects (line : text) (input : stdin) :
  ~ is_skip line ->
  parse_int (lower (strip line)) = None
  \/ (exists k, parse_int (lower (strip line)) = Some k
                /\ (k < 1 \/ Z.min (Z.of_nat (List.length matches)) 10 < k)) ->
  select_loop matches (line :: input) = select_loop matches input.
Proof.
  unfold is_skip. intros Hs H. cbn [select_loop]. rewrite (text_eqb_neq _ _ Hs).
  destruct H as [->|[k [-> Hk]]]; [reflexivity|].
  destruct (Z.leb_spec 1 k); [|reflexivity].
  destruct (Z.leb_spec k (Z.min (Z.of_nat (List.length matches)) 10)); [lia|reflexivity].
Qed.

Lemma select_loop_selects (line : text) (input : stdin) (k : Z) :
  ~ is_skip line -> parse_int (lower (strip line)) = Some k ->
  1 <= k <= Z.min (Z.of_nat (List.length matches)) 10 ->
  exists m, nth_error matches (Z.to_nat (k - 1)) = Some m
            /\ select_loop matches (line :: input) = inr (Some m, input).
Proof.
  unfold is_skip. intros Hs Hp Hk. cbn [select_loop].
  rewrite (text_eqb_neq _ _ Hs), Hp.
  destruct (Z.leb_spec 1 k); [|lia].
  destruct (Z.leb_spec k (Z.min (Z.of_nat (List.length matches)) 10)); [|lia].
  cbn [andb]. unfold list_index.
  destruct (Z.ltb_spec (k - 1) 0); [lia|].
  destruct (Z.ltb_spec (k - 1) 0); [lia|].
  destruct (nth_error matches (Z.to_nat (k - 1))) as [m|] eqn:E.
  - exists m. split; reflexivity.
  - apply nth_error_None in E. lia.
Qed.

Lemma select_loop_none (input input' : stdin) :
  select_loop matches input = inr (None, input') ->
  exists rejected line,
    input = rejected ++ line :: input' /\ is_skip line
    /\ Forall (fun l => ~ is_skip l) rejected.
Proof.
  unfold is_skip. induction input as [|line input IH]; [discriminate|].
  cbn [select_loop]. destruct (text_eqb (lower (strip line)) (str "s")) eqn:Es.
  - intros H. injection H as <-. apply text_eqb_eq in Es.
    exists [], line. auto.
  - assert (Hn : lower (strip line) <> str "s")
      by (intros H; apply text_eqb_eq in H; congruence).
    assert (Hrec : select_loop matches input = inr (None, input') ->
                   exists rejected line0,
                     line :: input = rejected ++ line0 :: input'
                     /\ lower (strip line0) = str "s"
                     /\ Forall (fun l => lower (strip l) <> str "s") rejected).
    { intros H. destruct (IH H) as [rej [l0 [-> [Hl0 Hrej]]]].
      exists (line :: rej), l0. auto. }
    destruct (parse_int (lower (strip line))) as [k|]; [|exact Hrec].
    destruct ((1 <=? k) && (k <=? Z.min (Z.of_nat (List.length matches)) 10));
      [|exact Hrec].
    destruct (list_index matches (k - 1)); discriminate.
Qed.

End Selection.

(** C9: with no candidate at the loose thresholds the disambiguator
    returns none and reads no input; otherwise a reply that is neither the
    skip sign nor a number from 1 to min(10, N) is read and the next one is
    asked for, the skip sign returns none, a number in range returns the
    candidate at that position, and none is returned on the skip sign
    only.  The replies are lines of Latin-1 text of 4300 characters at
    most. *)
Theorem interactive_search_replies (a t : text) (lib : library) (p : text)
    (matches : list candidate) :
  find_best_matches a t lib p loose = inr matches ->
  let n := Z.min (Z.of_nat (List.length matches)) 10 in
  loose = {| min_similarity := 0.3; min_artist_sim := 0.2; min_title_sim := 0.3 |}
  /\ (matches = [] ->
      forall input, interactive_search a t lib p input = inr (None, input))
  /\ (matches <> [] ->
      forall line input,
        plain_line line ->
        (is_skip line -> interactive_search a t lib p (line :: input) = inr (None, input))
        /\ (~ is_skip line ->
            parse_int (lower (strip line)) = None
            \/ (exists k, parse_int (lower (strip line)) = Some k /\ (k < 1 \/ n < k))%Z ->
            interactive_search a t lib p (line :: input)
            = interactive_search a t lib p input)
        /\ (forall k, ~ is_skip line -> parse_int (lower (strip line)) = Some k ->
            (1 <= k <= n)%Z ->
            exists m, nth_error matches (Z.to_nat (k - 1)) = Some m
                      /\ interactive_search a t lib p (line :: input)
                         = inr (Some m, input)))
  /\ (matches <> [] ->
      forall input input',
        Forall plain_line input ->
        interactive_search a t lib p input = inr (None, input') ->
        exists rejected line,
          input = rejected ++ line :: input' /\ is_skip line
          /\ Forall (fun l => ~ is_skip l) rejected).
Proof.
  intros Hm n. unfold interactive_search. rewrite Hm. cbn [bind].
  assert (Hsel : matches <> [] -> forall input,
            match matches with
            | [] => ret (None, input)
            | _ :: _ => select_loop matches input
            end = select_loop matches input)
    by (destruct matches; [congruence|reflexivity]).
  split; [reflexivity|]. split; [intros ->; reflexivity|].
  split; intros Hne.
  - intros line input _. rewrite !(Hsel Hne). split; [|split].
    + apply select_loop_skip.
    + apply select_loop_rejects.
    + intros k. apply select_loop_selects.
  - intros input input' _. rewrite (Hsel Hne). apply select_loop_none.
Qed.

Lemma interactive_search_replies_witness :
  exists m, interactive_search (str "Q") (str "Bohemian Rhapsody") library_two_artists music
              [str "x"; str "7"; str " 2 "; str "1"]
            = inr (Some m, [str "1"])
            /\ path m = str "/music/Queen/A Night at the Opera/11 - Bohemian Rhapsody.mp3".
Proof.
  pose (L := match find_best_matches (str "Q") (str "Bohemian Rhapsody")
                     library_two_artists music loose with
             | inr L => L
             | inl _ => []
             end).
  assert (HL : find_best_matches (str "Q") (str "Bohemian Rhapsody")
                 library_two_artists music loose = inr L) by (vm_compute; reflexivity).
  assert (Hne : L <> []) by (vm_compute; discriminate).
  destruct (interactive_search_replies _ _ _ _ L HL) as [_ [_ [Hreply _]]].
  assert (Hx : plain_line (str "x")) by (split; [repeat constructor|cbn; lia]).
  assert (H7 : plain_line (str "7")) by (split; [repeat constructor|cbn; lia]).
  assert (H2 : plain_line (str " 2 ")) by (split; [repeat constructor|cbn; lia]).
  destruct (proj2 (proj2 (Hreply Hne (str " 2 ") [str "1"] H2)) 2%Z)
    as [m [Hnth Hsel]].
  - vm_compute. discriminate.
  - vm_compute. reflexivity.
  - vm_compute. split; discriminate.
  - exists m. split.
    + rewrite (proj1 (proj2 (Hreply Hne (str "x") _ Hx)));
        [|vm_compute; discriminate|left; vm_compute; reflexivity].
      rewrite (proj1 (proj2 (Hreply Hne (str "7") _ H7)));
        [|vm_compute; discriminate
         |right; exists 7%Z; split; [vm_compute; reflexivity|right; vm_compute; reflexivity]].
      exact Hsel.
    + vm_compute in Hnth. injection Hnth as <-. reflexivity.
Defined.

(* ================================================================== *)
(** * Properties of the two rounds *)

Lemma first_round_spec (lib : library) (p : text) : forall tracks f nf F NF,
  first_round lib p tracks f nf = inr (F, NF) ->
  F = f ++ flat_map (auto_path lib p) tracks
  /\ NF = nf ++ filter (deferred lib p) tracks.
Proof.
  induction tracks as [|[a t] tracks IH]; intros f nf F NF; cbn [first_round].
  - intros H. injection H as <- <-. cbn. now rewrite !app_nil_r.
  - cbn [flat_map filter]. unfold auto_path at 1, deferred at 1. cbn [fst snd].
    destruct (search_with_fallback a t lib p) as [e|[m|]]; cbn [bind]; [discriminate| |].
    + intros H. destruct (IH _ _ _ _ H) as [-> ->]. now rewrite <- app_assoc.
    + intros H. destruct (IH _ _ _ _ H) as [-> ->]. now rewrite <- app_assoc.
Qed.

Lemma second_round_spec (lib : library) (p : text) : forall missing f nf input F NF input',
  second_round lib p missing f nf input = inr (F, NF, input') ->
  exists chosen skipped,
    interactive_picks lib p missing input chosen skipped input'
    /\ F = f ++ chosen /\ NF = nf ++ skipped.
Proof.
  induction missing as [|[a t] missing IH]; intros f nf input F NF input'; cbn [second_round].
  - intros H. injection H as <- <- <-. exists [], []. rewrite !app_nil_r.
    split; [constructor|auto].
  - destruct (interactive_search a t lib p input) as [e|[[m|] input1]] eqn:E;
      cbn [bind]; [discriminate| |].
    + intros H. destruct (IH _ _ _ _ _ _ H) as [chosen [skipped [Hp [-> ->]]]].
      exists (path m :: chosen), skipped. rewrite <- app_assoc.
      split; [econstructor; eauto|auto].
    + intros H. destruct (IH _ _ _ _ _ _ H) as [chosen [skipped [Hp [-> ->]]]].
      exists chosen, ((a, t) :: skipped). rewrite <- app_assoc.
      split; [econstructor; eauto|auto].
Qed.

(** C1, as the code has it: the output list is the paths found by the
    automatic round, in playlist order, followed by the paths chosen in the
    interactive round, in playlist order; the tracks left over are those
    skipped there. *)
Theorem found_tracks_order (lib : library) (p : text) (tracks : list track)
    (input : stdin) (found_tracks : list text) (final_not_found : list track)
    (input' : stdin) :
  resolve_tracks lib p tracks input = inr (found_tracks, final_not_found, input') ->
  exists chosen,
    found_tracks = flat_map (auto_path lib p) tracks ++ chosen
    /\ interactive_picks lib p (filter (deferred lib p) tracks) input
         chosen final_not_found input'.
Proof.
  unfold resolve_tracks.
  destruct (first_round lib p tracks [] []) as [e|[f nf]] eqn:E1; cbn [bind]; [discriminate|].
  destruct (first_round_spec _ _ _ _ _ _ _ E1) as [-> ->]. cbn [app].
  intros H. destruct (second_round_spec _ _ _ _ _ _ _ _ _ H) as [chosen [skipped [Hp [-> ->]]]].
  exists chosen. auto.
Qed.

Lemma found_tracks_order_witness :
  exists chosen,
    [waterloo_mp3; bohemian_rhapsody_flac]
    = flat_map (auto_path library_two_artists music) playlist_q_then_abba ++ chosen
    /\ interactive_picks library_two_artists music
         (filter (deferred library_two_artists music) playlist_q_then_abba)
         [str "1"] chosen [] [].
Proof.
  apply (found_tracks_order library_two_artists music playlist_q_then_abba [str "1"]).
  vm_compute. reflexivity.
Defined.

(** C1, as the spec words it, fails: the first track of the playlist is
    resolved in the interactive round, the second in the automatic round,
    and the path of the second comes first in the output. *)
Lemma interactive_choice_comes_last :
  resolve_tracks library_two_artists music playlist_q_then_abba [str "1"]
  = inr ([waterloo_mp3; bohemian_rhapsody_flac], [], [])
  /\ search_with_fallback (str "Q") (str "Bohemian Rhapsody") library_two_artists music
     = inr None
  /\ (exists m, interactive_search (str "Q") (str "Bohemian Rhapsody")
                  library_two_artists music [str "1"] = inr (Some m, [])
                /\ path m = bohemian_rhapsody_flac)
  /\ (exists m, search_with_fallback (str "ABBA") (str "Waterloo")
                  library_two_artists music = inr (Some m)
                /\ path m = waterloo_mp3)
  /\ waterloo_mp3 <> bohemian_rhapsody_flac.
Proof.
  split; [vm_compute; reflexivity|]. split; [vm_compute; reflexivity|].
  split; [eexists; split; vm_compute; reflexivity|].
  split; [eexists; split; vm_compute; reflexivity|].
  vm_compute. discriminate.
Qed.


(* ================================================================== *)
(** * Substrings *)

Lemma startswith_spec (t p : text) :
  startswith t p = true <-> exists b, t = p ++ b.
Proof.
  revert t; induction p as [|x p IH]; intros t.
  - destruct t; (split; [intros _; eexists; reflexivity | reflexivity]).
  - destruct t as [|y t]; cbn [startswith].
    + split; [discriminate | intros [b H]; discriminate].
    + rewrite andb_true_iff, N.eqb_eq, IH. split.
      * intros [-> [b ->]]. exists b. reflexivity.
      * intros [b H]. injection H as -> ->. split; [reflexivity | exists b; reflexivity].
Qed.

Lemma contains_spec (t p : text) :
  contains t p = true <-> exists a b, t = a ++ p ++ b.
Proof.
  induction t as [|c t IH].
  - cbn [contains]. rewrite orb_false_r, startswith_spec. split.
    + intros [b H]. exists [], b. exact H.
    + intros (a & b & H). destruct a; [exists b; exact H | discriminate].
  - cbn [contains]. rewrite orb_true_iff, startswith_spec, IH. split.
    + intros [[b H] | (a & b & H)].
      * exists [], b. exact H.
      * exists (c :: a), b. rewrite H. reflexivity.
    + intros (a & b & H). destruct a as [|x a].
      * left. exists b. exact H.
      * right. injection H as -> H. exists a, b. exact H.
Qed.

Lemma contains_false_app (a t b p : text) :
  contains (a ++ t ++ b) p = false -> contains t p = false.
Proof.
  intros H. destruct (contains t p) eqn:E; [|reflexivity].
  apply contains_spec in E as (x & y & ->).
  assert (Hc : contains (a ++ (x ++ p ++ y) ++ b) p = true).
  { apply contains_spec. exists (a ++ x), (y ++ b).
    rewrite <- !app_assoc. reflexivity. }
  rewrite Hc in H. discriminate.
Qed.

(** [split_once] cuts at the first occurrence of the separator. *)
Lemma split_once_unfold (t sep : text) :
  split_once t sep =
  if startswith t sep then Some ([], skipn (List.length sep) t)
  else match t with
       | c :: r => match split_once r sep with
                   | Some (a, b) => Some (c :: a, b)
                   | None => None
                   end
       | [] => None
       end.
Proof. destruct t; reflexivity. Qed.

Lemma split_once_spec (t sep a b : text) :
  split_once t sep = Some (a, b) ->
  t = a ++ sep ++ b
  /\ forall x y, t = x ++ sep ++ y -> (List.length a <= List.length x)%nat.
Proof.
  revert a b; induction t as [|c t IH]; intros a b; rewrite split_once_unfold.
  - destruct (startswith [] sep) eqn:E; [|discriminate].
    intros H; injection H as <- <-. apply startswith_spec in E as [x E].
    destruct sep; [|discriminate]. split; [reflexivity|]. intros; cbn; lia.
  - destruct (startswith (c :: t) sep) eqn:E.
    + intros H; injection H as <- <-. apply startswith_spec in E as [x E].
      split; [|intros; cbn; lia].
      rewrite E. cbn [app]. rewrite skipn_app, skipn_all, Nat.sub_diag. reflexivity.
    + destruct (split_once t sep) as [[a' b']|] eqn:S; [|discriminate].
      intros H; injection H as <- <-.
      destruct (IH a' b' eq_refl) as [Ht Hf]. split; [rewrite Ht at 1; reflexivity|].
      intros x y Hx. destruct x as [|d x].
      * assert (Hst : startswith (c :: t) sep = true)
          by (apply startswith_spec; exists y; exact Hx).
        rewrite Hst in E. discriminate.
      * injection Hx as _ Hx. specialize (Hf x y Hx). cbn [List.length]. lia.
Qed.

Lemma split_once_contains (t sep : text) :
  contains t sep = true -> split_once t sep <> None.
Proof.
  induction t as [|c t IH]; rewrite split_once_unfold; cbn [contains].
  - rewrite orb_false_r. intros ->. discriminate.
  - destruct (startswith (c :: t) sep); [discriminate|]. cbn [orb].
    intros H. specialize (IH H). destruct (split_once t sep) as [[? ?]|]; [discriminate|].
    contradiction IH; reflexivity.
Qed.

Lemma split_once_first (a sep b : text) :
  (forall x y, a ++ sep ++ b = x ++ sep ++ y -> (List.length a <= List.length x)%nat) ->
  split_once (a ++ sep ++ b) sep = Some (a, b).
Proof.
  induction a as [|c a IH]; intros Hf; rewrite split_once_unfold.
  - cbn [app].
    assert (E : startswith (sep ++ b) sep = true)
      by (apply startswith_spec; exists b; reflexivity).
    rewrite E, skipn_app, skipn_all, Nat.sub_diag. reflexivity.
  - destruct (startswith ((c :: a) ++ sep ++ b) sep) eqn:E.
    + apply startswith_spec in E as [x E].
      specialize (Hf [] x E). cbn [List.length] in Hf. lia.
    + cbn [app]. rewrite IH; [reflexivity|].
      intros x y Hx. specialize (Hf (c :: x) y). cbn [app List.length] in Hf.
      rewrite Hx in Hf. specialize (Hf eq_refl). lia.
Qed.

(* ================================================================== *)
(** * Live recordings *)

(** X1 ([is_live_version]): a file name counts as a live recording exactly
    when it contains, in any letter case and anywhere, also inside a longer
    word, one of live, concert, tour, festival, unplugged, acoustic. *)
Theorem is_live_version_spec (filename : text) :
  is_live_version filename = true <->
  exists pre w suf,
    filename = pre ++ w ++ suf /\ In (lower w) live_indicators.
Proof.
  unfold is_live_version. rewrite existsb_exists. split.
  - intros (ind & Hin & Hc). apply contains_spec in Hc as (a & b & H).
    unfold lower in H. apply map_eq_app in H as (pre & r & -> & Ha & H).
    apply map_eq_app in H as (w & suf & -> & Hw & Hb).
    exists pre, w, suf. split; [reflexivity|]. unfold lower. rewrite Hw. exact Hin.
  - intros (pre & w & suf & -> & Hin). exists (lower w). split; [exact Hin|].
    apply contains_spec. exists (lower pre), (lower suf).
    unfold lower. rewrite !map_app. reflexivity.
Qed.

(* ================================================================== *)
(** * The shape of normalized text *)

Lemma lower_decomposition_lower (c : char) :
  (c < 0x100)%N ->
  lower (decomposition (lower_char c)) = lower (decomposition c).
Proof.
  intros H. apply text_eqb_eq. revert c H.
  apply (latin1_range
           (fun c => text_eqb (lower (decomposition (lower_char c)))
                              (lower (decomposition c)))).
  vm_compute. reflexivity.
Qed.

Lemma lower_nfkd_lower (s : text) :
  latin1 s -> lower (nfkd (lower s)) = lower (nfkd s).
Proof.
  induction 1 as [|c s Hc Hs IH]; [reflexivity|].
  unfold lower, nfkd in *. cbn [map flat_map]. rewrite !map_app.
  rewrite IH. f_equal. apply lower_decomposition_lower. exact Hc.
Qed.

Lemma normalize_text_lower (s : text) :
  latin1 s -> normalize_text (lower s) = normalize_text s.
Proof.
  intros H. rewrite !normalize_text_steps, lower_nfkd_lower by exact H. reflexivity.
Qed.

Lemma isspace_latin1 (c : char) : isspace c = true -> (c < 0x100)%N.
Proof.
  unfold isspace. intros H.
  repeat (apply orb_true_iff in H as [H|H]);
    repeat (apply andb_true_iff in H as [? H]);
    repeat match goal with
           | H : (_ <=? _)%N = true |- _ => apply N.leb_le in H
           | H : (_ =? _)%N = true |- _ => apply N.eqb_eq in H
           end; unfold char in *; lia.
Qed.

Lemma lower_decomposition_blank (c : char) :
  isspace c = true ->
  Forall (fun x => isspace x = true) (lower (decomposition c)).
Proof.
  intros H. pose proof (isspace_latin1 c H) as Hc.
  apply Forall_forall. intros x Hx.
  pose proof (latin1_range
                (fun c => implb (isspace c)
                                (forallb isspace (lower (decomposition c))))) as R.
  specialize (R ltac:(vm_compute; reflexivity) c Hc). cbv beta in R.
  rewrite H in R. cbn [implb] in R. rewrite forallb_forall in R. apply R. exact Hx.
Qed.

Lemma lower_nfkd_blank (s : text) :
  Forall (fun c => isspace c = true) s ->
  Forall (fun c => isspace c = true) (lower (nfkd s)).
Proof.
  induction 1 as [|c s Hc Hs IH]; [constructor|].
  unfold lower, nfkd in *. cbn [map flat_map]. rewrite map_app.
  apply Forall_app. split; [apply lower_decomposition_blank; exact Hc | exact IH].
Qed.

Lemma lstrip_blank (t : text) :
  Forall (fun c => isspace c = true) t -> lstrip t = [].
Proof.
  induction 1 as [|c t Hc Ht IH]; [reflexivity|]. cbn [lstrip]. rewrite Hc. exact IH.
Qed.

Lemma normalize_text_blank (s : text) :
  Forall (fun c => isspace c = true) s -> normalize_text s = [].
Proof.
  intros H. rewrite normalize_text_steps. unfold strip at 2.
  rewrite (lstrip_blank _ (lower_nfkd_blank s H)). vm_compute. reflexivity.
Qed.

(** X2 ([normalize_text]): the normalized form of a Latin-1 text has no
    white space at either end and none but single spaces inside; lower-casing
    or decomposing it again changes nothing; it has no ampersand, no plus
    sign and no sharp s (U+00DF). *)
Theorem normalize_text_output (s : text) :
  latin1 s ->
  let t := normalize_text s in
  strip t = t /\ collapsed t /\ lower t = t /\ nfkd t = t
  /\ ~ In 0x26%N t /\ ~ In 0x2B%N t /\ ~ In 0xDF%N t.
Proof.
  intros H t. destruct (normalize_text_shape s H) as (Hst & Hk & Hc & Hs).
  fold t in Hst, Hk, Hc, Hs.
  split; [exact Hs|]. split; [exact Hc|].
  split; [apply stable_lower; exact Hst|]. split; [apply stable_nfkd; exact Hst|].
  rewrite Forall_forall in Hk.
  split; [|split]; intros Hin; specialize (Hk _ Hin); vm_compute in Hk; discriminate.
Qed.

Lemma normalize_text_output_witness :
  let t := normalize_text (str "  Simon  &   Garfunkel ") in
  strip t = t /\ collapsed t /\ lower t = t /\ nfkd t = t
  /\ ~ In 0x26%N t /\ ~ In 0x2B%N t /\ ~ In 0xDF%N t.
Proof.
  apply (normalize_text_output (str "  Simon  &   Garfunkel ")).
  unfold latin1. repeat constructor.
Defined.

(** X3 ([similarity]): matching ignores letter case: lower-casing either
    argument (Latin-1 text) leaves the similarity as it is, because the
    normal form of a text and of its lower-cased copy are the same. *)
Theorem similarity_ignores_case (a b : text) :
  latin1 a -> latin1 b ->
  normalize_text (lower a) = normalize_text a
  /\ similarity (lower a) b = similarity a b
  /\ similarity a (lower b) = similarity a b.
Proof.
  intros Ha Hb. unfold similarity.
  rewrite (normalize_text_lower a Ha), (normalize_text_lower b Hb).
  split; [|split]; reflexivity.
Qed.

Lemma similarity_ignores_case_witness :
  normalize_text (lower (str "QUEEN")) = normalize_text (str "QUEEN")
  /\ similarity (lower (str "QUEEN")) (str "Queen") = similarity (str "QUEEN") (str "Queen")
  /\ similarity (str "QUEEN") (lower (str "Queen")) = similarity (str "QUEEN") (str "Queen").
Proof.
  apply (similarity_ignores_case (str "QUEEN") (str "Queen"));
    unfold latin1; repeat constructor.
Defined.

(** X4 ([normalize_text], [similarity]): a text of white space only, the
    empty text included, normalizes to the empty text, and two such texts
    have similarity 1.0. *)
Theorem blank_text_normalizes_to_empty (a b : text) :
  Forall (fun c => isspace c = true) a ->
  Forall (fun c => isspace c = true) b ->
  normalize_text a = [] /\ similarity a b = 1%float.
Proof.
  intros Ha Hb. split; [apply normalize_text_blank; exact Ha|].
  unfold similarity.
  rewrite (normalize_text_blank a Ha), (normalize_text_blank b Hb).
  vm_compute. reflexivity.
Qed.

Lemma blank_text_normalizes_to_empty_witness :
  normalize_text (str "   ") = [] /\ similarity (str "   ") [] = 1%float.
Proof.
  apply (blank_text_normalizes_to_empty (str "   ") []); repeat constructor.
Defined.

(** X5 ([find_best_matches], [similarity]): the retriever normalizes the
    query and the folder or file name before it calls [similarity], which
    normalizes again; for Latin-1 texts with no opening round or square
    bracket the second normalization changes nothing, so the score is the
    similarity of the texts as they are. *)
Theorem similarity_of_normalized_texts (a b : text) :
  latin1 a -> latin1 b -> no_opening a -> no_opening b ->
  similarity (normalize_text a) (normalize_text b) = similarity a b.
Proof.
  intros Ha Hb Na Nb. unfold similarity.
  rewrite (normalize_text_idempotent_without_groups a Ha Na),
          (normalize_text_idempotent_without_groups b Hb Nb).
  reflexivity.
Qed.

Lemma similarity_of_normalized_texts_witness :
  similarity (normalize_text (str "Simon & Garfunkel")) (normalize_text (str "Simon and Garfunkel"))
  = similarity (str "Simon & Garfunkel") (str "Simon and Garfunkel").
Proof.
  apply (similarity_of_normalized_texts (str "Simon & Garfunkel") (str "Simon and Garfunkel")).
  - unfold latin1. repeat constructor.
  - unfold latin1. repeat constructor.
  - split; intros H; vm_compute in H; repeat (destruct H as [H|H]; [discriminate|]); exact H.
  - split; intros H; vm_compute in H; repeat (destruct H as [H|H]; [discriminate|]); exact H.
Defined.

(* ================================================================== *)
(** * The similarity of a text and itself *)

Lemma nth_tl {A} (l : list A) (x : nat) (d : A) : nth x (tl l) d = nth (S x) l d.
Proof. destruct l; [destruct x; reflexivity|reflexivity]. Qed.

Lemma hd_nth {A} (l : list A) (d : A) : hd d l = nth 0 l d.
Proof. destruct l; reflexivity. Qed.

Section SelfMatch.

Variable pop : char -> bool.

Section Row.

Variables (ai : char) (i n Dp : nat).
Hypothesis Hin : i < n.
Hypothesis HDp : Dp <= i.

Lemma row_inv :
  forall bs j ps diag dcol best,
    diag <= dcol ->
    (forall x, nth x ps 0 <= nth x (runs pop dcol bs) 0) ->
    diag <= Dp ->
    (forall x, nth x ps 0 <= Dp) ->
    (j <= i -> nth_error bs (i - j) = Some ai) ->
    (j = i -> diag = Dp) ->
    (j < i -> nth (i - 1 - j) ps 0 = Dp) ->
    fst (fst best) = snd (fst best) ->
    fst (fst best) + Difflib.block_size best <= n ->
    (forall x, j + x < i -> nth x (runs pop dcol bs) 0 <= Difflib.block_size best) ->
    (i < j -> (if pop ai then 0 else S Dp) <= Difflib.block_size best) ->
    let '(r, best') := Difflib.row pop ai i bs j ps diag best in
    (forall x, nth x r 0 <= nth x (runs pop dcol bs) 0)
    /\ (forall x, nth x r 0 <= (if pop ai then 0 else S Dp))
    /\ (j <= i -> nth (i - j) r 0 = (if pop ai then 0 else S Dp))
    /\ fst (fst best') = snd (fst best')
    /\ fst (fst best') + Difflib.block_size best' <= n
    /\ Difflib.block_size best <= Difflib.block_size best'
    /\ (j <= i -> (if pop ai then 0 else S Dp) <= Difflib.block_size best').
Proof.
  induction bs as [|bj bs IH];
    intros j ps diag dcol best Hdc Hcol Hdr Hrow Hai Hje Hjl Hbd Hbn Hsc Hgt;
    set (Di := if pop ai then 0 else S Dp) in *.
  - cbn [Difflib.row runs]. split; [intros [|x]; cbn; lia|]. split; [intros [|x]; cbn; lia|].
    split; [intros Hj; specialize (Hai Hj); destruct (i - j); discriminate|].
    split; [exact Hbd|]. split; [exact Hbn|]. split; [lia|].
    intros Hj; specialize (Hai Hj); destruct (i - j); discriminate.
  - cbn [Difflib.row runs].
    set (d' := if pop bj then 0 else S dcol) in *.
    set (k := if ((bj =? ai)%N && negb (pop bj))%bool then S diag else 0).
    set (best1 := if (Difflib.block_size best <? k)%nat
                  then (i + 1 - k, j + 1 - k, k) else best).
    assert (Hkd : k <= d').
    { unfold k, d'. destruct (N.eqb_spec bj ai); cbn [andb]; [|lia].
      destruct (pop bj); cbn [negb]; lia. }
    assert (Hki : k <= Di).
    { unfold k, Di. destruct (N.eqb_spec bj ai) as [->|]; cbn [andb]; [|lia].
      destruct (pop ai); cbn [negb]; lia. }
    assert (Hkeq : j = i -> k = Di).
    { intros ->. specialize (Hai (le_n _)). rewrite Nat.sub_diag in Hai. cbn in Hai.
      injection Hai as ->. unfold k, Di. rewrite N.eqb_refl, (Hje eq_refl). cbn [andb].
      destruct (pop ai); reflexivity. }
    assert (H1 : fst (fst best1) = snd (fst best1)
                 /\ fst (fst best1) + Difflib.block_size best1 <= n
                 /\ Difflib.block_size best <= Difflib.block_size best1
                 /\ k <= Difflib.block_size best1 \/ False).
    { left. unfold best1. destruct (Nat.ltb_spec (Difflib.block_size best) k) as [Hlt|Hge].
      - assert (Hj : j = i).
        { destruct (Nat.lt_trichotomy j i) as [Hl|[He|Hg]]; [|exact He|].
          - specialize (Hsc 0). rewrite Nat.add_0_r in Hsc. specialize (Hsc Hl).
            cbn [nth runs] in Hsc. fold d' in Hsc. lia.
          - specialize (Hgt Hg). lia. }
        subst j. unfold Difflib.block_size in *. cbn [fst snd].
        unfold Di in Hki. destruct (pop ai); lia.
      - unfold Difflib.block_size in *. repeat split; try assumption; lia. }
    destruct H1 as [(Hb1 & Hb2 & Hb3 & Hb4)|[]].
    specialize (IH (S j) (tl ps) (hd 0 ps) d' best1).
    destruct (Difflib.row pop ai i bs (S j) (tl ps) (hd 0 ps) best1) as [r best2].
    assert (Hcol0 : nth 0 ps 0 <= d') by exact (Hcol 0).
    destruct IH as (I1 & I2 & I3 & I4 & I5 & I6 & I7).
    + rewrite hd_nth. exact Hcol0.
    + intros x. rewrite nth_tl. exact (Hcol (S x)).
    + rewrite hd_nth. apply Hrow.
    + intros x. rewrite nth_tl. apply Hrow.
    + intros Hj. assert (Hj' : j <= i) by lia. specialize (Hai Hj').
      replace (i - j) with (S (i - S j)) in Hai by lia. exact Hai.
    + intros Hj. rewrite hd_nth. rewrite <- (Hjl ltac:(lia)). f_equal. lia.
    + intros Hj. rewrite nth_tl. rewrite <- (Hjl ltac:(lia)). f_equal. lia.
    + exact Hb1.
    + exact Hb2.
    + intros x Hx. specialize (Hsc (S x) ltac:(lia)). cbn [nth runs] in Hsc.
      fold d' in Hsc. lia.
    + intros Hj. destruct (Nat.eq_dec i j) as [E|E].
      * rewrite <- (Hkeq (eq_sym E)). exact Hb4.
      * specialize (Hgt ltac:(lia)). lia.
    + split; [intros [|x]; cbn [nth]; [exact Hkd|apply I1]|].
      split; [intros [|x]; cbn [nth]; [exact Hki|apply I2]|].
      split.
      { intros Hj. destruct (Nat.eq_dec j i) as [E|E].
        - rewrite E, Nat.sub_diag. cbn [nth]. exact (Hkeq E).
        - replace (i - j) with (S (i - S j)) by lia. cbn [nth]. apply I3. lia. }
      split; [exact I4|]. split; [exact I5|]. split; [lia|].
      intros Hj. destruct (Nat.eq_dec j i) as [E|E].
      * rewrite <- (Hkeq E). lia.
      * apply I7. lia.
Qed.

End Row.

Lemma runs_nth (t : text) :
  forall d i c,
    nth_error t i = Some c ->
    nth i (runs pop d t) 0
    = if pop c then 0 else S (match i with 0 => d | S i' => nth i' (runs pop d t) 0 end).
Proof.
  induction t as [|c0 t IH]; intros d i c; [destruct i; discriminate|].
  destruct i as [|i]; cbn [nth_error runs nth].
  - intros H; injection H as <-. reflexivity.
  - intros H. rewrite (IH _ _ _ H). destruct i; reflexivity.
Qed.

Lemma runs_le (t : text) : forall d i, nth i (runs pop d t) 0 <= d + S i.
Proof.
  induction t as [|c t IH]; intros d i; [destruct i; cbn; lia|].
  destruct i as [|i]; cbn [runs nth].
  - destruct (pop c); lia.
  - specialize (IH (if pop c then 0 else S d) i). destruct (pop c); lia.
Qed.

Lemma rows_inv (t : text) :
  forall a i P best,
    (forall x, nth_error a x = nth_error t (i + x)) ->
    i + List.length a = List.length t ->
    (forall x, nth x P 0 <= nth x (runs pop 0 t) 0) ->
    (forall x, nth x P 0 <= match i with 0 => 0 | S i' => nth i' (runs pop 0 t) 0 end) ->
    (forall i', i = S i' -> nth i' P 0 = nth i' (runs pop 0 t) 0) ->
    fst (fst best) = snd (fst best) ->
    fst (fst best) + Difflib.block_size best <= List.length t ->
    (forall x, x < i -> nth x (runs pop 0 t) 0 <= Difflib.block_size best) ->
    let best' := Difflib.rows pop a i t P best in
    fst (fst best') = snd (fst best')
    /\ fst (fst best') + Difflib.block_size best' <= List.length t.
Proof.
  induction a as [|ai a IH]; intros i P best Ha Hlen Hcol Hrow Hdiag Hbd Hbn Hsc.
  - cbn [Difflib.rows]. split; assumption.
  - cbn [Difflib.rows].
    set (Dp := match i with 0 => 0 | S i' => nth i' (runs pop 0 t) 0 end) in *.
    assert (Hi : i < List.length t) by (cbn [List.length] in Hlen; lia).
    assert (HDp : Dp <= i).
    { unfold Dp. destruct i as [|i']; [lia|]. pose proof (runs_le t 0 i'). lia. }
    assert (Hai : nth_error t i = Some ai).
    { specialize (Ha 0). rewrite Nat.add_0_r in Ha. cbn in Ha. symmetry. exact Ha. }
    pose proof (row_inv ai i (List.length t) Dp Hi HDp t 0 P 0 0 best) as R.
    destruct (Difflib.row pop ai i t 0 P 0 best) as [r best1].
    destruct R as (R1 & R2 & R3 & R4 & R5 & R6 & R7).
    + lia.
    + exact Hcol.
    + lia.
    + exact Hrow.
    + intros _. rewrite Nat.sub_0_r. exact Hai.
    + intros <-. reflexivity.
    + intros Hj. destruct i as [|i']; [lia|]. unfold Dp.
      replace (S i' - 1 - 0) with i' by lia. exact (Hdiag i' eq_refl).
    + exact Hbd.
    + exact Hbn.
    + intros x Hx. apply Hsc. lia.
    + intros Hj. lia.
    + assert (HDi : nth i (runs pop 0 t) 0 = if pop ai then 0 else S Dp).
      { rewrite (runs_nth t 0 i ai Hai). unfold Dp. destruct i; reflexivity. }
      apply (IH (S i) r best1).
      * intros x. specialize (Ha (S x)). cbn [nth_error] in Ha. rewrite Ha. f_equal. lia.
      * cbn [List.length] in Hlen. lia.
      * exact R1.
      * intros x. rewrite HDi. apply R2.
      * intros i' E. injection E as <-. rewrite HDi.
        specialize (R3 (Nat.le_0_l _)). rewrite Nat.sub_0_r in R3. exact R3.
      * exact R4.
      * exact R5.
      * intros x Hx. destruct (Nat.eq_dec x i) as [->|E].
        -- rewrite HDi. apply R7. lia.
        -- specialize (Hsc x ltac:(lia)). lia.
Qed.

Lemma extend_left_self (t : text) :
  forall s k, s <= List.length t -> Difflib.extend_left t t s s k = (0, 0, s + k).
Proof.
  induction s as [|s IH]; intros k Hs; [reflexivity|].
  cbn [Difflib.extend_left].
  destruct (nth_error t s) as [x|] eqn:E; [|apply nth_error_None in E; lia].
  rewrite N.eqb_refl, IH by lia. f_equal. lia.
Qed.

Lemma common_prefix_self (t : text) : Difflib.common_prefix t t = List.length t.
Proof.
  induction t as [|c t IH]; [reflexivity|]. cbn [Difflib.common_prefix List.length].
  rewrite N.eqb_refl, IH. reflexivity.
Qed.

Lemma find_longest_match_self (t : text) :
  Difflib.find_longest_match pop t t = (0, 0, List.length t).
Proof.
  unfold Difflib.find_longest_match.
  assert (H3 : forall x, nth x (@nil nat) 0 <= nth x (runs pop 0 t) 0)
    by (intros [|x]; cbn; lia).
  assert (H4 : forall x, nth x (@nil nat) 0 <= 0) by (intros [|x]; cbn; lia).
  assert (H5 : forall i', 0 = S i' -> nth i' (@nil nat) 0 = nth i' (runs pop 0 t) 0)
    by (intros i' E; discriminate).
  assert (H7 : fst (fst (0, 0, 0)) + Difflib.block_size (0, 0, 0) <= List.length t)
    by (cbn; lia).
  assert (H8 : forall x, x < 0 -> nth x (runs pop 0 t) 0 <= Difflib.block_size (0, 0, 0))
    by (intros x Hx; lia).
  pose proof (rows_inv t t 0 [] (0, 0, 0) (fun x => eq_refl) eq_refl H3 H4 H5 eq_refl H7 H8)
    as R.
  cbv zeta in R.
  destruct (Difflib.rows pop t 0 t [] (0, 0, 0)) as [[s s'] k].
  unfold Difflib.block_size in R. cbn [fst snd] in R. destruct R as [<- Hn].
  rewrite extend_left_self by lia. unfold Difflib.extend_right.
  cbn [Nat.add]. rewrite common_prefix_self, length_skipn. f_equal. lia.
Qed.

Lemma matched_self (t : text) (fuel : nat) :
  Difflib.matched pop (S fuel) t t = List.length t.
Proof.
  cbn [Difflib.matched]. rewrite find_longest_match_self. cbv beta iota.
  destruct (Nat.eqb_spec (List.length t) 0) as [E|E]; [lia|].
  change (0 + List.length t) with (List.length t).
  rewrite !Nat.ltb_irrefl. cbn [andb]. lia.
Qed.

End SelfMatch.

Lemma ratio_self_small :
  forallb (fun n => PrimFloat.Leibniz.eqb (Difflib.calculate_ratio n (n + n)) 1%float)
          (seq 0 4097) = true.
Proof. vm_compute. reflexivity. Qed.

Lemma ratio_self (t : text) :
  List.length t <= 4096 -> Difflib.ratio t t = 1%float.
Proof.
  intros H. unfold Difflib.ratio. rewrite matched_self.
  apply FloatAxioms.Leibniz.eqb_spec.
  pose proof ratio_self_small as R. rewrite forallb_forall in R.
  apply (R (List.length t)). apply in_seq. lia.
Qed.

Lemma similarity_same_normal_form (a b : text) :
  normalize_text a = normalize_text b ->
  List.length (normalize_text a) <= 4096 ->
  similarity a b = 1%float.
Proof.
  intros E H. unfold similarity. rewrite <- E. apply ratio_self. exact H.
Qed.

(** X6 ([similarity]): two Latin-1 texts with the same normal form, of
    4096 characters at most, have similarity 1.0; in particular a text and
    itself. *)
Theorem same_normal_form_scores_one (a b : text) :
  latin1 a -> latin1 b ->
  normalize_text a = normalize_text b ->
  List.length (normalize_text a) <= 4096 ->
  similarity a b = 1%float.
Proof. intros _ _. exact (similarity_same_normal_form a b). Qed.

Lemma same_normal_form_scores_one_witness :
  similarity (str "Bohemian Rhapsody (Remastered 2011)") (str "  bohemian   RHAPSODY")
  = 1%float.
Proof.
  apply (same_normal_form_scores_one (str "Bohemian Rhapsody (Remastered 2011)")
           (str "  bohemian   RHAPSODY")).
  - repeat constructor.
  - repeat constructor.
  - vm_compute. reflexivity.
  - apply Nat.leb_le. vm_compute. reflexivity.
Defined.

(* ================================================================== *)
(** * Where candidates come from *)

Local Open Scope float_scope.

Lemma candidate_origin (a t : text) (lib : library) (p : text)
    (th : thresholds) (L : list candidate) (m : candidate) :
  find_best_matches a t lib p th = inr L -> In m L ->
  exists artists artist_dir albums album_dir files n,
    lib = Some (Dir (Some artists))
    /\ In (artist_dir, Dir (Some albums)) artists
    /\ In (album_dir, Dir (Some files)) albums
    /\ In (filename m, n) files
    /\ is_audio (filename m) = true
    /\ path m = os_path_join (os_path_join (os_path_join p artist_dir) album_dir)
                  (filename m)
    /\ artist_sim m = similarity (normalize_text a) (normalize_text artist_dir)
    /\ (min_artist_sim th <=? artist_sim m) = true
    /\ (min_title_sim th <=? title_sim m) = true.
Proof.
  intros H Hin. apply find_best_matches_scan in H as [D [HD ->]].
  apply (Permutation_in _ (Permutation_sym (sort_matches_perm D))) in Hin.
  apply (scan_In _ _ _ _ _ _ m HD) in Hin as (artists & -> & Hhit).
  destruct Hhit as (artist_dir & albums & Ha & _ & Hal).
  destruct Hal as (album_dir & files & Hb & Hf).
  destruct Hf as (file & n & Hc & Haud & Hs).
  apply score_file_spec in Hs.
  destruct (parse_filename artist_dir file) as [fa ft].
  destruct Hs as [(_ & H2 & H3) ->]. cbn [filename path artist_sim title_sim].
  exists artists, artist_dir, albums, album_dir, files, n.
  split; [reflexivity|]. split; [exact Ha|]. split; [exact Hb|]. split; [exact Hc|].
  split; [exact Haud|]. split; [reflexivity|]. split; [reflexivity|].
  split; [exact H2|exact H3].
Qed.

(** X7 ([find_best_matches]): every candidate returned is an entry with an
    audio extension of a directory that is an entry of a directory that is
    an entry of the library root, and its path joins the four names; the
    similarity of its artist folder and of its title clear the floors of
    the call. *)
Theorem candidates_lie_three_levels_deep (a t : text) (lib : library) (p : text)
    (th : thresholds) (L : list candidate) (m : candidate) :
  find_best_matches a t lib p th = inr L -> In m L ->
  exists artists artist_dir albums album_dir files n,
    lib = Some (Dir (Some artists))
    /\ In (artist_dir, Dir (Some albums)) artists
    /\ In (album_dir, Dir (Some files)) albums
    /\ In (filename m, n) files
    /\ is_audio (filename m) = true
    /\ path m = os_path_join (os_path_join (os_path_join p artist_dir) album_dir)
                  (filename m)
    /\ artist_sim m = similarity (normalize_text a) (normalize_text artist_dir)
    /\ (min_artist_sim th <=? artist_sim m) = true
    /\ (min_title_sim th <=? title_sim m) = true.
Proof. exact (candidate_origin a t lib p th L m). Qed.

Lemma candidates_lie_three_levels_deep_witness :
  exists artists artist_dir albums album_dir files n,
    library_two_artists = Some (Dir (Some artists))
    /\ In (artist_dir, Dir (Some albums)) artists
    /\ In (album_dir, Dir (Some files)) albums
    /\ In (filename (example_best), n) files
    /\ is_audio (filename (example_best)) = true
    /\ path (example_best)
       = os_path_join (os_path_join (os_path_join music artist_dir) album_dir)
           (filename (example_best))
    /\ artist_sim (example_best)
       = similarity (normalize_text (str "Queen")) (normalize_text artist_dir)
    /\ (min_artist_sim stage3 <=? artist_sim (example_best)) = true
    /\ (min_title_sim stage3 <=? title_sim (example_best)) = true.
Proof.
  apply (candidates_lie_three_levels_deep (str "Queen") (str "Bohemian Rhapsody")
           library_two_artists music stage3 example_ranking).
  - vm_compute. reflexivity.
  - vm_compute. left. reflexivity.
Defined.

(** ** Folders that the scan passes over *)

Lemma scan_artists_app (sa st : text) (th : thresholds) (p : text) :
  forall l1 l2 acc,
    scan_artists sa st th p (l1 ++ l2) acc
    = bind (scan_artists sa st th p l1 acc) (scan_artists sa st th p l2).
Proof.
  induction l1 as [|[d n] l1 IH]; intros l2 acc; [reflexivity|].
  cbn [app scan_artists]. destruct (negb (isdir n)); [apply IH|].
  destruct (similarity sa (normalize_text d) <? min_artist_sim th); [apply IH|].
  destruct (listdir n) as [e|albums]; [reflexivity|]. cbn [bind].
  destruct (scan_albums sa st th d _ _ albums acc) as [e|acc']; [reflexivity|].
  cbn [bind]. apply IH.
Qed.

(** X8 ([find_best_matches]): an entry of the library root that is not a
    directory, or whose name is less similar to the artist than
    [min_artist_sim], is never opened: the call returns what it returns
    without the entry, whatever the entry holds and whether or not it can
    be read. *)
Theorem skipped_entry_is_never_opened (a t : text) (p : text) (th : thresholds)
    (l1 l2 : list (text * node)) (d : text) (n : node) :
  isdir n = false
  \/ (similarity (normalize_text a) (normalize_text d) <? min_artist_sim th) = true ->
  find_best_matches a t (Some (Dir (Some (l1 ++ (d, n) :: l2)))) p th
  = find_best_matches a t (Some (Dir (Some (l1 ++ l2)))) p th.
Proof.
  intros H. unfold find_best_matches, scan. cbn [listdir bind ret].
  rewrite !scan_artists_app.
  destruct (scan_artists _ _ th p l1 []) as [e|acc]; [reflexivity|]. cbn [bind].
  cbn [scan_artists]. destruct H as [-> | ->]; [reflexivity|].
  destruct (negb (isdir n)); reflexivity.
Qed.

Lemma skipped_entry_is_never_opened_witness :
  find_best_matches (str "Queen") (str "Bohemian Rhapsody")
    (Some (Dir (Some ([(str "Queen", dir [opera])] ++ (str "ABBA", locked) :: []))))
    music stage1
  = find_best_matches (str "Queen") (str "Bohemian Rhapsody")
      (Some (Dir (Some ([(str "Queen", dir [opera])] ++ [])))) music stage1.
Proof.
  apply (skipped_entry_is_never_opened (str "Queen") (str "Bohemian Rhapsody") music
           stage1 [(str "Queen", dir [opera])] [] (str "ABBA") locked).
  right. vm_compute. reflexivity.
Defined.

(** ** Looser thresholds *)

(** X9 ([find_best_matches], [search_with_fallback], [interactive_search]):
    each stage is at least as loose as the one before it and the
    interactive search is the loosest; whenever two calls for the same
    query both return, every candidate of the call with the stricter
    thresholds is a candidate of the call with the looser ones. *)
Theorem looser_thresholds_keep_every_candidate (a t : text) (lib : library) (p : text)
    (th th' : thresholds) (L L' : list candidate) :
  looser th th' ->
  find_best_matches a t lib p th' = inr L' ->
  find_best_matches a t lib p th = inr L ->
  incl L' L
  /\ looser stage2 stage1 /\ looser stage3 stage2 /\ looser loose stage3.
Proof.
  intros Hl H' H. split; [exact (find_best_matches_looser a t lib p th th' L L' Hl H' H)|].
  split; [|split]; (split; [|split]); vm_compute; reflexivity.
Qed.

Lemma looser_thresholds_keep_every_candidate_witness :
  incl example_stage1 example_offers_abba
  /\ looser stage2 stage1 /\ looser stage3 stage2 /\ looser loose stage3.
Proof.
  apply (looser_thresholds_keep_every_candidate (str "abba")
           (str "Waterloo (Remastered 2001)") library_two_artists music loose stage1).
  - split; [|split]; vm_compute; reflexivity.
  - vm_compute. reflexivity.
  - vm_compute. reflexivity.
Defined.

(** ** The exceptions of a scan *)

Lemma scan_albums_error (sa st : text) (th : thresholds) (ad : text) (asim : float)
    (ap : text) :
  forall albums acc e,
    scan_albums sa st th ad asim ap albums acc = inl e -> e = PermissionError.
Proof.
  induction albums as [|[d n] albums IH]; intros acc e; cbn [scan_albums];
    [discriminate|].
  destruct n as [|[files|]]; cbn [isdir negb listdir bind ret raise].
  - apply IH.
  - apply IH.
  - intros H; injection H as <-. reflexivity.
Qed.

Lemma scan_artists_error (sa st : text) (th : thresholds) (p : text) :
  forall artists acc e,
    scan_artists sa st th p artists acc = inl e -> e = PermissionError.
Proof.
  induction artists as [|[d n] artists IH]; intros acc e; cbn [scan_artists];
    [discriminate|].
  destruct n as [|[albums|]]; cbn [isdir negb].
  - apply IH.
  - destruct (similarity sa (normalize_text d) <? min_artist_sim th); [apply IH|].
    cbn [listdir bind ret].
    destruct (scan_albums sa st th d _ _ albums acc) as [e'|acc'] eqn:E; cbn [bind].
    + intros H; injection H as <-. exact (scan_albums_error _ _ _ _ _ _ _ _ _ E).
    + apply IH.
  - destruct (similarity sa (normalize_text d) <? min_artist_sim th); [apply IH|].
    cbn [listdir bind raise]. intros H; injection H as <-. reflexivity.
Qed.

Lemma find_best_matches_error (a t : text) (lib : library) (p : text)
    (th : thresholds) (e : exn) :
  find_best_matches a t lib p th = inl e ->
  e = PermissionError \/ (e = NotADirectoryError /\ lib = Some File).
Proof.
  unfold find_best_matches, scan. destruct lib as [[|[artists|]]|]; cbn [listdir bind ret raise].
  - intros H; injection H as <-. right. split; reflexivity.
  - destruct (scan_artists _ _ th p artists []) as [e'|D] eqn:E; cbn [bind]; [|discriminate].
    intros H; injection H as <-. left. exact (scan_artists_error _ _ _ _ _ _ _ E).
  - intros H; injection H as <-. left. reflexivity.
  - discriminate.
Qed.

(* ================================================================== *)
(** * The automatic match *)

Lemma search_with_fallback_stage (a t : text) (lib : library) (p : text) (m : candidate) :
  search_with_fallback a t lib p = inr (Some m) ->
  exists th L,
    In th [stage1; stage2; stage3]
    /\ find_best_matches a t lib p th = inr (m :: L).
Proof.
  unfold search_with_fallback.
  destruct (find_best_matches a t lib p stage1) as [e|[|m1 L1]] eqn:E1; cbn [bind ret];
    [discriminate| |].
  - destruct (find_best_matches a t lib p stage2) as [e|[|m2 L2]] eqn:E2; cbn [bind ret];
      [discriminate| |].
    + destruct (find_best_matches a t lib p stage3) as [e|[|m3 L3]] eqn:E3; cbn [bind ret];
        [discriminate|discriminate|].
      intros H; injection H as <-. exists stage3, L3. split; [right; right; left; reflexivity|exact E3].
    + intros H; injection H as <-. exists stage2, L2. split; [right; left; reflexivity|exact E2].
  - intros H; injection H as <-. exists stage1, L1. split; [left; reflexivity|exact E1].
Qed.

Lemma find_best_matches_head (a t : text) (lib : library) (p : text)
    (th : thresholds) (m : candidate) (L : list candidate) :
  find_best_matches a t lib p th = inr (m :: L) ->
  Forall (fun c =>
            (is_live m = true -> is_live c = true)
            /\ (is_live m = is_live c -> is_flac c = true -> is_flac m = true)
            /\ (is_live m = is_live c -> is_flac m = is_flac c ->
                (final_score c <=? final_score m) = true)) L.
Proof.
  intros H. apply find_best_matches_scan in H as [D [HD HL]].
  pose proof (scan_scored _ _ _ _ _ _ HD) as Hsc.
  pose proof (sort_matches_ranked D Hsc) as Hs.
  pose proof (Permutation_Forall (sort_matches_perm D) Hsc) as Hsc'.
  rewrite <- HL in Hs, Hsc'. inversion Hs as [|? ? _ Hb]; subst.
  inversion Hsc' as [|? ? Hm HLs]; subst.
  rewrite Forall_forall in *. intros c Hc.
  apply before_reading; [exact Hm | apply HLs; exact Hc | apply Hb; exact Hc].
Qed.

(** X10 ([search_with_fallback]): a track resolved automatically has an
    artist folder at least 0.4 similar and a title at least 0.5 similar to
    the query, whichever stage found it, and it heads the ranking of that
    stage: the stage found no studio recording if it is live, no FLAC file
    of the same kind if it is not FLAC, and no higher score among the files
    of its kind and format. *)
Theorem automatic_match_is_best_of_its_stage (a t : text) (lib : library) (p : text)
    (m : candidate) :
  search_with_fallback a t lib p = inr (Some m) ->
  (0.4 <=? artist_sim m) = true /\ (0.5 <=? title_sim m) = true
  /\ exists th L,
       In th [stage1; stage2; stage3]
       /\ find_best_matches a t lib p th = inr (m :: L)
       /\ Forall (fun c =>
                    (is_live m = true -> is_live c = true)
                    /\ (is_live m = is_live c -> is_flac c = true -> is_flac m = true)
                    /\ (is_live m = is_live c -> is_flac m = is_flac c ->
                        (final_score c <=? final_score m) = true)) L.
Proof.
  intros H. apply search_with_fallback_stage in H as (th & L & Hth & HL).
  destruct (candidate_origin a t lib p th (m :: L) m HL (or_introl eq_refl))
    as (? & ? & ? & ? & ? & ? & _ & _ & _ & _ & _ & _ & _ & Ha & Ht).
  assert (Hfl : (0.4 <=? min_artist_sim th) = true /\ (0.5 <=? min_title_sim th) = true).
  { destruct Hth as [<-|[<-|[<-|[]]]]; split; vm_compute; reflexivity. }
  split; [exact (leb_trans _ _ _ (proj1 Hfl) Ha)|].
  split; [exact (leb_trans _ _ _ (proj2 Hfl) Ht)|].
  exists th, L. split; [exact Hth|]. split; [exact HL|].
  exact (find_best_matches_head _ _ _ _ _ _ _ HL).
Qed.

Lemma automatic_match_is_best_of_its_stage_witness :
  (0.4 <=? artist_sim (example_best)) = true
  /\ (0.5 <=? title_sim (example_best)) = true
  /\ exists th L,
       In th [stage1; stage2; stage3]
       /\ find_best_matches (str "Queen") (str "Bohemian Rhapsody")
            library_two_artists music th = inr (example_best :: L)
       /\ Forall (fun c =>
                    (is_live (example_best) = true -> is_live c = true)
                    /\ (is_live (example_best) = is_live c ->
                        is_flac c = true -> is_flac (example_best) = true)
                    /\ (is_live (example_best) = is_live c ->
                        is_flac (example_best) = is_flac c ->
                        (final_score c <=? final_score (example_best)) = true)) L.
Proof.
  apply (automatic_match_is_best_of_its_stage (str "Queen") (str "Bohemian Rhapsody")
           library_two_artists music).
  vm_compute. reflexivity.
Defined.

Local Close Scope float_scope.

(* ================================================================== *)
(** * Files named after the track *)

Local Open Scope float_scope.

Lemma exact_scores :
  (min_similarity stage1 <=? combined 1 1 1) = true
  /\ (min_artist_sim stage1 <=? 1) = true
  /\ (min_title_sim stage1 <=? 1) = true
  /\ (1 <? min_artist_sim stage1) = false.
Proof. vm_compute. split; [|split; [|split]]; reflexivity. Qed.

(** X11 ([find_best_matches], [search_with_fallback]): when the library
    holds an audio file in an album of an artist folder such that the
    folder name and the artist parsed from the file name have the normal
    form of the queried artist and the title parsed from the file name has
    that of the queried title (the query, the folder name and the file name
    being Latin-1 text, and the query normalized twice having 4096
    characters at most), and the strict scan does not raise, then the file
    is a candidate of the first stage with artist and title similarity 1.0,
    and the track is resolved automatically by the head of the first
    stage. *)
Theorem file_named_after_the_track_is_found (a t : text) (p : text)
    (artists albums files : list (text * node)) (artist_dir album_dir file : text)
    (n : node) (L : list candidate) :
  latin1 a -> latin1 t -> latin1 artist_dir -> latin1 file ->
  In (artist_dir, Dir (Some albums)) artists ->
  In (album_dir, Dir (Some files)) albums ->
  In (file, n) files ->
  is_audio file = true ->
  normalize_text artist_dir = normalize_text a ->
  normalize_text (fst (parse_filename artist_dir file)) = normalize_text a ->
  normalize_text (snd (parse_filename artist_dir file)) = normalize_text t ->
  (List.length (normalize_text (normalize_text a)) <= 4096)%nat ->
  (List.length (normalize_text (normalize_text t)) <= 4096)%nat ->
  find_best_matches a t (Some (Dir (Some artists))) p stage1 = inr L ->
  (exists m, In m L /\ filename m = file
             /\ path m = os_path_join (os_path_join (os_path_join p artist_dir) album_dir) file
             /\ artist_sim m = 1 /\ title_sim m = 1)
  /\ exists m0 L0, L = m0 :: L0
                   /\ search_with_fallback a t (Some (Dir (Some artists))) p = inr (Some m0).
Proof.
  intros _ _ _ _ Ha Hb Hc Haud Ead Efa Eft La Lt HL.
  destruct exact_scores as (S1 & S2 & S3 & S4).
  assert (Sad : similarity (normalize_text a) (normalize_text artist_dir) = 1).
  { apply similarity_same_normal_form; [rewrite Ead; reflexivity|exact La]. }
  destruct (parse_filename artist_dir file) as [fa ft] eqn:Ep. cbn [fst snd] in Efa, Eft.
  assert (Sfa : similarity (normalize_text a) (normalize_text fa) = 1).
  { apply similarity_same_normal_form; [rewrite Efa; reflexivity|exact La]. }
  assert (Sft : similarity (normalize_text t) (normalize_text ft) = 1).
  { apply similarity_same_normal_form; [rewrite Eft; reflexivity|exact Lt]. }
  set (m := {| path := os_path_join (os_path_join (os_path_join p artist_dir) album_dir) file;
               artist := fa; title := ft;
               final_score := combined 1 1 1 + flac_bonus file;
               artist_sim := 1; title_sim := 1;
               is_live := is_live_version file; filename := file;
               is_flac := endswith (lower file) (str ".flac") |}).
  assert (Hm : In m L).
  { pose proof HL as HL'. apply find_best_matches_scan in HL' as [D [HD ->]].
    apply (Permutation_in _ (sort_matches_perm D)).
    apply (scan_In _ _ _ _ _ _ m HD). exists artists. split; [reflexivity|].
    exists artist_dir, albums. split; [exact Ha|]. rewrite Sad. split; [exact S4|].
    exists album_dir, files. split; [exact Hb|].
    exists file, n. split; [exact Hc|]. split; [exact Haud|].
    apply score_file_spec. rewrite Ep, Sfa, Sft.
    split; [split; [exact S1|split; [exact S2|exact S3]]|reflexivity]. }
  split.
  - exists m. split; [exact Hm|]. repeat split.
  - destruct L as [|m0 L0]; [destruct Hm|]. exists m0, L0. split; [reflexivity|].
    unfold search_with_fallback. rewrite HL. reflexivity.
Qed.

Lemma file_named_after_the_track_is_found_witness :
  (exists m, In m example_stage1 /\ filename m = str "ABBA - Waterloo.mp3"
             /\ path m = os_path_join (os_path_join (os_path_join music (str "ABBA"))
                                         (str "Gold")) (str "ABBA - Waterloo.mp3")
             /\ artist_sim m = 1 /\ title_sim m = 1)
  /\ exists m0 L0, example_stage1 = m0 :: L0
                   /\ search_with_fallback (str "abba") (str "Waterloo (Remastered 2001)")
                        library_two_artists music = inr (Some m0).
Proof.
  apply (file_named_after_the_track_is_found (str "abba") (str "Waterloo (Remastered 2001)")
           music
           [ (str "Queen", dir [wembley; opera]); (str "ABBA", dir [gold]) ]
           [gold] [ (str "ABBA - Waterloo.mp3", File) ]
           (str "ABBA") (str "Gold") (str "ABBA - Waterloo.mp3") File example_stage1).
  - repeat constructor.
  - repeat constructor.
  - repeat constructor.
  - repeat constructor.
  - right. left. reflexivity.
  - left. reflexivity.
  - left. reflexivity.
  - vm_compute. reflexivity.
  - vm_compute. reflexivity.
  - vm_compute. reflexivity.
  - vm_compute. reflexivity.
  - apply Nat.leb_le. vm_compute. reflexivity.
  - apply Nat.leb_le. vm_compute. reflexivity.
  - vm_compute. reflexivity.
Defined.

Local Close Scope float_scope.

(* ================================================================== *)
(** * The interactive selection *)

Lemma select_loop_some (matches : list candidate) :
  forall input m input',
    select_loop matches input = inr (Some m, input') ->
    exists rejected line k,
      input = rejected ++ line :: input'
      /\ (k < 10)%nat /\ nth_error matches k = Some m
      /\ parse_int (lower (strip line)) = Some (Z.of_nat (S k)).
Proof.
  induction input as [|line input IH]; intros m input'; [discriminate|].
  cbn [select_loop].
  destruct (text_eqb (lower (strip line)) (str "s")); [discriminate|].
  assert (Hrec : select_loop matches input = inr (Some m, input') ->
                 exists rejected line0 k,
                   line :: input = rejected ++ line0 :: input'
                   /\ (k < 10)%nat /\ nth_error matches k = Some m
                   /\ parse_int (lower (strip line0)) = Some (Z.of_nat (S k))).
  { intros H. destruct (IH _ _ H) as (rej & l0 & k & -> & Hk & Hn & Hp).
    exists (line :: rej), l0, k. split; [reflexivity|]. split; [exact Hk|].
    split; [exact Hn|exact Hp]. }
  destruct (parse_int (lower (strip line))) as [n|] eqn:Ep; [|exact Hrec].
  destruct ((1 <=? n)%Z && (n <=? Z.min (Z.of_nat (List.length matches)) 10)%Z) eqn:Er;
    [|exact Hrec].
  apply andb_true_iff in Er as [H1 H2]. apply Z.leb_le in H1, H2.
  unfold list_index.
  destruct (Z.ltb_spec (n - 1) 0); [lia|].
  destruct (Z.ltb_spec (n - 1) 0); [lia|].
  destruct (nth_error matches (Z.to_nat (n - 1))) as [x|] eqn:E; cbn [bind ret raise];
    [|discriminate].
  intros Hx; injection Hx as <- <-.
  exists [], line, (Z.to_nat (n - 1)). split; [reflexivity|]. split; [lia|].
  split; [exact E|]. rewrite Ep. f_equal. lia.
Qed.

Lemma select_loop_error (matches : list candidate) :
  forall input e,
    select_loop matches input = inl e ->
    e = EOFError /\ Forall (fun line => ~ is_skip line) input.
Proof.
  induction input as [|line input IH]; intros e.
  - cbn [select_loop raise]. intros H; injection H as <-. split; [reflexivity|constructor].
  - cbn [select_loop].
    destruct (text_eqb (lower (strip line)) (str "s")) eqn:Es; [discriminate|].
    assert (Hn : ~ is_skip line).
    { unfold is_skip. intros H. apply text_eqb_eq in H. congruence. }
    assert (Hrec : select_loop matches input = inl e ->
                   e = EOFError /\ Forall (fun line => ~ is_skip line) (line :: input)).
    { intros H. destruct (IH _ H) as [-> Hf]. split; [reflexivity|]. constructor; assumption. }
    destruct (parse_int (lower (strip line))) as [n|] eqn:Ep; [|exact Hrec].
    destruct ((1 <=? n)%Z && (n <=? Z.min (Z.of_nat (List.length matches)) 10)%Z) eqn:Er;
      [|exact Hrec].
    apply andb_true_iff in Er as [H1 H2]. apply Z.leb_le in H1, H2.
    unfold list_index.
    destruct (Z.ltb_spec (n - 1) 0); [lia|].
    destruct (Z.ltb_spec (n - 1) 0); [lia|].
    destruct (nth_error matches (Z.to_nat (n - 1))) as [x|] eqn:E; cbn [bind ret raise];
      [discriminate|].
    apply nth_error_None in E. lia.
Qed.

(** X12 ([interactive_search]): a candidate that the interactive search
    returns is one of the first ten of the loose ranking, at the position
    that the accepted line of input names, and the lines of input up to
    that line are consumed; the lines of input are Latin-1 text of 4300
    characters at most. *)
Theorem interactive_choice_is_in_the_shortlist (a t : text) (lib : library) (p : text)
    (input : stdin) (m : candidate) (input' : stdin) :
  Forall plain_line input ->
  interactive_search a t lib p input = inr (Some m, input') ->
  exists matches rejected line k,
    find_best_matches a t lib p loose = inr matches
    /\ input = rejected ++ line :: input'
    /\ (k < 10)%nat /\ nth_error matches k = Some m
    /\ parse_int (lower (strip line)) = Some (Z.of_nat (S k)).
Proof.
  intros _. unfold interactive_search.
  destruct (find_best_matches a t lib p loose) as [e|matches]; cbn [bind]; [discriminate|].
  intros H.
  assert (Hs : select_loop matches input = inr (Some m, input')).
  { destruct matches; [discriminate|exact H]. }
  destruct (select_loop_some _ _ _ _ Hs) as (rej & line & k & Hi & Hk & Hn & Hp).
  exists matches, rej, line, k. split; [reflexivity|]. split; [exact Hi|].
  split; [exact Hk|]. split; [exact Hn|exact Hp].
Qed.

Lemma interactive_choice_is_in_the_shortlist_witness :
  exists matches rejected line k,
    find_best_matches (str "Queen") (str "Bohemian Rhapsody") library_two_artists music loose
    = inr matches
    /\ [str "x"; str "0"; str " 1 "; str "2"] = rejected ++ line :: [str "2"]
    /\ (k < 10)%nat /\ nth_error matches k = Some example_best
    /\ parse_int (lower (strip line)) = Some (Z.of_nat (S k)).
Proof.
  apply (interactive_choice_is_in_the_shortlist (str "Queen") (str "Bohemian Rhapsody")
           library_two_artists music [str "x"; str "0"; str " 1 "; str "2"]
           example_best [str "2"]).
  - repeat (constructor; [split; [repeat constructor|cbn; lia]|]). constructor.
  - vm_compute. reflexivity.
Defined.

(** X13 ([interactive_search]): on lines of Latin-1 text of 4300
    characters at most, the selection by position never raises
    [IndexError]; [NotADirectoryError] leaves the interactive search only
    when the library path names a file, and [EOFError] only when the input
    ends with no line that skips. *)
Theorem interactive_search_exceptions (a t : text) (lib : library) (p : text)
    (input : stdin) :
  Forall plain_line input ->
  interactive_search a t lib p input <> inl IndexError
  /\ (interactive_search a t lib p input = inl NotADirectoryError -> lib = Some File)
  /\ (interactive_search a t lib p input = inl EOFError ->
      Forall (fun line => ~ is_skip line) input).
Proof.
  intros _.
  assert (H : forall e, interactive_search a t lib p input = inl e ->
                        e = PermissionError
                        \/ (e = NotADirectoryError /\ lib = Some File)
                        \/ (e = EOFError /\ Forall (fun line => ~ is_skip line) input)).
  { intros e. unfold interactive_search.
    destruct (find_best_matches a t lib p loose) as [e'|matches] eqn:E; cbn [bind].
    - intros H; injection H as <-.
      destruct (find_best_matches_error _ _ _ _ _ _ E) as [H|H];
        [left; exact H|right; left; exact H].
    - intros H. right; right.
      assert (Hs : select_loop matches input = inl e).
      { destruct matches; [discriminate|exact H]. }
      exact (select_loop_error _ _ _ Hs). }
  split; [|split].
  - intros E. destruct (H _ E) as [X|[[X _]|[X _]]]; discriminate.
  - intros E. destruct (H _ E) as [X|[[_ X]|[X _]]]; [discriminate|exact X|discriminate].
  - intros E. destruct (H _ E) as [X|[[X _]|[_ X]]]; [discriminate|discriminate|exact X].
Qed.

Lemma interactive_search_exceptions_witness :
  interactive_search (str "Q") (str "Bohemian Rhapsody") library_two_artists music
    [str "11"; str "skip"] = inl EOFError
  /\ Forall (fun line => ~ is_skip line) [str "11"; str "skip"].
Proof.
  assert (Hin : Forall plain_line [str "11"; str "skip"]).
  { repeat (constructor; [split; [repeat constructor|cbn; lia]|]). constructor. }
  assert (E : interactive_search (str "Q") (str "Bohemian Rhapsody") library_two_artists
                music [str "11"; str "skip"] = inl EOFError) by (vm_compute; reflexivity).
  split; [exact E|].
  exact (proj2 (proj2 (interactive_search_exceptions (str "Q") (str "Bohemian Rhapsody")
                         library_two_artists music [str "11"; str "skip"] Hin)) E).
Defined.

(* ================================================================== *)
(** * What the interactive list shows *)

Local Open Scope float_scope.

Lemma leb_ltb_false (m x : float) : (m <=? x) = true -> (x <? m) = false.
Proof.
  intros H.
  destruct (compare_cases x m) as [[_ [? _]]|[Hnx [_ [[Hlt _]|[[_ [? _]]|[_ [? _]]]]]]];
    try assumption.
  exfalso.
  destruct (compare_cases m x) as [[_ [_ [? _]]]|[_ [_ [[Hlt' _]|[[Heq _]|[_ [_ [? _]]]]]]]];
    try congruence.
  - exact (lt3_asym _ _ Hlt Hlt').
  - rewrite Heq in Hlt. exact (lt3_irrefl _ Hlt).
Qed.

Lemma search_with_fallback_none (a t : text) (lib : library) (p : text) :
  search_with_fallback a t lib p = inr None ->
  find_best_matches a t lib p stage3 = inr [].
Proof.
  unfold search_with_fallback.
  destruct (find_best_matches a t lib p stage1) as [e|[|m1 L1]]; cbn [bind ret];
    [discriminate| |discriminate].
  destruct (find_best_matches a t lib p stage2) as [e|[|m2 L2]]; cbn [bind ret];
    [discriminate| |discriminate].
  destruct (find_best_matches a t lib p stage3) as [e|[|m3 L3]]; cbn [bind ret];
    [discriminate|reflexivity|discriminate].
Qed.

(** X14 ([main], [interactive_search]): a candidate offered in the
    interactive round, which handles the tracks that the automatic search
    did not resolve, does not clear the three floors of the loosest
    automatic stage together: combined score 0.5, artist folder similarity
    0.4, title similarity 0.5. *)
Theorem interactive_candidates_failed_the_automatic_stages (a t : text) (lib : library)
    (p : text) (matches : list candidate) (m : candidate) :
  search_with_fallback a t lib p = inr None ->
  find_best_matches a t lib p loose = inr matches ->
  In m matches ->
  (0.5 <=? combined (artist_sim m)
             (similarity (normalize_text a) (normalize_text (artist m)))
             (title_sim m))
  && (0.4 <=? artist_sim m) && (0.5 <=? title_sim m) = false.
Proof.
  intros Hnone Hloose Hin.
  apply search_with_fallback_none in Hnone.
  apply find_best_matches_scan in Hnone as [D3 [HD3 Hs3]].
  assert (HD3nil : D3 = []).
  { apply Permutation_nil. rewrite Hs3. apply Permutation_sym, sort_matches_perm. }
  subst D3.
  apply find_best_matches_scan in Hloose as [D [HD ->]].
  apply (Permutation_in _ (Permutation_sym (sort_matches_perm D))) in Hin.
  apply (scan_In _ _ _ _ _ _ m HD) in Hin as (artists & Hlib & Hhit).
  destruct Hhit as (artist_dir & albums & Ha & _ & Hal).
  destruct Hal as (album_dir & files & Hb & Hf).
  destruct Hf as (file & n & Hc & Haud & Hs).
  destruct (_ && _) eqn:E; [exfalso|reflexivity].
  apply andb_true_iff in E as [E E3]. apply andb_true_iff in E as [E1 E2].
  assert (Hin3 : In m []).
  { apply (scan_In _ _ _ _ _ _ m HD3). exists artists. split; [exact Hlib|].
    apply score_file_spec in Hs.
    destruct (parse_filename artist_dir file) as [fa ft] eqn:Ep.
    destruct Hs as [_ Hm]. subst m. cbn [artist artist_sim title_sim] in E1, E2, E3.
    exists artist_dir, albums. split; [exact Ha|].
    split; [apply leb_ltb_false; exact E2|].
    exists album_dir, files. split; [exact Hb|].
    exists file, n. split; [exact Hc|]. split; [exact Haud|].
    apply score_file_spec. rewrite Ep. split; [|reflexivity].
    split; [exact E1|]. split; [exact E2|exact E3]. }
  destruct Hin3.
Qed.

Lemma interactive_candidates_failed_the_automatic_stages_witness :
  (0.5 <=? combined (artist_sim example_offer)
             (similarity (normalize_text (str "Q")) (normalize_text (artist example_offer)))
             (title_sim example_offer))
  && (0.4 <=? artist_sim example_offer) && (0.5 <=? title_sim example_offer) = false.
Proof.
  apply (interactive_candidates_failed_the_automatic_stages (str "Q")
           (str "Bohemian Rhapsody") library_two_artists music example_offers
           example_offer).
  - vm_compute. reflexivity.
  - vm_compute. reflexivity.
  - left. reflexivity.
Defined.

Local Close Scope float_scope.

(* ================================================================== *)
(** * The two rounds *)

Lemma first_round_count (lib : library) (p : text) :
  forall tracks f nf F NF,
    first_round lib p tracks f nf = inr (F, NF) ->
    (List.length F + List.length NF
     = List.length f + List.length nf + List.length tracks)%nat
    /\ forall q, In q NF -> In q nf \/ In q tracks.
Proof.
  induction tracks as [|[a t] tracks IH]; intros f nf F NF; cbn [first_round].
  - intros H. injection H as <- <-. split; [cbn; lia|]. intros q Hq. left. exact Hq.
  - destruct (search_with_fallback a t lib p) as [e|[m|]]; cbn [bind]; [discriminate| |].
    + intros H. destruct (IH _ _ _ _ H) as [Hl Hi]. split.
      * rewrite Hl, length_app. cbn [List.length]. lia.
      * intros q Hq. destruct (Hi q Hq) as [?|?]; [left; assumption|right; right; assumption].
    + intros H. destruct (IH _ _ _ _ H) as [Hl Hi]. split.
      * rewrite Hl, length_app. cbn [List.length]. lia.
      * intros q Hq. destruct (Hi q Hq) as [Hq'|?]; [|right; right; assumption].
        apply in_app_or in Hq' as [?|[<-|[]]]; [left; assumption|right; left; reflexivity].
Qed.

Lemma second_round_count (lib : library) (p : text) :
  forall missing f nf input F NF input',
    second_round lib p missing f nf input = inr (F, NF, input') ->
    (List.length F + List.length NF
     = List.length f + List.length nf + List.length missing)%nat
    /\ forall q, In q NF -> In q nf \/ In q missing.
Proof.
  induction missing as [|[a t] missing IH]; intros f nf input F NF input'; cbn [second_round].
  - intros H. injection H as <- <- <-. split; [cbn; lia|]. intros q Hq. left. exact Hq.
  - destruct (interactive_search a t lib p input) as [e|[[m|] input1]]; cbn [bind];
      [discriminate| |].
    + intros H. destruct (IH _ _ _ _ _ _ H) as [Hl Hi]. split.
      * rewrite Hl, length_app. cbn [List.length]. lia.
      * intros q Hq. destruct (Hi q Hq) as [?|?]; [left; assumption|right; right; assumption].
    + intros H. destruct (IH _ _ _ _ _ _ H) as [Hl Hi]. split.
      * rewrite Hl, length_app. cbn [List.length]. lia.
      * intros q Hq. destruct (Hi q Hq) as [Hq'|?]; [|right; right; assumption].
        apply in_app_or in Hq' as [?|[<-|[]]]; [left; assumption|right; left; reflexivity].
Qed.

Lemma resolve_tracks_count (lib : library) (p : text) (tracks : list track)
    (input : stdin) (found_tracks : list text) (final_not_found : list track)
    (input' : stdin) :
  resolve_tracks lib p tracks input = inr (found_tracks, final_not_found, input') ->
  (List.length found_tracks + List.length final_not_found = List.length tracks)%nat
  /\ forall q, In q final_not_found -> In q tracks.
Proof.
  unfold resolve_tracks.
  destruct (first_round lib p tracks [] []) as [e|[F NF]] eqn:E1; cbn [bind]; [discriminate|].
  intros E2. destruct (first_round_count _ _ _ _ _ _ _ E1) as [H1 I1].
  destruct (second_round_count _ _ _ _ _ _ _ _ _ E2) as [H2 I2].
  cbn [List.length] in H1, H2. split; [lia|].
  intros q Hq. destruct (I2 q Hq) as [[]|Hq']. destruct (I1 q Hq') as [[]|?]. assumption.
Qed.

(** X15 ([main], the two rounds): when both rounds complete, every track of
    the playlist is counted once: the number of paths found plus the number
    of tracks reported as not found is the number of tracks, and every
    track reported as not found is a track of the playlist. *)
Theorem every_track_is_found_or_reported (lib : library) (p : text)
    (tracks : list track) (input : stdin) (found_tracks : list text)
    (final_not_found : list track) (input' : stdin) :
  resolve_tracks lib p tracks input = inr (found_tracks, final_not_found, input') ->
  (List.length found_tracks + List.length final_not_found = List.length tracks)%nat
  /\ forall q, In q final_not_found -> In q tracks.
Proof. exact (resolve_tracks_count lib p tracks input found_tracks final_not_found input'). Qed.

Lemma every_track_is_found_or_reported_witness :
  (List.length [waterloo_mp3] + List.length [(str "Q", str "Bohemian Rhapsody")]
   = List.length playlist_q_then_abba)%nat
  /\ forall q, In q [(str "Q", str "Bohemian Rhapsody")] -> In q playlist_q_then_abba.
Proof.
  apply (every_track_is_found_or_reported library_two_artists music playlist_q_then_abba
           [str "s"] [waterloo_mp3] [(str "Q", str "Bohemian Rhapsody")] []).
  vm_compute. reflexivity.
Defined.

Lemma first_round_missing_library (p : text) :
  forall tracks f nf, first_round None p tracks f nf = inr (f, nf ++ tracks).
Proof.
  induction tracks as [|[a t] tracks IH]; intros f nf; cbn [first_round].
  - rewrite app_nil_r. reflexivity.
  - change (search_with_fallback a t None p) with (@inr exn _ (@None candidate)).
    cbn [bind]. rewrite IH, <- app_assoc. reflexivity.
Qed.

Lemma second_round_missing_library (p : text) :
  forall missing f nf input,
    second_round None p missing f nf input = inr (f, nf ++ missing, input).
Proof.
  induction missing as [|[a t] missing IH]; intros f nf input; cbn [second_round].
  - rewrite app_nil_r. reflexivity.
  - change (interactive_search a t None p input)
      with (@inr exn _ (@None candidate, input)).
    cbn [bind]. rewrite IH, <- app_assoc. reflexivity.
Qed.

(** X16 ([find_best_matches], [main]): when the library path does not
    exist, no search raises and no line of input is read: the two rounds
    find nothing and report every track of the playlist, in order. *)
Theorem missing_library_finds_nothing (p : text) (tracks : list track) (input : stdin) :
  resolve_tracks None p tracks input = inr ([], tracks, input).
Proof.
  unfold resolve_tracks. rewrite first_round_missing_library. cbn [bind app].
  rewrite second_round_missing_library. reflexivity.
Qed.

(** X17 ([find_best_matches], [main]): a library path that names a file
    passes for a path that exists, and so does a directory that may not be
    listed; with either, the search of the first track raises
    [NotADirectoryError] or [PermissionError] and the rounds return
    nothing. *)
Theorem unusable_library_aborts_the_run (p : text) (tracks : list track) (input : stdin) :
  tracks <> [] ->
  resolve_tracks (Some File) p tracks input = inl NotADirectoryError
  /\ resolve_tracks (Some (Dir None)) p tracks input = inl PermissionError.
Proof.
  intros Hn. destruct tracks as [|[a t] tracks]; [contradiction Hn; reflexivity|].
  split; reflexivity.
Qed.

Lemma unusable_library_aborts_the_run_witness :
  resolve_tracks (Some File) music playlist_q_then_abba [] = inl NotADirectoryError
  /\ resolve_tracks (Some (Dir None)) music playlist_q_then_abba [] = inl PermissionError.
Proof.
  apply (unusable_library_aborts_the_run music playlist_q_then_abba []). discriminate.
Defined.

Lemma first_round_aborts (lib : library) (p : text) :
  forall tracks f nf q e,
    In q tracks -> search_with_fallback (fst q) (snd q) lib p = inl e ->
    exists e', first_round lib p tracks f nf = inl e'.
Proof.
  induction tracks as [|[a t] tracks IH]; intros f nf q e Hin He; [destruct Hin|].
  cbn [first_round]. destruct Hin as [<-|Hin].
  - cbn [fst snd] in He. rewrite He. exists e. reflexivity.
  - destruct (search_with_fallback a t lib p) as [e0|[m|]]; cbn [bind].
    + exists e0. reflexivity.
    + exact (IH _ _ _ _ Hin He).
    + exact (IH _ _ _ _ Hin He).
Qed.

(** X18 ([main], the first round): when the automatic search of one track
    of the playlist raises, the two rounds raise: no path is returned, also
    not those of the tracks found before. *)
Theorem one_failing_search_aborts_the_run (lib : library) (p : text)
    (tracks : list track) (input : stdin) (q : track) (e : exn) :
  In q tracks -> search_with_fallback (fst q) (snd q) lib p = inl e ->
  exists e', resolve_tracks lib p tracks input = inl e'.
Proof.
  intros Hin He. destruct (first_round_aborts lib p tracks [] [] q e Hin He) as [e' H].
  exists e'. unfold resolve_tracks. rewrite H. reflexivity.
Qed.

Lemma one_failing_search_aborts_the_run_witness :
  exists e', resolve_tracks library_locked_album music
               [(str "ABBA", str "Waterloo"); (str "Queen", str "Bohemian Rhapsody")]
               [] = inl e'.
Proof.
  apply (one_failing_search_aborts_the_run library_locked_album music
           [(str "ABBA", str "Waterloo"); (str "Queen", str "Bohemian Rhapsody")] []
           (str "Queen", str "Bohemian Rhapsody") PermissionError).
  - right. left. reflexivity.
  - vm_compute. reflexivity.
Defined.

(* ================================================================== *)
(** * Splitting at the separator *)

Lemma split_once_before (t sep a b : text) :
  sep <> [] -> split_once t sep = Some (a, b) -> contains a sep = false.
Proof.
  intros Hs H. apply split_once_spec in H as [-> Hf].
  destruct (contains a sep) eqn:E; [|reflexivity].
  apply contains_spec in E as (u & v & ->).
  specialize (Hf u (v ++ sep ++ b)). rewrite <- !app_assoc in Hf.
  specialize (Hf eq_refl). rewrite !length_app in Hf.
  destruct sep; [contradiction Hs; reflexivity|]. cbn [List.length] in Hf. lia.
Qed.

Lemma separator_nonempty : str " - " <> [].
Proof. discriminate. Qed.

(** X19 ([find_best_matches], the parsing of a file name): the name without
    its extension and its track number either has no [" - "], and then the
    artist is the name of the artist folder and the title is that name, or
    it is the artist, [" - "] and the title, the artist being the text
    before the first [" - "]. *)
Theorem parse_filename_cuts_at_first_separator (artist_dir file : text) :
  let filename_clean := re_sub_anchored track_number (splitext_root file) in
  (contains filename_clean (str " - ") = false
   /\ parse_filename artist_dir file = (artist_dir, filename_clean))
  \/ (exists file_artist file_title,
        parse_filename artist_dir file = (file_artist, file_title)
        /\ filename_clean = file_artist ++ str " - " ++ file_title
        /\ contains file_artist (str " - ") = false).
Proof.
  intros filename_clean. unfold parse_filename. fold filename_clean.
  destruct (contains filename_clean (str " - ")) eqn:E; [right|left; split; reflexivity].
  pose proof (split_once_contains _ _ E) as Hn.
  destruct (split_once filename_clean (str " - ")) as [[fa ft]|] eqn:S;
    [|contradiction Hn; reflexivity].
  exists fa, ft. split; [reflexivity|]. split.
  - exact (proj1 (split_once_spec _ _ _ _ S)).
  - exact (split_once_before _ _ _ _ separator_nonempty S).
Qed.

(* ================================================================== *)
(** * File names with a track number *)

Lemma rfind_fold_fst (c : char) (t : text) :
  forall i fo,
    fst (fold_left (fun '(i, found) x => ((i + 1)%Z, if (x =? c)%N then i else found))
                   t (i, fo))
    = (i + Z.of_nat (List.length t))%Z.
Proof.
  induction t as [|x t IH]; intros i fo; cbn [fold_left List.length fst].
  - lia.
  - rewrite IH. lia.
Qed.

Lemma rfind_fold_absent (c : char) (t : text) :
  ~ In c t ->
  forall i fo,
    snd (fold_left (fun '(i, found) x => ((i + 1)%Z, if (x =? c)%N then i else found))
                   t (i, fo))
    = fo.
Proof.
  induction t as [|x t IH]; intros H i fo; cbn [fold_left snd]; [reflexivity|].
  destruct (N.eqb_spec x c) as [->|_]; [contradiction H; left; reflexivity|].
  apply IH. intros Hin. apply H. right. exact Hin.
Qed.

Lemma rfind_absent (c : char) (t : text) : ~ In c t -> rfind c t = (-1)%Z.
Proof. intros H. unfold rfind. apply rfind_fold_absent. exact H. Qed.

Lemma rfind_last (c : char) (a b : text) :
  ~ In c b -> rfind c (a ++ c :: b) = Z.of_nat (List.length a).
Proof.
  intros H. unfold rfind. rewrite fold_left_app.
  set (st := fold_left _ a _).
  assert (Hf : fst st = (0 + Z.of_nat (List.length a))%Z)
    by exact (rfind_fold_fst c a 0 (-1)).
  destruct st as [i fo]. cbn [fst] in Hf. subst i.
  cbn [fold_left]. rewrite N.eqb_refl.
  etransitivity; [exact (rfind_fold_absent c b H _ _)|lia].
Qed.

Lemma splitext_root_extension (root ext : text) (d : char) (r : text) :
  root = d :: r -> d <> 0x2E%N ->
  ~ In 0x2F%N (root ++ 0x2E%N :: ext) -> ~ In 0x2E%N ext ->
  splitext_root (root ++ 0x2E%N :: ext) = root.
Proof.
  intros Hr Hd Hs He. unfold splitext_root.
  rewrite (rfind_absent _ _ Hs), (rfind_last _ _ _ He).
  destruct (Z.ltb_spec (-1) (Z.of_nat (List.length root))); [|lia].
  replace (Z.to_nat (-1 + 1)) with 0%nat by lia. cbn [skipn].
  replace (Z.to_nat (Z.of_nat (List.length root) - (-1 + 1))) with (List.length root) by lia.
  rewrite Nat2Z.id.
  rewrite firstn_app, firstn_all, Nat.sub_diag. cbn [firstn]. rewrite app_nil_r.
  rewrite Hr at 1. cbn [forallb]. unfold only at 1.
  destruct (N.eqb_spec d 0x2E%N) as [E|_]; [contradiction|]. reflexivity.
Qed.

Lemma re_match_star_blank (s : text) :
  re_match [Star isspace] s = Some (lstrip s).
Proof.
  induction s as [|c s IH]; [reflexivity|].
  rewrite re_match_star_cons. cbn [lstrip]. destruct (isspace c); [|reflexivity].
  rewrite IH. reflexivity.
Qed.

Lemma re_match_star_all (cls : char -> bool) (r : regex) (pre s rest : text) :
  Forall (fun c => cls c = true) pre ->
  re_match (Star cls :: r) s = Some rest ->
  re_match (Star cls :: r) (pre ++ s) = Some rest.
Proof.
  intros Hp Hs. induction Hp as [|c pre Hc _ IH]; [exact Hs|].
  cbn [app]. rewrite re_match_star_cons, Hc, IH. reflexivity.
Qed.

Lemma re_match_star_stop (cls : char -> bool) (r : regex) (c : char) (s : text) :
  cls c = false -> re_match (Star cls :: r) (c :: s) = re_match r (c :: s).
Proof. intros H. rewrite re_match_star_cons, H. reflexivity. Qed.

Lemma track_number_removed (digits sp1 sp2 name : text) (c : char) :
  digits <> [] -> Forall (fun d => isdigit d = true) digits ->
  Forall (fun x => isspace x = true) sp1 ->
  c = 0x2D%N \/ c = 0x2E%N ->
  Forall (fun x => isspace x = true) sp2 ->
  re_sub_anchored track_number (digits ++ sp1 ++ c :: sp2 ++ name) = lstrip name.
Proof.
  intros Hn Hd H1 Hc H2. unfold re_sub_anchored, track_number, plus.
  destruct Hd as [|d digits Hd Hds]; [contradiction Hn; reflexivity|].
  cbn [app]. rewrite re_match_one_cons, Hd.
  assert (Hrest : re_match [Star isspace; One (fun c => (c =? 0x2D)%N || (c =? 0x2E)%N);
                            Star isspace] (sp1 ++ c :: sp2 ++ name)
                  = Some (lstrip name)).
  { apply re_match_star_all; [exact H1|].
    rewrite re_match_star_stop by (destruct Hc as [-> | ->]; reflexivity).
    rewrite re_match_one_cons.
    replace ((c =? 0x2D)%N || (c =? 0x2E)%N) with true
      by (destruct Hc as [-> | ->]; reflexivity).
    rewrite re_match_star_blank, lstrip_app, (lstrip_blank sp2 H2). reflexivity. }
  assert (Hstop : re_match (Star isdigit :: [Star isspace;
                              One (fun c => (c =? 0x2D)%N || (c =? 0x2E)%N); Star isspace])
                           (sp1 ++ c :: sp2 ++ name) = Some (lstrip name)).
  { destruct H1 as [|x sp1 Hx H1].
    - cbn [app] in *. rewrite re_match_star_stop; [exact Hrest|].
      destruct Hc as [-> | ->]; reflexivity.
    - cbn [app] in *. rewrite re_match_star_stop; [exact Hrest|].
      clear - Hx. unfold isspace, isdigit in *.
      destruct (N.leb_spec 0x30 x); [|reflexivity].
      destruct (N.leb_spec x 0x39); [|reflexivity]. exfalso.
      repeat (apply orb_true_iff in Hx as [Hx|Hx]);
        repeat (apply andb_true_iff in Hx as [? Hx]);
        repeat match goal with
               | H : (_ <=? _)%N = true |- _ => apply N.leb_le in H
               | H : (_ =? _)%N = true |- _ => apply N.eqb_eq in H
               end; unfold char in *; lia. }
  cbn [app]. rewrite (re_match_star_all isdigit _ digits _ _ Hds Hstop). reflexivity.
Qed.

(** X20 ([find_best_matches], the parsing of a file name): a file name
    made of a track number, optional white space, a hyphen or a full stop,
    optional white space, a title without [" - "] and an extension is
    parsed as the name of the artist folder and the title: the number, the
    separator and the extension are removed.  The file name is Latin-1
    text. *)
Theorem numbered_file_name_is_parsed (artist_dir digits sp1 sp2 name ext : text)
    (c : char) :
  latin1 (digits ++ sp1 ++ c :: sp2 ++ name ++ 0x2E%N :: ext) ->
  digits <> [] -> Forall (fun d => isdigit d = true) digits ->
  Forall (fun x => isspace x = true) sp1 ->
  c = 0x2D%N \/ c = 0x2E%N ->
  Forall (fun x => isspace x = true) sp2 ->
  contains (lstrip name) (str " - ") = false ->
  ~ In 0x2F%N (digits ++ sp1 ++ c :: sp2 ++ name ++ 0x2E%N :: ext) ->
  ~ In 0x2E%N ext ->
  parse_filename artist_dir (digits ++ sp1 ++ c :: sp2 ++ name ++ 0x2E%N :: ext)
  = (artist_dir, lstrip name).
Proof.
  intros _ Hn Hd H1 Hc H2 Hsep Hslash Hext.
  assert (Hfile : digits ++ sp1 ++ c :: sp2 ++ name ++ 0x2E%N :: ext
                  = (digits ++ sp1 ++ c :: sp2 ++ name) ++ 0x2E%N :: ext).
  { repeat (rewrite <- app_assoc || rewrite <- app_comm_cons). reflexivity. }
  rewrite Hfile in *. unfold parse_filename.
  destruct digits as [|d digits]; [contradiction Hn; reflexivity|].
  rewrite (splitext_root_extension _ ext d (digits ++ sp1 ++ c :: sp2 ++ name));
    [|reflexivity| |exact Hslash|exact Hext].
  - rewrite (track_number_removed (d :: digits) sp1 sp2 name c Hn Hd H1 Hc H2), Hsep.
    reflexivity.
  - inversion Hd as [|? ? Hdd _]; subst. intros ->. discriminate.
Qed.

Lemma numbered_file_name_is_parsed_witness :
  parse_filename (str "Queen")
    (str "11" ++ str " " ++ 0x2D%N :: str " " ++ str "Bohemian Rhapsody"
     ++ 0x2E%N :: str "flac")
  = (str "Queen", lstrip (str "Bohemian Rhapsody")).
Proof.
  apply (numbered_file_name_is_parsed (str "Queen") (str "11") (str " ") (str " ")
           (str "Bohemian Rhapsody") (str "flac") 0x2D%N).
  - repeat constructor.
  - discriminate.
  - repeat constructor.
  - repeat constructor.
  - left. reflexivity.
  - repeat constructor.
  - vm_compute. reflexivity.
  - intros H. vm_compute in H. repeat (destruct H as [H|H]; [discriminate|]). exact H.
  - intros H. vm_compute in H. repeat (destruct H as [H|H]; [discriminate|]). exact H.
Defined.

(* ================================================================== *)
(** * Reading a playlist *)

Lemma lstrip_nil_blank (t : text) :
  lstrip t = [] -> Forall (fun c => isspace c = true) t.
Proof.
  induction t as [|c t IH]; [constructor|]. cbn [lstrip].
  destruct (isspace c) eqn:E; [|discriminate]. intros H. constructor; [exact E|exact (IH H)].
Qed.

Lemma strip_nil_blank (t : text) :
  strip t = [] -> Forall (fun c => isspace c = true) t.
Proof.
  unfold strip. intros H. apply lstrip_nil_blank.
  destruct (rstrip_split (lstrip t)) as (w & Hw & Hb). rewrite H in Hw. cbn [app] in Hw.
  destruct (lstrip t) as [|c r] eqn:E; [reflexivity|].
  apply lstrip_head in E. rewrite <- Hw in Hb. inversion Hb; subst. congruence.
Qed.

Lemma lstrip_split (t : text) :
  exists w, t = w ++ lstrip t /\ Forall (fun c => isspace c = true) w.
Proof.
  induction t as [|c t (w & Hw & Hb)]; [exists []; split; [reflexivity|constructor]|].
  cbn [lstrip]. destruct (isspace c) eqn:E.
  - exists (c :: w). split; [cbn [app]; rewrite <- Hw; reflexivity|constructor; assumption].
  - exists []. split; [reflexivity|constructor].
Qed.

Lemma strip_split (t : text) :
  exists w1 w2, t = w1 ++ strip t ++ w2.
Proof.
  destruct (lstrip_split t) as (w1 & H1 & _).
  destruct (rstrip_split (lstrip t)) as (w2 & H2 & _).
  exists w1, w2. unfold strip. rewrite <- H2. exact H1.
Qed.

Lemma ends_nonspace_last (t : text) :
  ends_nonspace t -> exists u c, t = u ++ [c] /\ isspace c = false.
Proof.
  induction 1 as [c Hc|c t _ (u & d & -> & Hd)].
  - exists [], c. split; [reflexivity|exact Hc].
  - exists (c :: u), d. split; [reflexivity|exact Hd].
Qed.

Lemma ends_nonspace_inv_app (u t : text) :
  t <> [] -> ends_nonspace (u ++ t) -> ends_nonspace t.
Proof.
  intros Ht H. apply ends_nonspace_last in H as (v & c & Hv & Hc).
  destruct (exists_last Ht) as (t' & d & ->).
  rewrite app_assoc in Hv. apply app_inj_tail in Hv as [_ ->].
  apply ends_nonspace_app. exact Hc.
Qed.

Lemma ends_nonspace_strip (t : text) : ends_nonspace t -> strip t <> [].
Proof.
  intros H Hs. apply strip_nil_blank in Hs.
  apply ends_nonspace_last in H as (u & c & -> & Hc).
  apply Forall_app in Hs as [_ Hs]. inversion Hs; subst. congruence.
Qed.

Lemma text_track_trimmed (line a t : text) :
  text_track line = Some (a, t) ->
  a <> [] /\ t <> [] /\ strip a = a /\ strip t = t
  /\ contains a (str " - ") = false.
Proof.
  unfold text_track. destruct (strip_shape line) as [Hh He].
  destruct (strip line) as [|c l] eqn:El; [discriminate|].
  destruct He as [He|He]; [discriminate|].
  destruct (contains (c :: l) (str " - ")); [|discriminate].
  destruct (split_once (c :: l) (str " - ")) as [[x y]|] eqn:S; [|discriminate].
  intros H; injection H as <- <-.
  pose proof (split_once_before _ _ _ _ separator_nonempty S) as Hx.
  apply split_once_spec in S as [S _].
  assert (Hxs : strip x <> []).
  { destruct x as [|d x].
    - change (str " - ") with [0x20; 0x2D; 0x20]%N in S. cbn [app] in S.
      injection S as -> _. discriminate.
    - cbn [app] in S. injection S as <- _.
      unfold strip. rewrite (lstrip_fixed _ _ Hh), (rstrip_cons_nonspace _ _ Hh). discriminate. }
  assert (Hys : strip y <> []).
  { apply ends_nonspace_strip. rewrite S in He.
    destruct y as [|d y].
    - apply ends_nonspace_last in He as (u & e & Hu & Hc).
      change (x ++ str " - " ++ []) with (x ++ [0x20; 0x2D; 0x20]%N) in Hu.
      change [0x20; 0x2D; 0x20]%N with ([0x20; 0x2D] ++ [0x20])%N in Hu.
      rewrite app_assoc in Hu. apply app_inj_tail in Hu as [_ <-]. discriminate.
    - rewrite app_assoc in He.
      apply (ends_nonspace_inv_app (x ++ str " - ") (d :: y)); [discriminate|exact He]. }
  split; [exact Hxs|]. split; [exact Hys|].
  split; [apply strip_idempotent|]. split; [apply strip_idempotent|].
  destruct (strip_split x) as (w1 & w2 & Hw). rewrite Hw in Hx.
  exact (contains_false_app _ _ _ _ Hx).
Qed.

Lemma first_cell_spec (cols : list text) (row : csv_row) (v : text) :
  first_cell cols row = Some v <->
  exists raw, first_filled cols row raw /\ v = strip raw.
Proof.
  unfold first_filled. induction cols as [|col cols IH]; cbn [first_cell].
  - split; [discriminate|]. intros (raw & (l1 & c & l2 & H & _) & _).
    destruct l1; discriminate.
  - destruct (cell row col) as [raw|] eqn:E.
    + split.
      * intros H; injection H as <-. exists raw. split; [|reflexivity].
        exists [], col, cols. split; [reflexivity|]. split; [constructor|exact E].
      * intros (raw' & (l1 & c & l2 & H & Hn & Hc) & ->).
        destruct l1 as [|c1 l1]; cbn [app] in H; injection H as <- _.
        -- rewrite E in Hc. injection Hc as <-. reflexivity.
        -- inversion Hn; subst. congruence.
    + rewrite IH. split.
      * intros (raw & (l1 & c & l2 & -> & Hn & Hc) & ->). exists raw. split; [|reflexivity].
        exists (col :: l1), c, l2. split; [reflexivity|]. split; [constructor; assumption|exact Hc].
      * intros (raw & (l1 & c & l2 & H & Hn & Hc) & ->). exists raw. split; [|reflexivity].
        destruct l1 as [|c1 l1]; cbn [app] in H; injection H as <- ->.
        -- congruence.
        -- inversion Hn; subst. exists l1, c, l2. split; [reflexivity|]. split; assumption.
Qed.

(** X21 ([read_playlist], CSV rows): a row gives a track exactly when
    one of the artist columns and one of the title columns hold a cell
    that is not empty and, for each of the two, the first such column in
    the order of the lists holds more than white space; the track is the
    two cells, stripped.  Columns further down the list are not consulted,
    also when the first cell is blank. *)
Theorem csv_row_gives_track (row : csv_row) (a t : text) :
  csv_track row = Some (a, t) <->
  exists raw_artist raw_title,
    first_filled artist_columns row raw_artist
    /\ first_filled title_columns row raw_title
    /\ a = strip raw_artist /\ t = strip raw_title
    /\ a <> [] /\ t <> [].
Proof.
  unfold csv_track. split.
  - destruct (first_cell artist_columns row) as [[|c x]|] eqn:Ea; [discriminate| |discriminate].
    destruct (first_cell title_columns row) as [[|d y]|] eqn:Et; [discriminate| |discriminate].
    intros H; injection H as <- <-.
    apply first_cell_spec in Ea as (ra & Ha & Hra).
    apply first_cell_spec in Et as (rt & Ht & Hrt).
    exists ra, rt. split; [exact Ha|]. split; [exact Ht|]. split; [exact Hra|].
    split; [exact Hrt|]. split; discriminate.
  - intros (ra & rt & Ha & Ht & -> & -> & Hna & Hnt).
    assert (Ea : first_cell artist_columns row = Some (strip ra))
      by (apply first_cell_spec; exists ra; split; [exact Ha|reflexivity]).
    assert (Et : first_cell title_columns row = Some (strip rt))
      by (apply first_cell_spec; exists rt; split; [exact Ht|reflexivity]).
    rewrite Ea, Et. destruct (strip ra); [contradiction Hna; reflexivity|].
    destruct (strip rt); [contradiction Hnt; reflexivity|]. reflexivity.
Qed.

Lemma csv_track_trimmed (row : csv_row) (a t : text) :
  csv_track row = Some (a, t) ->
  a <> [] /\ t <> [] /\ strip a = a /\ strip t = t.
Proof.
  unfold csv_track.
  destruct (first_cell artist_columns row) as [[|c x]|] eqn:Ea; [discriminate| |discriminate].
  destruct (first_cell title_columns row) as [[|d y]|] eqn:Et; [discriminate| |discriminate].
  intros H; injection H as <- <-.
  apply first_cell_spec in Ea as (ra & _ & Hra).
  apply first_cell_spec in Et as (rt & _ & Hrt).
  split; [discriminate|]. split; [discriminate|].
  rewrite Hra, Hrt. split; apply strip_idempotent.
Qed.

Lemma csv_tracks_Forall (P : track -> Prop) :
  (forall row q, csv_track row = Some q -> P q) ->
  forall rows tracks, Forall P tracks -> Forall P (csv_tracks rows tracks).
Proof.
  intros HP. induction rows as [|row rows IH]; intros tracks Ht; [exact Ht|].
  cbn [csv_tracks]. apply IH. destruct (csv_track row) as [q|] eqn:E; [|exact Ht].
  apply Forall_app. split; [exact Ht|]. constructor; [exact (HP _ _ E)|constructor].
Qed.

Lemma text_tracks_Forall (P : track -> Prop) :
  (forall line q, text_track line = Some q -> P q) ->
  forall lines tracks, Forall P tracks -> Forall P (text_tracks lines tracks).
Proof.
  intros HP. induction lines as [|line lines IH]; intros tracks Ht; [exact Ht|].
  cbn [text_tracks]. apply IH. destruct (text_track line) as [q|] eqn:E; [|exact Ht].
  apply Forall_app. split; [exact Ht|]. constructor; [exact (HP _ _ E)|constructor].
Qed.

(** X22 ([read_playlist]): whatever the format and whatever the file
    holds, every track read has an artist and a title that are not empty
    and have no white space at either end. *)
Theorem read_playlist_tracks_are_trimmed (file_path : text) (file : file_data)
    (tracks : list track) :
  read_playlist file_path file = inr tracks ->
  Forall (fun q => fst q <> [] /\ snd q <> []
                   /\ strip (fst q) = fst q /\ strip (snd q) = snd q) tracks.
Proof.
  set (P := fun q : track => fst q <> [] /\ snd q <> []
                             /\ strip (fst q) = fst q /\ strip (snd q) = snd q).
  assert (Hc : forall row q, csv_track row = Some q -> P q).
  { intros row [a t] H. exact (csv_track_trimmed _ _ _ H). }
  assert (Ht : forall line q, text_track line = Some q -> P q).
  { intros line [a t] H. destruct (text_track_trimmed _ _ _ H) as (H1 & H2 & H3 & H4 & _).
    repeat split; assumption. }
  assert (Htext : forall acc, Forall P acc ->
                    read_text_format file acc = inr tracks -> Forall P tracks).
  { intros acc Hacc. unfold read_text_format.
    destruct (content file) as [e|c]; cbn [bind ret]; [discriminate|].
    intros H; injection H as <-. apply text_tracks_Forall; assumption. }
  unfold read_playlist.
  destruct (endswith (lower file_path) (str ".csv")); [|apply Htext; constructor].
  destruct (csv_raises file).
  - apply Htext. apply csv_tracks_Forall; [exact Hc|constructor].
  - intros H; injection H as <-. apply csv_tracks_Forall; [exact Hc|constructor].
Qed.

Lemma read_playlist_tracks_are_trimmed_witness :
  Forall (fun q => fst q <> [] /\ snd q <> []
                   /\ strip (fst q) = fst q /\ strip (snd q) = snd q)
         playlist_q_then_abba.
Proof.
  apply (read_playlist_tracks_are_trimmed (str "list.txt") playlist_q_then_abba_txt).
  vm_compute. reflexivity.
Defined.

(** ** Writing tracks as lines and reading them back *)

Lemma split_char_line (sep : char) (l : text) :
  ~ In sep l -> split_char sep l = [l].
Proof.
  induction l as [|c l IH]; intros H; [reflexivity|]. cbn [split_char].
  destruct (N.eqb_spec c sep) as [->|_]; [contradiction H; left; reflexivity|].
  rewrite IH; [reflexivity|]. intros Hin. apply H. right. exact Hin.
Qed.

Lemma split_char_cons (sep : char) (l rest : text) :
  ~ In sep l -> split_char sep (l ++ sep :: rest) = l :: split_char sep rest.
Proof.
  induction l as [|c l IH]; intros H.
  - cbn [app split_char]. rewrite N.eqb_refl. reflexivity.
  - cbn [app split_char].
    destruct (N.eqb_spec c sep) as [->|_]; [contradiction H; left; reflexivity|].
    rewrite IH; [reflexivity|]. intros Hin. apply H. right. exact Hin.
Qed.

Lemma split_char_join (sep : char) (lines : list text) :
  sep = 0x0A%N -> lines <> [] -> Forall (fun l => ~ In sep l) lines ->
  split_char sep (join_lines lines) = lines.
Proof.
  intros -> Hn H. induction H as [|l lines Hl Hls IH]; [contradiction Hn; reflexivity|].
  destruct lines as [|l' lines].
  - cbn [join_lines]. apply split_char_line. exact Hl.
  - change (join_lines (l :: l' :: lines)) with (l ++ 0x0A%N :: join_lines (l' :: lines)).
    rewrite split_char_cons by exact Hl. rewrite IH; [reflexivity|discriminate].
Qed.

Lemma stripped_shape (t : text) :
  t <> [] -> strip t = t ->
  (exists c r, t = c :: r /\ isspace c = false) /\ ends_nonspace t.
Proof.
  intros Hn Hs. destruct (strip_shape t) as [Hh He]. rewrite Hs in Hh, He.
  destruct t as [|c r]; [contradiction Hn; reflexivity|].
  split; [exists c, r; split; [reflexivity|exact Hh]|].
  destruct He as [He|He]; [discriminate|exact He].
Qed.

Lemma playlist_line_shape (q : track) :
  writable q ->
  (exists c r, playlist_line q = c :: r /\ isspace c = false)
  /\ ends_nonspace (playlist_line q) /\ ~ In 0x0A%N (playlist_line q).
Proof.
  destruct q as [a t]. unfold writable, playlist_line. cbn [fst snd].
  intros (Ha & Sa & Na & _ & Ht & St & Nt).
  destruct (stripped_shape a Ha Sa) as [(c & r & -> & Hc) _].
  destruct (stripped_shape t Ht St) as [_ He].
  split; [exists c, (r ++ str " - " ++ t); split; [reflexivity|exact Hc]|].
  split.
  - apply ends_nonspace_app_r, ends_nonspace_app_r. exact He.
  - intros Hin. apply in_app_or in Hin as [Hin|Hin]; [exact (Na Hin)|].
    apply in_app_or in Hin as [Hin|Hin]; [|exact (Nt Hin)].
    vm_compute in Hin. repeat (destruct Hin as [Hin|Hin]; [discriminate|]). exact Hin.
Qed.

Lemma text_track_playlist_line (q : track) :
  writable q -> text_track (playlist_line q) = Some q.
Proof.
  intros Hq. destruct (playlist_line_shape q Hq) as ((c & r & Hl & Hc) & He & _).
  destruct q as [a t]. unfold writable in Hq. cbn [fst snd] in Hq.
  destruct Hq as (Ha & Sa & _ & Hsep & Ht & St & _).
  unfold text_track.
  assert (Hs : strip (playlist_line (a, t)) = playlist_line (a, t)).
  { apply strip_fixed; [rewrite Hl; exact Hc|right; exact He]. }
  rewrite Hs, Hl, <- Hl.
  assert (Hc' : contains (playlist_line (a, t)) (str " - ") = true).
  { apply contains_spec. exists a, t. reflexivity. }
  rewrite Hc'. unfold playlist_line. cbn [fst snd].
  rewrite split_once_first; [rewrite Sa, St; reflexivity|].
  intros x y Hxy. apply app_eq_app in Hxy as [l [[Hx Hy]|[Hx Hy]]].
  2:{ rewrite Hx, length_app. lia. }
  destruct l as [|l0 l]; [rewrite Hx, app_nil_r; lia|]. exfalso.
  change (str " - ") with [0x20; 0x2D; 0x20]%N in Hy. cbn [app] in Hy.
  injection Hy as <- Hy.
  destruct l as [|l1 l]; [cbn [app] in Hy; discriminate|].
  cbn [app] in Hy. injection Hy as <- Hy.
  assert (Hc2 : contains a (str " -") = true).
  { apply contains_spec. exists x, l. rewrite Hx. reflexivity. }
  congruence.
Qed.

Lemma text_tracks_lines (tracks : list track) :
  Forall writable tracks ->
  forall acc, text_tracks (map playlist_line tracks) acc = acc ++ tracks.
Proof.
  induction 1 as [|q tracks Hq _ IH]; intros acc; cbn [map text_tracks].
  - rewrite app_nil_r. reflexivity.
  - rewrite (text_track_playlist_line q Hq), IH, <- app_assoc. reflexivity.
Qed.

Lemma join_lines_shape (lines : list text) :
  lines <> [] ->
  Forall (fun l => (exists c r, l = c :: r /\ isspace c = false) /\ ends_nonspace l) lines ->
  (exists c r, join_lines lines = c :: r /\ isspace c = false)
  /\ ends_nonspace (join_lines lines).
Proof.
  intros Hn H. induction H as [|l lines [(c & r & -> & Hc) He] Hls IH];
    [contradiction Hn; reflexivity|].
  destruct lines as [|l' lines].
  - cbn [join_lines]. split; [exists c, r; split; [reflexivity|exact Hc]|exact He].
  - change (join_lines ((c :: r) :: l' :: lines))
      with ((c :: r) ++ 0x0A%N :: join_lines (l' :: lines)).
    destruct (IH ltac:(discriminate)) as [_ He'].
    split; [exists c, (r ++ 0x0A%N :: join_lines (l' :: lines)); split;
            [reflexivity|exact Hc]|].
    apply ends_nonspace_app_r. apply ends_cons. exact He'.
Qed.

Lemma rstrip_blank (w : text) :
  Forall (fun c => isspace c = true) w -> rstrip w = [].
Proof.
  induction 1 as [|c w Hc _ IH]; [reflexivity|]. cbn [rstrip]. rewrite IH, Hc. reflexivity.
Qed.

Lemma rstrip_app_blank (t w : text) :
  Forall (fun c => isspace c = true) w -> rstrip (t ++ w) = rstrip t.
Proof.
  intros Hw. induction t as [|c t IH]; cbn [app rstrip].
  - rewrite (rstrip_blank w Hw). reflexivity.
  - rewrite IH. reflexivity.
Qed.



(* ================================================================== *)
(** * Detecting and asking for the paths *)

Lemma first_fit_skip {A} (P : A -> Prop) (x : A) (l : list A) (r : option A) :
  ~ P x -> first_fit P l r -> first_fit P (x :: l) r.
Proof.
  intros Hx. destruct r as [y|]; cbn [first_fit].
  - intros (l1 & l2 & -> & Hy & Hl). exists (x :: l1), l2.
    split; [reflexivity|]. split; [exact Hy|]. constructor; assumption.
  - intros Hl. constructor; assumption.
Qed.

Lemma first_fit_here {A} (P : A -> Prop) (x : A) (l : list A) :
  P x -> first_fit P (x :: l) (Some x).
Proof.
  intros Hx. exists [], l. split; [reflexivity|]. split; [exact Hx|constructor].
Qed.

Lemma first_fit_In {A} (P : A -> Prop) (l : list A) (x : A) :
  first_fit P l (Some x) -> In x l /\ P x.
Proof.
  intros (l1 & l2 & -> & Hx & _). split; [|exact Hx].
  apply in_or_app. right. left. reflexivity.
Qed.

Lemma find_music_first_fit (fs : filesystem) :
  forall paths,
    exists r, find_music fs paths = inr r /\ first_fit (has_subdirectory fs) paths r.
Proof.
  induction paths as [|p paths (r & Hr & Hf)].
  - exists None. split; [reflexivity|constructor].
  - cbn [find_music]. destruct (fs p) as [[|[entries|]]|] eqn:E; cbn [isdir listdir ret raise].
    + exists r. split; [exact Hr|]. apply first_fit_skip; [|exact Hf].
      intros (en & d & n & H & _). congruence.
    + destruct (filter (fun d => isdir (snd d)) entries) as [|[d n] dirs] eqn:F;
        cbn [List.length Nat.ltb Nat.leb].
      * exists r. split; [exact Hr|]. apply first_fit_skip; [|exact Hf].
        intros (en & d & n & H & Hin & Hd).
        assert (Hen : en = entries) by congruence. subst en.
        assert (Hx : In (d, n) (filter (fun d => isdir (snd d)) entries))
          by (apply filter_In; split; [exact Hin|exact Hd]).
        rewrite F in Hx. destruct Hx.
      * exists (Some p). split; [reflexivity|]. apply first_fit_here.
        assert (Hx : In (d, n) (filter (fun d => isdir (snd d)) entries))
          by (rewrite F; left; reflexivity).
        apply filter_In in Hx as [Hin Hd]. exists entries, d, n.
        split; [exact E|]. split; [exact Hin|exact Hd].
    + exists r. split; [exact Hr|]. apply first_fit_skip; [|exact Hf].
      intros (en & d & n & H & _). congruence.
    + exists r. split; [exact Hr|]. apply first_fit_skip; [|exact Hf].
      intros (en & d & n & H & _). congruence.
Qed.

Lemma find_playlists_first_fit (fs : filesystem) :
  forall paths, first_fit (is_directory fs) paths (find_playlists fs paths).
Proof.
  induction paths as [|p paths IH]; [constructor|].
  cbn [find_playlists]. destruct (fs p) as [[|listing]|] eqn:E; cbn [isdir].
  - apply first_fit_skip; [|exact IH]. intros [l H]. congruence.
  - apply first_fit_here. exists listing. exact E.
  - apply first_fit_skip; [|exact IH]. intros [l H]. congruence.
Qed.

Lemma find_jellyfin_paths_spec (fs : filesystem) :
  exists found_music found_playlists,
    find_jellyfin_paths fs = inr (found_music, found_playlists)
    /\ first_fit (has_subdirectory fs) common_music_paths found_music
    /\ first_fit (is_directory fs) common_playlist_paths found_playlists.
Proof.
  unfold find_jellyfin_paths.
  destruct (find_music_first_fit fs common_music_paths) as (r & Hr & Hf).
  exists r, (find_playlists fs common_playlist_paths). rewrite Hr. cbn [bind ret].
  split; [reflexivity|]. split; [exact Hf|apply find_playlists_first_fit].
Qed.


Lemma read_line_spec (input : stdin) (line : text) (input' : stdin) :
  read_line input = inr (line, input') -> input = line :: input'.
Proof.
  destruct input as [|l r]; [discriminate|]. intros H; injection H as <- <-. reflexivity.
Qed.

Lemma read_line_error (input : stdin) (e : exn) :
  read_line input = inl e -> e = EOFError.
Proof. destruct input; [intros H; injection H as <-; reflexivity|discriminate]. Qed.

Lemma choose_path_spec (auto : option text) (input : stdin) (p : text) (input' : stdin) :
  choose_path auto input = inr (p, input') ->
  exists consumed,
    input = consumed ++ input'
    /\ (1 <= List.length consumed <= 2)%nat
    /\ (auto = Some p \/ exists line, In line consumed /\ p = strip line).
Proof.
  unfold choose_path.
  assert (Hask : forall input,
            (r <- read_line input ;; let '(line, input0) := r in ret (strip line, input0))
            = inr (p, input') ->
            exists line, input = line :: input' /\ p = strip line).
  { intros [|l r]; [discriminate|]. cbn [read_line bind ret].
    intros H; injection H as <- <-. exists l. split; reflexivity. }
  destruct auto as [[|c a]|].
  - intros H. destruct (Hask _ H) as (line & -> & ->). exists [line].
    split; [reflexivity|]. split; [cbn; lia|]. right. exists line. split; [left|]; reflexivity.
  - destruct input as [|l1 input1]; [discriminate|]. cbn [read_line bind ret].
    destruct (accepts (lower (strip l1))).
    + intros H; injection H as <- <-. exists [l1]. split; [reflexivity|].
      split; [cbn; lia|]. left. reflexivity.
    + intros H. destruct (Hask _ H) as (line & -> & ->). exists [l1; line].
      split; [reflexivity|]. split; [cbn; lia|]. right. exists line.
      split; [right; left|]; reflexivity.
  - intros H. destruct (Hask _ H) as (line & -> & ->). exists [line].
    split; [reflexivity|]. split; [cbn; lia|]. right. exists line. split; [left|]; reflexivity.
Qed.

Lemma choose_path_error (auto : option text) (input : stdin) (e : exn) :
  choose_path auto input = inl e -> e = EOFError.
Proof.
  unfold choose_path.
  assert (Hask : forall input,
            (r <- read_line input ;; let '(line, input0) := r in ret (strip line, input0))
            = inl e -> e = EOFError).
  { intros [|l r]; [|discriminate]. cbn [read_line bind raise].
    intros H; injection H as <-. reflexivity. }
  destruct auto as [[|c a]|]; [apply Hask| |apply Hask].
  destruct input as [|l1 input1]; cbn [read_line bind ret raise].
  - intros H; injection H as <-. reflexivity.
  - destruct (accepts (lower (strip l1))); [discriminate|apply Hask].
Qed.

Lemma get_user_paths_spec (fs : filesystem) (input : stdin) :
  match get_user_paths fs input with
  | inr (music_path, playlist_path, input') =>
      os_path_exists fs music_path = true
      /\ os_path_exists fs playlist_path = true
      /\ exists consumed,
           input = consumed ++ input' /\ (2 <= List.length consumed <= 4)%nat
  | inl h => h = SystemExit 1 \/ h = Uncaught EOFError
  end.
Proof.
  unfold get_user_paths.
  destruct (find_jellyfin_paths_spec fs) as (am & ap & -> & _ & _).
  cbn [run and_then].
  destruct (choose_path am input) as [e|[music_path input1]] eqn:E1; cbn [run and_then].
  { right. rewrite (choose_path_error _ _ _ E1). reflexivity. }
  destruct (os_path_exists fs music_path) eqn:X1; cbn [negb]; [|left; reflexivity].
  destruct (choose_path ap input1) as [e|[playlist_path input2]] eqn:E2; cbn [run and_then].
  { right. rewrite (choose_path_error _ _ _ E2). reflexivity. }
  destruct (os_path_exists fs playlist_path) eqn:X2; cbn [negb]; [|left; reflexivity].
  split; [exact X1|]. split; [exact X2|].
  destruct (choose_path_spec _ _ _ _ E1) as (c1 & -> & H1 & _).
  destruct (choose_path_spec _ _ _ _ E2) as (c2 & -> & H2 & _).
  exists (c1 ++ c2). split; [rewrite app_assoc; reflexivity|]. rewrite length_app. lia.
Qed.

(** X25 ([get_user_paths]): the prompting returns only paths that exist,
    after two to four lines of input; when it ends the program through
    [sys.exit], the exit status is 1. *)
Theorem get_user_paths_returns_existing_paths (fs : filesystem) (input : stdin) :
  (forall music_path playlist_path input',
     get_user_paths fs input = inr (music_path, playlist_path, input') ->
     os_path_exists fs music_path = true
     /\ os_path_exists fs playlist_path = true
     /\ exists consumed,
          input = consumed ++ input' /\ (2 <= List.length consumed <= 4)%nat)
  /\ (forall code, get_user_paths fs input = inl (SystemExit code) -> code = 1%Z).
Proof.
  pose proof (get_user_paths_spec fs input) as H. split.
  - intros music_path playlist_path input' E. rewrite E in H. exact H.
  - intros code E. rewrite E in H. destruct H as [H|H]; [|discriminate].
    injection H as ->. reflexivity.
Qed.

Lemma get_user_paths_returns_existing_paths_witness :
  os_path_exists example_fs music = true
  /\ os_path_exists example_fs (str "/config/data/playlists") = true
  /\ exists consumed,
       str " Yes " :: [] :: [str "My Mix"] = consumed ++ [str "My Mix"]
       /\ (2 <= List.length consumed <= 4)%nat.
Proof.
  apply (proj1 (get_user_paths_returns_existing_paths example_fs
                  (str " Yes " :: [] :: [str "My Mix"]))
           music (str "/config/data/playlists") [str "My Mix"]).
  vm_compute. reflexivity.
Defined.

Lemma common_paths_nonempty :
  Forall (fun p : text => p <> []) (common_music_paths ++ common_playlist_paths).
Proof. repeat constructor; discriminate. Qed.

(** X26 ([get_user_paths], [find_jellyfin_paths]): when both paths are
    detected and the two answers are empty, [y] or [yes], in any letter
    case and with any white space around, the detected paths are returned:
    a detected path always passes the check that it exists. *)
Theorem detected_paths_are_accepted (fs : filesystem) (auto_music auto_playlists : text)
    (answer1 answer2 : text) (input : stdin) :
  find_jellyfin_paths fs = inr (Some auto_music, Some auto_playlists) ->
  accepts (lower (strip answer1)) = true ->
  accepts (lower (strip answer2)) = true ->
  get_user_paths fs (answer1 :: answer2 :: input)
  = inr (auto_music, auto_playlists, input).
Proof.
  intros Hf H1 H2. unfold get_user_paths. rewrite Hf. cbn [run and_then].
  destruct (find_jellyfin_paths_spec fs) as (am & ap & Hf' & Hm & Hp).
  rewrite Hf in Hf'. injection Hf' as <- <-.
  apply first_fit_In in Hm as [Hmi (en & d & n & Hm & _)].
  apply first_fit_In in Hp as [Hpi (l & Hp)].
  pose proof common_paths_nonempty as Hne. rewrite Forall_forall in Hne.
  assert (Hmn : auto_music <> []) by (apply Hne, in_or_app; left; exact Hmi).
  assert (Hpn : auto_playlists <> []) by (apply Hne, in_or_app; right; exact Hpi).
  destruct auto_music as [|c1 m]; [contradiction Hmn; reflexivity|].
  destruct auto_playlists as [|c2 q]; [contradiction Hpn; reflexivity|].
  unfold choose_path, os_path_exists. cbn [read_line bind ret]. rewrite H1.
  cbn [run and_then ret]. rewrite Hm. cbn [negb read_line bind ret]. rewrite H2.
  cbn [run and_then ret]. rewrite Hp. reflexivity.
Qed.

Lemma detected_paths_are_accepted_witness :
  get_user_paths example_fs (str " Yes " :: [] :: [str "My Mix"])
  = inr (music, str "/config/data/playlists", [str "My Mix"]).
Proof.
  apply (detected_paths_are_accepted example_fs music (str "/config/data/playlists")
           (str " Yes ") [] [str "My Mix"]); vm_compute; reflexivity.
Defined.

(* ================================================================== *)
(** * The program *)


